(** * Diagram synchronisation for hierarchical state machines

    A shallow embedding of [transitions/extensions/diagrams.py]: the graph
    builder ([AGraph]), the per-model diagram owner and style applicator
    ([GraphMachine]) and the transition hook ([TransitionGraphSupport]).

    Python exceptions are values of [exn]; every fallible operation returns a
    [Result].  Mutable objects (the model, its graph) are passed explicitly and
    returned updated.  Attribute dictionaries are finite maps from strings to
    strings; [dict.update] is the left-biased union. *)

From Stdlib Require Import Ascii String.
From stdpp Require Import gmap strings list fin_maps.

Local Open Scope string_scope.
Set Warnings "-register-all".

(** ** Exceptions and the error monad *)

Inductive exn :=
  | KeyError (what : string)
  | ValueError (what : string)
  | AttributeError (what : string)
  | TypeError (what : string)
  | Exception (what : string).

Definition Result (A : Type) : Type := exn + A.

Definition ok {A} (x : A) : Result A := inr x.
Definition raise {A} (e : exn) : Result A := inl e.

Definition bind {A B} (m : Result A) (k : A -> Result B) : Result B :=
  match m with
  | inl e => inl e
  | inr x => k x
  end.

Notation "x <- m ;; k" := (bind m (fun x => k))
  (at level 100, m at next level, right associativity, only parsing).

(** A [for] loop whose body may raise: the state is threaded left to right
    and the first exception aborts the loop. *)
Fixpoint for_each {A S} (body : S -> A -> Result S) (xs : list A) (s : S) : Result S :=
  match xs with
  | [] => ok s
  | x :: xs' => s' <- body s x ;; for_each body xs' s'
  end.

(** ** Attribute dictionaries *)

Abbreviation Attrs := (gmap string string).

(** [d.update(other)]: keys of [other] overwrite, the rest of [d] stays. *)
Definition update (d other : Attrs) : Attrs := other ∪ d.

(** [d.update(other)] when [other] may be [None] (a failed [dict.get]). *)
Definition update_opt (d : Attrs) (other : option Attrs) : Result Attrs :=
  match other with
  | Some o => ok (update d o)
  | None => raise (TypeError "'NoneType' object is not iterable")
  end.

(** ** The host machine's data (read-only to the diagram code) *)

(** A state: the qualified [name], the short [_name], and [children], which
    is [None] for a plain (non-nested) state object without that attribute. *)
Inductive State :=
  MkState (name _name : string) (children : option (list State)).

Definition name (s : State) : string := let 'MkState n _ _ := s in n.
Definition _name (s : State) : string := let 'MkState _ n _ := s in n.
Definition children (s : State) : option (list State) := let 'MkState _ _ c := s in c.

Record Condition := { func : string; target : bool }.

Record Transition := {
  source : option string;
  dest : string;
  conditions : list Condition
}.

(** [transitions] is the ordered mapping source name -> list of transitions. *)
Record Event := {
  ev_name : string;
  transitions : list (string * list Transition)
}.

(** ** The rendering backend's abstract graph *)

Module pgv.

Record Edge := {
  e_from : string;
  e_to : string;
  e_key : option string;
  e_attr : Attrs
}.

Inductive Subgraph := MkSubgraph {
  sg_name : string;
  sg_graph_attr : Attrs;
  sg_nodes : list string;
  sg_subgraphs : list Subgraph
}.

(** The root graph.  [nodes] holds every node of the graph, also those that
    sit in a cluster; [node_attr] are the defaults a new node starts from;
    [style_attributes] is the attribute set with [setattr] by the builder
    ([None] on a graph that never got it). *)
Record AGraph := {
  graph_attr : Attrs;
  node_attr : Attrs;
  nodes : gmap string Attrs;
  edges : list Edge;
  subgraphs : list Subgraph;
  style_attributes : option (gmap string (gmap string Attrs))
}.

Definition set_nodes (g : AGraph) (ns : gmap string Attrs) : AGraph :=
  {| graph_attr := graph_attr g; node_attr := node_attr g; nodes := ns;
     edges := edges g; subgraphs := subgraphs g;
     style_attributes := style_attributes g |}.

Definition set_edges (g : AGraph) (es : list Edge) : AGraph :=
  {| graph_attr := graph_attr g; node_attr := node_attr g; nodes := nodes g;
     edges := es; subgraphs := subgraphs g;
     style_attributes := style_attributes g |}.

Definition set_subgraphs (g : AGraph) (sgs : list Subgraph) : AGraph :=
  {| graph_attr := graph_attr g; node_attr := node_attr g; nodes := nodes g;
     edges := edges g; subgraphs := sgs;
     style_attributes := style_attributes g |}.

Definition set_node_attr (g : AGraph) (d : Attrs) : AGraph :=
  {| graph_attr := graph_attr g; node_attr := d; nodes := nodes g;
     edges := edges g; subgraphs := subgraphs g;
     style_attributes := style_attributes g |}.

Definition set_style_attributes (g : AGraph)
    (t : gmap string (gmap string Attrs)) : AGraph :=
  {| graph_attr := graph_attr g; node_attr := node_attr g; nodes := nodes g;
     edges := edges g; subgraphs := subgraphs g;
     style_attributes := Some t |}.

(** [pgv.AGraph] called with keyword attributes: an empty directed, non-strict graph. *)
Definition new (attrs : Attrs) : AGraph :=
  {| graph_attr := attrs; node_attr := ∅; nodes := ∅; edges := [];
     subgraphs := []; style_attributes := None |}.

Definition has_node (g : AGraph) (n : string) : bool :=
  bool_decide (is_Some (nodes g !! n)).

(** [get_node] raises [KeyError] on an unknown node; the node handle is
    its name. *)
Definition get_node (g : AGraph) (n : string) : Result string :=
  if has_node g n then ok n else raise (KeyError ("Node " +:+ n +:+ " not in graph."))%string.

(** Attribute of a node handle; an attribute never set reads as [None]. *)
Definition node_attrs (g : AGraph) (n : string) : Attrs :=
  default ∅ (nodes g !! n).

(** [add_node(n, **attrs)] on the root graph: a new node starts from the
    node defaults, an existing one keeps its attributes; [attrs] are then
    written over them. *)
Definition add_node (g : AGraph) (n : string) (attrs : Attrs) : AGraph :=
  set_nodes g (<[n := update (default (node_attr g) (nodes g !! n)) attrs]> (nodes g)).

(** Edges between [u] and [v] in this direction (the graph is directed). *)
Definition joins (u v : string) (e : Edge) : bool :=
  bool_decide (e_from e = u) && bool_decide (e_to e = v).

(** Index of the first edge from [u] to [v]. *)
Fixpoint find_edge (es : list Edge) (u v : string) : option nat :=
  match es with
  | [] => None
  | e :: es' => if joins u v e then Some 0 else S <$> find_edge es' u v
  end.

(** [has_edge(u, v)]: both nodes exist and some edge runs from [u] to [v]. *)
Definition has_edge (g : AGraph) (u v : string) : bool :=
  has_node g u && has_node g v && bool_decide (is_Some (find_edge (edges g) u v)).

(** [get_edge(u, v)]: the handle (position) of the first such edge;
    [KeyError] when a node or the edge is missing. *)
Definition get_edge (g : AGraph) (u v : string) : Result nat :=
  _ <- get_node g u ;;
  _ <- get_node g v ;;
  match find_edge (edges g) u v with
  | Some i => ok i
  | None => raise (KeyError ("Edge " +:+ u +:+ "-" +:+ v +:+ " not in graph."))
  end.

(** [add_edge(u, v, key, **attrs)]: nodes that are missing are added first;
    in a non-strict graph a new edge is appended. *)
Definition add_edge (g : AGraph) (u v : string) (key : option string)
    (attrs : Attrs) : AGraph :=
  let g1 := if has_node g u then g else add_node g u ∅ in
  let g2 := if has_node g1 v then g1 else add_node g1 v ∅ in
  set_edges g2 ((edges g2 ++ [{| e_from := u; e_to := v; e_key := key; e_attr := attrs |}])%list).

(** [nodes_iter()] of the root graph: every node name. *)
Definition nodes_iter (g : AGraph) : list string := (map_to_list (nodes g)).*1.

(** [edges_iter()]: every edge handle. *)
Definition edges_iter (g : AGraph) : list nat := seq 0 (length (edges g)).

(** [edges_iter(n)]: the edges leaving or entering [n], each one once. *)
Definition incident (n : string) (e : Edge) : bool :=
  bool_decide (e_from e = n) || bool_decide (e_to e = n).

Definition edges_iter_at (g : AGraph) (n : string) : list Edge :=
  List.filter (incident n) (edges g).

(** *** Subgraphs, addressed by the path of subgraph names from the root *)

Definition named (n : string) (sg : Subgraph) : bool := bool_decide (sg_name sg = n).

(** [container.get_subgraph(name)] among the direct subgraphs. *)
Definition get_subgraph_in (sgs : list Subgraph) (n : string) : option Subgraph :=
  List.find (named n) sgs.

(** The subgraph reached from the root along [path]. *)
Fixpoint subgraph_at (sgs : list Subgraph) (path : list string) : option Subgraph :=
  match path with
  | [] => None
  | [n] => get_subgraph_in sgs n
  | n :: rest =>
      match get_subgraph_in sgs n with
      | Some sg => subgraph_at (sg_subgraphs sg) rest
      | None => None
      end
  end.

(** Replace the first subgraph called [n] by its image under [f]. *)
Fixpoint alter_named (f : Subgraph -> Subgraph) (n : string) (sgs : list Subgraph)
    : list Subgraph :=
  match sgs with
  | [] => []
  | sg :: rest => if named n sg then f sg :: rest else sg :: alter_named f n rest
  end.

Definition with_subgraphs (sg : Subgraph) (subs : list Subgraph) : Subgraph :=
  {| sg_name := sg_name sg; sg_graph_attr := sg_graph_attr sg;
     sg_nodes := sg_nodes sg; sg_subgraphs := subs |}.

Definition with_graph_attr (sg : Subgraph) (d : Attrs) : Subgraph :=
  {| sg_name := sg_name sg; sg_graph_attr := d;
     sg_nodes := sg_nodes sg; sg_subgraphs := sg_subgraphs sg |}.

Definition with_member (n : string) (sg : Subgraph) : Subgraph :=
  {| sg_name := sg_name sg; sg_graph_attr := sg_graph_attr sg;
     sg_nodes := if bool_decide (n ∈ sg_nodes sg) then sg_nodes sg else (sg_nodes sg ++ [n])%list;
     sg_subgraphs := sg_subgraphs sg |}.

(** Apply [f] to the subgraph at the end of [path]. *)
Fixpoint alter_at (f : Subgraph -> Subgraph) (path : list string)
    (sgs : list Subgraph) : list Subgraph :=
  match path with
  | [] => sgs
  | [n] => alter_named f n sgs
  | n :: rest =>
      alter_named (λ sg, with_subgraphs sg (alter_at f rest (sg_subgraphs sg))) n sgs
  end.

(** Apply [f] to every subgraph on the way down [path], the last included. *)
Fixpoint alter_along (f : Subgraph -> Subgraph) (path : list string)
    (sgs : list Subgraph) : list Subgraph :=
  match path with
  | [] => sgs
  | n :: rest =>
      alter_named (λ sg, f (with_subgraphs sg (alter_along f rest (sg_subgraphs sg)))) n sgs
  end.

(** [container.add_subgraph(name=n, **attrs)] for the container at [path]
    ([[]] is the root): the subgraph is created empty when missing; [attrs]
    are written to its graph attributes. *)
Definition add_subgraph_in (sgs : list Subgraph) (n : string) (attrs : Attrs)
    : list Subgraph :=
  match get_subgraph_in sgs n with
  | Some _ => alter_named (λ sg, with_graph_attr sg (update (sg_graph_attr sg) attrs)) n sgs
  | None => (sgs ++ [{| sg_name := n; sg_graph_attr := attrs; sg_nodes := [];
                        sg_subgraphs := [] |}])%list
  end.

Definition add_subgraph (g : AGraph) (path : list string) (n : string)
    (attrs : Attrs) : AGraph :=
  match path with
  | [] => set_subgraphs g (add_subgraph_in (subgraphs g) n attrs)
  | _ => set_subgraphs g
           (alter_at (λ sg, with_subgraphs sg (add_subgraph_in (sg_subgraphs sg) n attrs))
                     path (subgraphs g))
  end.

(** [container.add_node(n, **attrs)] for the container at [path]: the node
    joins the root graph and every subgraph down to the container. *)
Definition add_node_in (g : AGraph) (path : list string) (n : string)
    (attrs : Attrs) : AGraph :=
  set_subgraphs (add_node g n attrs) (alter_along (with_member n) path (subgraphs g)).

End pgv.

(** ** The host machine and its models *)

(** A running model: its current-state pointer, the [graph] attribute once a
    diagram was built for it, and the names of its other attributes. *)
Record Model := {
  state : string;
  graph : option pgv.AGraph;
  attributes : gset string
}.

Definition hasattr (model : Model) (a : string) : bool :=
  bool_decide (a ∈ attributes model).

Definition set_graph (model : Model) (g : pgv.AGraph) : Model :=
  {| state := state model; graph := Some g; attributes := attributes model |}.

Definition set_state (model : Model) (s : string) : Model :=
  {| state := s; graph := graph model; attributes := attributes model |}.

Definition bind_attribute (model : Model) (a : string) : Model :=
  {| state := state model; graph := graph model;
     attributes := {[ a ]} ∪ attributes model |}.

(** The machine definition with the graph configuration of [GraphMachine].
    [states] and [events] are ordered dictionaries. *)
Record Machine := {
  states : list (string * State);
  events : list (string * Event);
  initial : string;
  title : string;
  show_conditions : bool;
  show_auto_transitions : bool;
  models : list Model
}.

Definition set_models (machine : Machine) (ms : list Model) : Machine :=
  {| states := states machine; events := events machine;
     initial := initial machine; title := title machine;
     show_conditions := show_conditions machine;
     show_auto_transitions := show_auto_transitions machine;
     models := ms |}.

(** Modelled from the spec: the host engine's [Machine.get_state] (core, not
    part of this file) looks a state up by its qualified name; a name that is
    not registered is a configuration error. *)
Definition get_state (machine : Machine) (n : string) : Result State :=
  match List.find (λ p, bool_decide (p.1 = n)) (states machine) with
  | Some p => ok p.2
  | None => raise (ValueError ("State '" +:+ n +:+ "' is not a registered state."))
  end.

(** Modelled from the spec: [NestedState.separator] (nesting extension, not
    part of this file), the character that joins the segments of a qualified
    state name. *)
Definition separator : ascii := "_"%char.

(** [s.split(sep)] for a one-character separator. *)
Fixpoint split (sep : ascii) (s : string) : list string :=
  match s with
  | EmptyString => [""]
  | String c s' =>
      if bool_decide (c = sep) then "" :: split sep s'
      else match split sep s' with
           | h :: t => String c h :: t
           | [] => [String c ""]
           end
  end.

(** [while len(s.children) > 0: s = s.children[0]]; reading [children] of a
    state that lacks the attribute raises. *)
Fixpoint first_leaf (s : State) : Result State :=
  match s with
  | MkState _ _ None => raise (AttributeError "'State' object has no attribute 'children'")
  | MkState _ _ (Some []) => ok s
  | MkState _ _ (Some (c :: _)) => first_leaf c
  end.

(** ** The graph builder, class [AGraph] *)

Module AGraph.

Definition machine_attributes : Attrs :=
  {[ "rankdir" := "LR"; "ratio" := "0.3" ]}.

Definition style_attributes : gmap string (gmap string Attrs) :=
  {[ "node" :=
       {[ "default" :=
            {[ "shape" := "circle"; "height" := "1.2"; "style" := "filled";
               "fillcolor" := "white"; "color" := "black" ]};
          "active" :=
            {[ "color" := "red"; "fillcolor" := "darksalmon";
               "shape" := "doublecircle" ]};
          "previous" :=
            {[ "color" := "blue"; "fillcolor" := "azure2" ]} ]};
     "edge" :=
       {[ "default" := {[ "color" := "black" ]};
          "previous" := {[ "color" := "blue" ]} ]} ]}.

(** [_add_nodes] for one state of the loop; [container] is the path of the
    subgraph being filled ([[]] for the root), [acc] the [seen] list and the
    graph. *)
Fixpoint _add_nodes_state (container : list string) (st : State)
    (acc : list string * pgv.AGraph) {struct st} : list string * pgv.AGraph :=
  match st with
  | MkState nm snm ch =>
      if bool_decide (nm ∈ acc.1) then acc
      else
        let leaf :=
          let shape := ((style_attributes !!! "node") !!! "default") !!! "shape" in
          ((acc.1 ++ [nm])%list, pgv.add_node_in acc.2 container nm {[ "shape" := shape ]}) in
        match ch with
        | Some cs =>
            match cs with
            | [] => leaf
            | _ :: _ =>
                let sub := "cluster_" +:+ snm in
                let g1 := pgv.add_subgraph acc.2 container sub
                            {[ "label" := nm; "rank" := "same" ]} in
                fold_left (λ a c, _add_nodes_state (container ++ [sub])%list c a) cs
                          ((acc.1 ++ [nm])%list, g1)
            end
        | None => leaf
        end
  end.

Definition _add_nodes (sts : list State) (container : list string)
    (acc : list string * pgv.AGraph) : list string * pgv.AGraph :=
  fold_left (λ a st, _add_nodes_state container st a) sts acc.

Definition _transition_label (machine : Machine) (edge_label : string)
    (tran : Transition) : string :=
  if show_conditions machine && negb (bool_decide (conditions tran = [])) then
    edge_label +:+ " [" +:+
      String.concat " & "
        (map (λ c, if target c then func c else "!" +:+ func c) (conditions tran))
      +:+ "]"
  else edge_label.

(** The descent of [_add_edges]: a state with children is replaced by its
    first leaf and yields a cluster marker built from [tag]. *)
Definition descend (tag : State -> string) (s : State) : Result (string * State) :=
  match children s with
  | Some (c :: _) => leaf <- first_leaf c ;; ok ("cluster_" +:+ tag s, leaf)
  | _ => ok ("", s)
  end.

(** [edge.attr['label'] = edge.attr['label'] + ' | ' + edge_label]. *)
Definition append_label (edge_label : string) (e : pgv.Edge) : pgv.Edge :=
  {| pgv.e_from := pgv.e_from e; pgv.e_to := pgv.e_to e; pgv.e_key := pgv.e_key e;
     pgv.e_attr := <["label" := default "" (pgv.e_attr e !! "label") +:+ " | " +:+ edge_label]>
                     (pgv.e_attr e) |}.

(** The body of the innermost loop of [_add_edges], for the transition [t]
    listed under the source name [key], whose state resolved to [src]. *)
Definition _add_edge (machine : Machine) (label key ltail : string) (src : State)
    (container : pgv.AGraph) (t : Transition) : Result pgv.AGraph :=
  dst0 <- get_state machine (dest t) ;;
  let edge_label := _transition_label machine label t in
  r <- descend name dst0 ;;
  let lhead := r.1 in
  let dst := r.2 in
  if bool_decide (name dst = name src) && negb (bool_decide (key = dest t)) then
    ok container
  else if pgv.has_edge container (name src) (name dst) then
    edge <- pgv.get_edge container (name src) (name dst) ;;
    ok (pgv.set_edges container (alter (append_label edge_label) edge (pgv.edges container)))
  else
    ok (pgv.add_edge container (name src) (name dst) None
          {[ "label" := edge_label; "ltail" := ltail; "lhead" := lhead ]}).

(** The loop body over [event.transitions.items()]. *)
Definition _add_edges_from (machine : Machine) (label : string)
    (container : pgv.AGraph) (transitions : string * list Transition)
    : Result pgv.AGraph :=
  src0 <- get_state machine transitions.1 ;;
  r <- descend _name src0 ;;
  for_each (_add_edge machine label transitions.1 r.1 r.2) transitions.2 container.

(** The loop body over [events.values()]. *)
Definition _add_edges_event (machine : Machine) (container : pgv.AGraph)
    (event : Event) : Result pgv.AGraph :=
  let label := ev_name event in
  if negb (show_auto_transitions machine) && String.prefix "to_" label
     && Nat.eqb (length (transitions event)) (length (states machine)) then
    ok container
  else for_each (_add_edges_from machine label) (transitions event) container.

Definition _add_edges (machine : Machine) (evs : list (string * Event))
    (container : pgv.AGraph) : Result pgv.AGraph :=
  for_each (_add_edges_event machine) evs.*2 container.

(** [get_graph]; [pgv_imported] tells whether the import of the rendering
    backend succeeded. *)
Definition get_graph (pgv_imported : bool) (machine : Machine) (title : string)
    : Result pgv.AGraph :=
  if negb pgv_imported then raise (Exception "AGraph diagram requires pygraphviz")
  else
    let fsm_graph :=
      pgv.new (update machine_attributes {[ "label" := title; "compound" := "True" ]}) in
    let fsm_graph :=
      pgv.set_node_attr fsm_graph
        (update (pgv.node_attr fsm_graph) ((style_attributes !!! "node") !!! "default")) in
    let fsm_graph := (_add_nodes (states machine).*2 [] ([], fsm_graph)).2 in
    fsm_graph <- _add_edges machine (events machine) fsm_graph ;;
    ok (pgv.set_style_attributes fsm_graph style_attributes).

End AGraph.

(** A loop that rebinds every element of a list, aborting on the first
    exception. *)
Fixpoint map_result {A B} (f : A -> Result B) (xs : list A) : Result (list B) :=
  match xs with
  | [] => ok []
  | x :: xs' => y <- f x ;; ys <- map_result f xs' ;; ok (y :: ys)
  end.

(** ** The diagram owner and style applicator, class [GraphMachine] *)

Module GraphMachine.

(** [graph.style_attributes.get(kind, {}).get(style)]. *)
Definition style_attr (graph : pgv.AGraph) (kind style : string)
    : Result (option Attrs) :=
  match pgv.style_attributes graph with
  | Some tbl => ok (default ∅ (tbl !! kind) !! style)
  | None => raise (AttributeError "'AGraph' object has no attribute 'style_attributes'")
  end.

Definition set_node_style (graph : pgv.AGraph) (node_name style : string)
    : Result pgv.AGraph :=
  node <- pgv.get_node graph node_name ;;
  sa <- style_attr graph "node" style ;;
  attr <- update_opt (pgv.node_attrs graph node) sa ;;
  ok (pgv.set_nodes graph (<[node := attr]> (pgv.nodes graph))).

Definition with_attr (e : pgv.Edge) (d : Attrs) : pgv.Edge :=
  {| pgv.e_from := pgv.e_from e; pgv.e_to := pgv.e_to e; pgv.e_key := pgv.e_key e;
     pgv.e_attr := d |}.

(** [edge] is an edge handle of [graph]. *)
Definition set_edge_style (graph : pgv.AGraph) (edge : nat) (style : string)
    : Result pgv.AGraph :=
  sa <- style_attr graph "edge" style ;;
  match pgv.edges graph !! edge with
  | Some e =>
      attr <- update_opt (pgv.e_attr e) sa ;;
      ok (pgv.set_edges graph (<[edge := with_attr e attr]> (pgv.edges graph)))
  | None => raise (KeyError "edge handle")
  end.

(** [item] is the path of a subgraph, or [None] when the lookup that
    produced it found nothing. *)
Definition set_graph_style (graph : pgv.AGraph) (item : option (list string))
    (style : string) : Result pgv.AGraph :=
  sa <- style_attr graph "node" style ;;
  match item ≫= pgv.subgraph_at (pgv.subgraphs graph), item with
  | Some sg, Some path =>
      attr <- update_opt (pgv.sg_graph_attr sg) sa ;;
      ok (pgv.set_subgraphs graph
            (pgv.alter_at (λ sg, pgv.with_graph_attr sg attr) path (pgv.subgraphs graph)))
  | _, _ => raise (AttributeError "'NoneType' object has no attribute 'graph_attr'")
  end.

(** The descent [node = node.get_subgraph('cluster_' + path.pop(0))] of
    [set_node_state]: [node] is the list of subgraphs of the current graph
    object, [None] once a lookup failed. *)
Fixpoint cluster_walk (node : option (list pgv.Subgraph)) (path : list string)
    : Result (option (list pgv.Subgraph)) :=
  match path with
  | [] => ok node
  | p :: rest =>
      match node with
      | Some sgs =>
          cluster_walk (pgv.sg_subgraphs <$> pgv.get_subgraph_in sgs ("cluster_" +:+ p)) rest
      | None => raise (AttributeError "'NoneType' object has no attribute 'get_subgraph'")
      end
  end.

Definition set_node_state (graph : pgv.AGraph) (node_name state : string)
    : Result pgv.AGraph :=
  if pgv.has_node graph node_name then
    node <- pgv.get_node graph node_name ;;
    set_node_style graph node state
  else
    let path := split separator node_name in
    node <- cluster_walk (Some (pgv.subgraphs graph)) path ;;
    set_graph_style graph
      (match node with Some _ => Some (map (String.append "cluster_") path) | None => None end)
      state.

Definition reset_nodes (graph : pgv.AGraph) : Result pgv.AGraph :=
  for_each (λ g n, set_node_style g n "default") (pgv.nodes_iter graph) graph.

Definition set_edge_state (machine : Machine) (graph : pgv.AGraph)
    (edge_from edge_to state : string) (label : option string) : Result pgv.AGraph :=
  let graph :=
    if negb (show_auto_transitions machine) && negb (pgv.has_edge graph edge_from edge_to)
    then pgv.add_edge graph edge_from edge_to label ∅
    else graph in
  edge <- pgv.get_edge graph edge_from edge_to ;;
  graph <- for_each (λ g e, set_edge_style g e "default") (pgv.edges_iter graph) graph ;;
  set_edge_style graph edge state.

Definition model_graph (model : Model) : Result pgv.AGraph :=
  match graph model with
  | Some g => ok g
  | None => raise (AttributeError "'Model' object has no attribute 'graph'")
  end.

(** The loop body of [_graph_roi]: [g] is the model's graph, [active] the
    active node, [t] an edge at that node. *)
Definition _graph_roi_step (g : pgv.AGraph) (active : string) (filtered : pgv.AGraph)
    (t : pgv.Edge) : Result pgv.AGraph :=
  let keep new_node :=
    let filtered := pgv.add_node filtered new_node (pgv.node_attrs g new_node) in
    ok (pgv.add_edge filtered (pgv.e_from t) (pgv.e_to t) None (pgv.e_attr t)) in
  if bool_decide (pgv.e_from t = active) then keep (pgv.e_to t)
  else if bool_decide (pgv.node_attrs g (pgv.e_from t) !! "fillcolor"
                       = ((AGraph.style_attributes !!! "node") !!! "previous") !! "fillcolor")
  then keep (pgv.e_from t)
  else ok filtered.

(** [_graph_roi]; the constructor of the filtered graph is looked up on the
    backend module, which is [None] when its import failed. *)
Definition _graph_roi (pgv_imported : bool) (model : Model) (title : string)
    : Result pgv.AGraph :=
  g <- model_graph model ;;
  if negb pgv_imported then
    raise (AttributeError "'NoneType' object has no attribute 'AGraph'")
  else
  let filtered :=
    pgv.new (update AGraph.machine_attributes {[ "label" := title; "compound" := "True" ]}) in
  let filtered :=
    pgv.set_node_attr filtered
      (update (pgv.node_attr filtered) ((AGraph.style_attributes !!! "node") !!! "default")) in
  active <- pgv.get_node g (state model) ;;
  let filtered := pgv.add_node filtered active (pgv.node_attrs g active) in
  for_each (_graph_roi_step g active) (pgv.edges_iter_at g active) filtered.

(** [_get_graph] returns the graph handed to the caller together with the
    model, whose [graph] attribute it may have (re)bound. *)
Definition _get_graph (pgv_imported : bool) (self : Machine) (model : Model)
    (title_arg : option string) (force_new show_roi : bool)
    : Result (Model * pgv.AGraph) :=
  let title := default (title self) title_arg in
  model <- (if negb (bool_decide (is_Some (graph model))) || force_new then
              g <- AGraph.get_graph pgv_imported self title ;;
              g <- set_node_state g (state model) "active" ;;
              ok (set_graph model g)
            else ok model) ;;
  if show_roi then r <- _graph_roi pgv_imported model title ;; ok (model, r)
  else g <- model_graph model ;; ok (model, g).

(** [model.get_graph(force_new=True)], the accessor bound by [__init__]. *)
Definition rebuild (pgv_imported : bool) (self : Machine) (model : Model)
    : Result Model :=
  if hasattr model "get_graph" then
    r <- _get_graph pgv_imported self model None true false ;; ok r.1
  else raise (AttributeError "'Model' object has no attribute 'get_graph'").

(** [add_states] and [add_transition]; [super_add] is the core method of the
    same name applied to the call's arguments. *)
Definition add_states (pgv_imported : bool) (super_add : Machine -> Result Machine)
    (self : Machine) : Result Machine :=
  self <- super_add self ;;
  ms <- map_result (rebuild pgv_imported self) (models self) ;;
  ok (set_models self ms).

Definition add_transition (pgv_imported : bool) (super_add : Machine -> Result Machine)
    (self : Machine) : Result Machine :=
  self <- super_add self ;;
  ms <- map_result (rebuild pgv_imported self) (models self) ;;
  ok (set_models self ms).

(** The loop body of [__init__] that binds the accessor to one model. *)
Definition bind_model (pgv_imported : bool) (self : Machine) (model : Model)
    : Result Model :=
  if hasattr model "get_graph" then
    raise (AttributeError
             "Model already has a get_graph attribute. Graph retrieval cannot be bound.")
  else
    let model := bind_attribute model "get_graph" in
    r <- _get_graph pgv_imported self model None false false ;;
    g <- model_graph r.1 ;;
    g <- set_node_state g (initial self) "active" ;;
    ok (set_graph r.1 g).

(** [__init__]; [super_init] is the outcome of the core constructor, the
    graph options taken from the keywords already stored. *)
Definition __init__ (pgv_imported : bool) (super_init : Result Machine)
    : Result Machine :=
  self <- super_init ;;
  ms <- map_result (bind_model pgv_imported self) (models self) ;;
  ok (set_models self ms).

(** The loop body of [__setstate__] for one model: the graph of the model
    (built when it has none) gets the active style on the node of the
    model's current state. *)
Definition restore_model (pgv_imported : bool) (self : Machine) (model : Model)
    : Result Model :=
  r <- _get_graph pgv_imported self model (Some (title self)) false false ;;
  graph <- set_node_style r.2 (state r.1) "active" ;;
  ok (set_graph r.1 graph).

(** [__setstate__]: [state] is the unpickled attribute dictionary; the
    object under reconstruction has no attribute of its own yet, so after
    [self.__dict__.update(state)] it is [state]. *)
Definition __setstate__ (pgv_imported : bool) (state : Machine) : Result Machine :=
  let self := state in
  ms <- map_result (restore_model pgv_imported self) (models self) ;;
  ok (set_models self ms).

Definition _pickle_blacklist : list string := ["graph"].

(** [__getstate__] on the attribute dictionary of the machine. *)
Definition __getstate__ {V} (__dict__ : gmap string V) : gmap string V :=
  filter (λ kv, kv.1 ∉ _pickle_blacklist) __dict__.

End GraphMachine.

(** ** The transition hook, class [TransitionGraphSupport] *)

Module TransitionGraphSupport.

(** Modelled from the spec: the core's [Transition._change_state] (not part
    of this file) moves the model's current-state pointer to the
    destination. *)
Definition super_change_state (self : Transition) (model : Model) : Result Model :=
  ok (set_state model (dest self)).

(** The diagram update of [_change_state], up to the call of the core
    method. *)
Definition update_diagram (self : Transition) (machine : Machine)
    (event_name : string) (model : Model) : Result Model :=
  dest0 <- get_state machine (dest self) ;;
  g <- GraphMachine.model_graph model ;;
  g <- GraphMachine.reset_nodes g ;;
  r <- match source self with
       | Some src =>
           source0 <- get_state machine src ;;
           g <- GraphMachine.set_node_state g (name source0) "previous" ;;
           sd <- match children source0 with
                 | Some _ =>
                     s <- first_leaf source0 ;;
                     d <- first_leaf dest0 ;;
                     ok (s, d)
                 | None => ok (source0, dest0)
                 end ;;
           g <- GraphMachine.set_edge_state machine g (name sd.1) (name sd.2)
                  "previous" (Some event_name) ;;
           ok (g, sd.2)
       | None => ok (g, dest0)
       end ;;
  g <- GraphMachine.set_node_state r.1 (name r.2) "active" ;;
  ok (set_graph model g).

Definition _change_state (self : Transition) (machine : Machine)
    (event_name : string) (model : Model) : Result Model :=
  model <- update_diagram self machine event_name model ;;
  super_change_state self model.

End TransitionGraphSupport.

(** * Vocabulary of the properties *)

(** The attribute dictionary of a role in the class-level style table. *)
Definition node_style (role : string) : Attrs :=
  default ∅ ((AGraph.style_attributes !!! "node") !! role).

Definition edge_style (role : string) : Attrs :=
  default ∅ ((AGraph.style_attributes !!! "edge") !! role).

(** An element carries a role when every attribute of the role's dictionary
    is set on it with the role's value. *)
Definition carries (role : string) (attrs : Attrs) : Prop :=
  node_style role ⊆ attrs.

Definition edge_carries (role : string) (attrs : Attrs) : Prop :=
  edge_style role ⊆ attrs.

(** Graphs as the builder leaves them: the style table attached, new nodes
    starting from the default node style. *)
Definition styled (g : pgv.AGraph) : Prop :=
  pgv.style_attributes g = Some AGraph.style_attributes.

Definition node_defaults (g : pgv.AGraph) : Prop :=
  pgv.node_attr g = node_style "default".

(** A completed sequence of transitions, each with the name of the event that
    fired it. *)
Definition fire (machine : Machine) (ts : list (Transition * string)) (model : Model)
    : Result Model :=
  for_each (λ m te, TransitionGraphSupport._change_state te.1 machine te.2 m) ts model.

(** Whether a run completed. *)
Definition is_ok {A} (r : Result A) : bool :=
  match r with inr _ => true | inl _ => false end.

(** A styling target: a node by name or an edge by handle. *)
Inductive element := Node (n : string) | Edge (e : nat).

Definition kind (t : element) : string :=
  match t with Node _ => "node" | Edge _ => "edge" end.

Definition apply_style (g : pgv.AGraph) (t : element) (role : string) : Result pgv.AGraph :=
  match t with
  | Node n => GraphMachine.set_node_style g n role
  | Edge e => GraphMachine.set_edge_style g e role
  end.

Definition attrs_of (g : pgv.AGraph) (t : element) : option Attrs :=
  match t with
  | Node n => pgv.nodes g !! n
  | Edge e => pgv.e_attr <$> pgv.edges g !! e
  end.

(** ** Derived notions and sample machines *)

(** A built graph with the single edge from [A] to [B]. *)
Definition sample_graph : pgv.AGraph :=
  pgv.set_style_attributes
    (pgv.add_edge (pgv.set_node_attr (pgv.new ∅) (node_style "default"))
       "A" "B" None {[ "label" := "go" ]})
    AGraph.style_attributes.

(** The edge [e] after [e.attr.update(d)]. *)
Definition restyle (d : Attrs) (e : pgv.Edge) : pgv.Edge :=
  GraphMachine.with_attr e (d ∪ pgv.e_attr e).

(** The part of a graph that no styling or edge operation touches: the style
    table and the node defaults. *)
Definition config (g : pgv.AGraph) : option (gmap string (gmap string Attrs)) * Attrs :=
  (pgv.style_attributes g, pgv.node_attr g).

(** The subgraph path that [set_node_state] follows for a name that is not a
    node. *)
Definition cluster_path (node_name : string) : list string :=
  map (String.append "cluster_") (split separator node_name).

(** The graph in which [set_edge_state] looks the edge up. *)
Definition with_lazy_edge (machine : Machine) (g : pgv.AGraph) (u v : string)
    (label : option string) : pgv.AGraph :=
  if negb (show_auto_transitions machine) && negb (pgv.has_edge g u v)
  then pgv.add_edge g u v label ∅ else g.

(** A node that carries the default or the previous role. *)
Definition calm (a : Attrs) : Prop := carries "default" a \/ carries "previous" a.

(** The graph once every node is back to the default style. *)
Definition reset (g : pgv.AGraph) : pgv.AGraph :=
  pgv.set_nodes g (union (node_style "default") <$> pgv.nodes g).

(** The descent of the hook: both ends go down to their first leaf when the
    source state has a [children] attribute. *)
Definition resolve_pair (s0 d0 : State) : Result (State * State) :=
  match children s0 with
  | Some _ => s <- first_leaf s0 ;; d <- first_leaf d0 ;; ok (s, d)
  | None => ok (s0, d0)
  end.

(** No node carries anything but the default or the previous role. *)
Definition all_calm (g : pgv.AGraph) : Prop :=
  forall n a, pgv.nodes g !! n = Some a -> calm a.

(** Exactly the node [nd], if it exists, carries the active role. *)
Definition active_at (nd : string) (g : pgv.AGraph) : Prop :=
  forall n a, pgv.nodes g !! n = Some a ->
    (n = nd /\ carries "active" a) \/ (n ≠ nd /\ calm a).

(** A small nested machine: a leaf [A] and a composite [P] with the single
    child [P_1]. *)
Definition nested_machine : Machine :=
  {| states :=
       [ ("A", MkState "A" "A" (Some []));
         ("P", MkState "P" "P" (Some [MkState "P_1" "1" (Some [])]));
         ("P_1", MkState "P_1" "1" (Some [])) ];
     events :=
       [ ("go", {| ev_name := "go";
                   transitions :=
                     [("A", [{| source := Some "A"; dest := "P"; conditions := [] |}])] |});
         ("back", {| ev_name := "back";
                     transitions :=
                       [("P", [{| source := Some "P"; dest := "A"; conditions := [] |}])] |}) ];
     initial := "A";
     title := "State Machine";
     show_conditions := false;
     show_auto_transitions := false;
     models := [] |}.

(** A model in state [A] for which no diagram was built yet. *)
Definition fresh_model : Model :=
  {| state := "A"; graph := None; attributes := ∅ |}.

(** The model of [nested_machine] once its diagram was requested. *)
Definition drawn_model : Result Model :=
  r <- GraphMachine._get_graph true nested_machine fresh_model None false false ;; ok r.1.

(** The model holds a graph as the builder leaves it. *)
Definition ready (r : Result Model) : bool :=
  match r with
  | inr m =>
      match graph m with
      | Some g => bool_decide (styled g) && bool_decide (node_defaults g)
      | None => false
      end
  | inl _ => false
  end.

(** No node of the model's graph has the colour of the active role. *)
Definition no_active_node (r : Result Model) : bool :=
  match r with
  | inr m =>
      match graph m with
      | Some g => bool_decide (map_Forall (λ _ a, a !! "color" ≠ Some "red") (pgv.nodes g))
      | None => false
      end
  | inl _ => false
  end.

(** The graph a run ends with. *)
Definition final_graph (r : Result Model) : option pgv.AGraph :=
  match r with inr m => graph m | inl _ => None end.

(** A boolean test on the graph a run ends with. *)
Definition holds_on (r : Result Model) (P : pgv.AGraph -> bool) : bool :=
  match final_graph r with Some g => P g | None => false end.

(** A boolean test on the model a run ends with and on its graph. *)
Definition holds_at (r : Result Model) (P : Model -> pgv.AGraph -> bool) : bool :=
  match r with
  | inr m => match graph m with Some g => P m g | None => false end
  | inl _ => false
  end.

(** The two transitions of [nested_machine]. *)
Definition go_A_P : Transition := {| source := Some "A"; dest := "P"; conditions := [] |}.
Definition back_P_A : Transition := {| source := Some "P"; dest := "A"; conditions := [] |}.

(** A model of [machine] in state [st] once its diagram was requested. *)
Definition draw (machine : Machine) (st : string) : Result Model :=
  r <- GraphMachine._get_graph true machine
         {| state := st; graph := None; attributes := ∅ |} None false false ;;
  ok r.1.

(** A flat machine: two plain states, two events that share the edge from
    [A] to [B], and the blanket event [to_A], hidden from the diagram. *)
Definition flat_machine : Machine :=
  {| states := [ ("A", MkState "A" "A" None); ("B", MkState "B" "B" None) ];
     events :=
       [ ("go", {| ev_name := "go";
                   transitions :=
                     [("A", [{| source := Some "A"; dest := "B"; conditions := [] |}])] |});
         ("stop", {| ev_name := "stop";
                     transitions :=
                       [("A", [{| source := Some "A"; dest := "B"; conditions := [] |}])] |});
         ("to_A", {| ev_name := "to_A";
                     transitions :=
                       [("A", [{| source := Some "A"; dest := "A"; conditions := [] |}]);
                        ("B", [{| source := Some "B"; dest := "A"; conditions := [] |}])] |}) ];
     initial := "A";
     title := "State Machine";
     show_conditions := false;
     show_auto_transitions := false;
     models := [] |}.

(** [nested_machine] with auto-transition display enabled and an event from
    the composite [P] to its first child. *)
Definition nested_auto_machine : Machine :=
  {| states := states nested_machine;
     events :=
       (events nested_machine ++
        [ ("enter", {| ev_name := "enter";
                       transitions :=
                         [("P", [{| source := Some "P"; dest := "P_1";
                                    conditions := [] |}])] |}) ])%list;
     initial := "A";
     title := "State Machine";
     show_conditions := false;
     show_auto_transitions := true;
     models := [] |}.

(** Transitions of the sample machines. *)
Definition A_to_B : Transition := {| source := Some "A"; dest := "B"; conditions := [] |}.
Definition B_to_A : Transition := {| source := Some "B"; dest := "A"; conditions := [] |}.
Definition P_to_P_1 : Transition := {| source := Some "P"; dest := "P_1"; conditions := [] |}.

(** The test of [_graph_roi] on an edge at the active node [A]: it leaves
    [A], or its source has the fill colour of the previous role. *)
Definition roi_keeps (g : pgv.AGraph) (A : string) (e : pgv.Edge) : bool :=
  bool_decide (pgv.e_from e = A)
  || bool_decide (pgv.node_attrs g (pgv.e_from e) !! "fillcolor"
                  = node_style "previous" !! "fillcolor").

(** The edges of [g] that the region of interest of [A] shows. *)
Definition roi_edges (g : pgv.AGraph) (A : string) : list pgv.Edge :=
  List.filter (roi_keeps g A) (List.filter (pgv.incident A) (pgv.edges g)).

(** The end of a shown edge that is added with it. *)
Definition roi_new_node (A : string) (e : pgv.Edge) : string :=
  if bool_decide (pgv.e_from e = A) then pgv.e_to e else pgv.e_from e.

(** Every node carries one of the three roles of the style table. *)
Definition roles_clear (g : pgv.AGraph) : Prop :=
  forall n a, pgv.nodes g !! n = Some a ->
    carries "active" a \/ carries "default" a \/ carries "previous" a.

(** A graph with the edge from [B] to [A] in which [B] has the fill colour
    of the previous role and, for the rest, the default style. *)
Definition tinted_graph : pgv.AGraph :=
  pgv.set_style_attributes
    (pgv.add_edge
       (pgv.add_node
          (pgv.add_node (pgv.set_node_attr (pgv.new ∅) (node_style "default")) "A" ∅)
          "B" {[ "fillcolor" := "azure2" ]})
       "B" "A" None {[ "label" := "go" ]})
    AGraph.style_attributes.

Definition tinted_model : Model :=
  {| state := "A"; graph := Some tinted_graph; attributes := ∅ |}.

(** An edge as it is copied: ends and attributes, no key. *)
Definition strip (e : pgv.Edge) : pgv.Edge :=
  {| pgv.e_from := pgv.e_from e; pgv.e_to := pgv.e_to e; pgv.e_key := None;
     pgv.e_attr := pgv.e_attr e |}.

(** Every edge joins two nodes of the graph. *)
Definition edges_wf (g : pgv.AGraph) : Prop :=
  Forall (λ e, is_Some (pgv.nodes g !! pgv.e_from e) /\ is_Some (pgv.nodes g !! pgv.e_to e))
         (pgv.edges g).

(** What holds of the graph under construction: new nodes start from the
    default node style, [A] is in, and every node has its attributes of [g]
    written over the defaults. *)
Definition roi_inv (g : pgv.AGraph) (A : string) (f : pgv.AGraph) : Prop :=
  pgv.node_attr f = node_style "default"
  /\ is_Some (pgv.nodes f !! A)
  /\ forall n x, pgv.nodes f !! n = Some x -> x = pgv.node_attrs g n ∪ node_style "default".

(** A core [add_states] that registers the plain state [C]. *)
Definition add_state_C (machine : Machine) : Result Machine :=
  ok {| states := (states machine ++ [("C", MkState "C" "C" None)])%list;
        events := events machine;
        initial := initial machine; title := title machine;
        show_conditions := show_conditions machine;
        show_auto_transitions := show_auto_transitions machine;
        models := models machine |}.

(** [flat_machine] constructed with one model in state [A]. *)
Definition flat_with_model : Result Machine :=
  GraphMachine.__init__ true
    (ok (set_models flat_machine [{| state := "A"; graph := None; attributes := ∅ |}])).

(** A model that already has an attribute named [get_graph]. *)
Definition conflicting_model : Model :=
  {| state := "A"; graph := None; attributes := {[ "get_graph" ]} |}.

(** A transition as it is drawn: the leaf names of its ends, its label and
    the cluster markers. *)
Record Drawn := {
  d_from : string;
  d_to : string;
  d_label : string;
  d_ltail : string;
  d_lhead : string
}.

Definition d_ends (d : Drawn) : string * string := (d_from d, d_to d).

Definition ends (e : pgv.Edge) : string * string := (pgv.e_from e, pgv.e_to e).

(** The transitions that the builder draws, in the order in which it visits
    them: the events in turn (a hidden blanket event gives none), their
    sources in turn, the transitions of each source in turn (a
    parent-to-first-child transition gives none). *)
Definition draw_transition (machine : Machine) (label key ltail : string) (src : State)
    (t : Transition) : Result (list Drawn) :=
  dst0 <- get_state machine (dest t) ;;
  r <- AGraph.descend name dst0 ;;
  if bool_decide (name r.2 = name src) && negb (bool_decide (key = dest t)) then ok []
  else ok [{| d_from := name src; d_to := name r.2;
              d_label := AGraph._transition_label machine label t;
              d_ltail := ltail; d_lhead := r.1 |}].

Definition draw_from (machine : Machine) (label : string)
    (tr : string * list Transition) : Result (list Drawn) :=
  src0 <- get_state machine tr.1 ;;
  r <- AGraph.descend _name src0 ;;
  dss <- map_result (draw_transition machine label tr.1 r.1 r.2) tr.2 ;;
  ok (concat dss).

(** The event is a blanket event hidden from the diagram. *)
Definition hidden (machine : Machine) (event : Event) : bool :=
  negb (show_auto_transitions machine) && String.prefix "to_" (ev_name event)
  && Nat.eqb (length (transitions event)) (length (states machine)).

Definition draw_event (machine : Machine) (event : Event) : Result (list Drawn) :=
  if hidden machine event then ok []
  else dss <- map_result (draw_from machine (ev_name event)) (transitions event) ;;
       ok (concat dss).

Definition drawn (machine : Machine) : Result (list Drawn) :=
  dss <- map_result (draw_event machine) (events machine).*2 ;; ok (concat dss).

(** Putting one drawn transition into the graph: merged into the label of
    the edge between its ends when there is one, a new edge otherwise. *)
Definition place (g : pgv.AGraph) (d : Drawn) : pgv.AGraph :=
  if pgv.has_edge g (d_from d) (d_to d) then
    match pgv.find_edge (pgv.edges g) (d_from d) (d_to d) with
    | Some i =>
        pgv.set_edges g (alter (AGraph.append_label (d_label d)) i (pgv.edges g))
    | None => g
    end
  else
    pgv.add_edge g (d_from d) (d_to d) None
      {[ "label" := d_label d; "ltail" := d_ltail d; "lhead" := d_lhead d ]}.

(** The labels of the drawn transitions between the ends [p], in order. *)
Definition labels_for (p : string * string) (ds : list Drawn) : list string :=
  d_label <$> List.filter (λ d, bool_decide (d_ends d = p)) ds.

(** The graph reflects the drawn transitions [ds]: no two edges between the
    same ends, an edge for the ends of every drawn transition and for no
    others, and on every edge the labels of its transitions joined in order. *)
Definition reflects (g : pgv.AGraph) (ds : list Drawn) : Prop :=
  edges_wf g
  /\ NoDup (ends <$> pgv.edges g)
  /\ (forall e, e ∈ pgv.edges g ->
        labels_for (ends e) ds ≠ []
        /\ pgv.e_attr e !! "label" = Some (String.concat " | " (labels_for (ends e) ds)))
  /\ (forall d, d ∈ ds -> d_ends d ∈ ends <$> pgv.edges g).

(** A composite [P] with the single child [P_1]; the event [go] is defined
    from [P] to [P_1] and from [P_1] to itself. *)
Definition loop_machine : Machine :=
  {| states :=
       [ ("P", MkState "P" "P" (Some [MkState "P_1" "1" (Some [])]));
         ("P_1", MkState "P_1" "1" (Some [])) ];
     events :=
       [ ("go", {| ev_name := "go";
                   transitions :=
                     [ ("P", [{| source := Some "P"; dest := "P_1"; conditions := [] |}]);
                       ("P_1", [{| source := Some "P_1"; dest := "P_1";
                                   conditions := [] |}]) ] |}) ];
     initial := "P_1";
     title := "State Machine";
     show_conditions := false;
     show_auto_transitions := false;
     models := [] |}.

(** A composite [P] with the child [P_1], a leaf [A], and the blanket event
    [to_A] with one transition from each of the three states. *)
Definition blanket_event : Event :=
  {| ev_name := "to_A";
     transitions :=
       [ ("P", [{| source := Some "P"; dest := "A"; conditions := [] |}]);
         ("P_1", [{| source := Some "P_1"; dest := "A"; conditions := [] |}]);
         ("A", [{| source := Some "A"; dest := "A"; conditions := [] |}]) ] |}.

Definition blanket_machine (show : bool) : Machine :=
  {| states :=
       [ ("P", MkState "P" "P" (Some [MkState "P_1" "1" (Some [])]));
         ("P_1", MkState "P_1" "1" (Some []));
         ("A", MkState "A" "A" (Some [])) ];
     events := [ ("to_A", blanket_event) ];
     initial := "A";
     title := "State Machine";
     show_conditions := false;
     show_auto_transitions := show;
     models := [] |}.

(** ** Notions of the further properties *)

(** The model without its [graph] attribute. *)
Definition drop_graph (model : Model) : Model :=
  {| state := state model; graph := None; attributes := attributes model |}.

(** The roles of the class-level style table, per kind of element. *)
Definition roles (k : string) : list string :=
  if bool_decide (k = "node") then ["default"; "active"; "previous"]
  else if bool_decide (k = "edge") then ["default"; "previous"]
  else [].

(** A machine whose composite state has the separator in its own name. *)
Definition underscore_machine : Machine :=
  {| states :=
       [ ("big_P", MkState "big_P" "big_P" (Some [MkState "big_P_1" "1" (Some [])]));
         ("big_P_1", MkState "big_P_1" "1" (Some [])) ];
     events := [];
     initial := "big_P";
     title := "State Machine";
     show_conditions := false;
     show_auto_transitions := false;
     models := [] |}.

(** The machine without the events that the builder hides. *)
Definition without_hidden (machine : Machine) : Machine :=
  {| states := states machine;
     events := List.filter (λ p, negb (hidden machine p.2)) (events machine);
     initial := initial machine; title := title machine;
     show_conditions := show_conditions machine;
     show_auto_transitions := show_auto_transitions machine;
     models := models machine |}.

(** The names of the states at and below [s] that have no children, and of
    those that have. *)
Fixpoint leaves (s : State) : list string :=
  match s with
  | MkState n _ ch =>
      match ch with
      | Some cs => match cs with [] => [n] | _ :: _ => flat_map leaves cs end
      | None => [n]
      end
  end.

Fixpoint composites (s : State) : list string :=
  match s with
  | MkState n _ ch =>
      match ch with
      | Some cs => match cs with [] => [] | _ :: _ => n :: flat_map composites cs end
      | None => []
      end
  end.

(** What holds while the nodes are added: every node is one of the names
    [L] and has the default node style, which is also what a new node starts
    from; every name seen is a node or one of the names [C]. *)
Definition adding_nodes (L C : list string) (acc : list string * pgv.AGraph) : Prop :=
  pgv.node_attr acc.2 = node_style "default"
  /\ pgv.style_attributes acc.2 = None
  /\ (forall n a, pgv.nodes acc.2 !! n = Some a -> n ∈ L /\ a = node_style "default")
  /\ (forall n, n ∈ acc.1 -> is_Some (pgv.nodes acc.2 !! n) \/ n ∈ C).

(** The first drawn transition between the ends [p]. *)
Definition first_for (p : string * string) (ds : list Drawn) : option Drawn :=
  List.find (λ d, bool_decide (d_ends d = p)) ds.

(** The attributes of the edge drawn for the transitions [ds] between the
    ends [p], [d] being the first of them. *)
Definition merged_attrs (p : string * string) (ds : list Drawn) (d : Drawn) : Attrs :=
  {[ "label" := String.concat " | " (labels_for p ds);
     "ltail" := d_ltail d; "lhead" := d_lhead d ]}.

(** Every edge has no key and the attributes of its drawn transitions. *)
Definition edges_exact (g : pgv.AGraph) (ds : list Drawn) : Prop :=
  forall e, e ∈ pgv.edges g ->
    pgv.e_key e = None
    /\ exists d, first_for (ends e) ds = Some d
                 /\ pgv.e_attr e = merged_attrs (ends e) ds d.

(** [nested_machine] restored from a pickle taken while its model was in the
    composite state [P]. *)
Definition pickled_in_P : Machine :=
  set_models nested_machine [{| state := "P"; graph := None; attributes := ∅ |}].

(** * Basic facts *)

Lemma bind_ok {A B} (m : Result A) (k : A -> Result B) (b : B) :
  bind m k = inr b -> exists a, m = inr a /\ k a = inr b.
Proof. destruct m as [e|a]; simpl; [discriminate | eauto]. Qed.

Tactic Notation "bind_inv" hyp(H) "as" ident(a) ident(Ha) :=
  apply bind_ok in H as (a & Ha & H).

(** Conjunctions whose parts are all in the context. *)
Ltac from_context := repeat (split; [eassumption|]); eassumption.

Lemma bind_ok_l {A B} (x : A) (k : A -> Result B) : bind (ok x) k = k x.
Proof. reflexivity. Qed.

Lemma is_ok_inv {A} (r : Result A) : is_ok r = true -> exists x, r = inr x.
Proof. destruct r; [discriminate | eauto]. Qed.

Lemma set_nodes_id (g : pgv.AGraph) : pgv.set_nodes g (pgv.nodes g) = g.
Proof. by destruct g. Qed.

Lemma set_edges_id (g : pgv.AGraph) : pgv.set_edges g (pgv.edges g) = g.
Proof. by destruct g. Qed.

Lemma has_node_true (g : pgv.AGraph) (n : string) :
  pgv.has_node g n = true <-> is_Some (pgv.nodes g !! n).
Proof. unfold pgv.has_node. apply bool_decide_eq_true. Qed.

Lemma get_node_ok (g : pgv.AGraph) (n x : string) :
  pgv.get_node g n = inr x <-> x = n /\ is_Some (pgv.nodes g !! n).
Proof.
  unfold pgv.get_node. destruct (pgv.has_node g n) eqn:E.
  - apply has_node_true in E. split; [by intros [= <-] | by intros [-> _]].
  - split; [discriminate | intros [_ H%has_node_true]; congruence].
Qed.

(** ** The style applicator on one element *)

Lemma set_node_style_inv (g g' : pgv.AGraph) (n role : string) :
  GraphMachine.set_node_style g n role = inr g' ->
  exists sa a, pgv.nodes g !! n = Some a
    /\ GraphMachine.style_attr g "node" role = ok (Some sa)
    /\ g' = pgv.set_nodes g (<[n := sa ∪ a]> (pgv.nodes g)).
Proof.
  unfold GraphMachine.set_node_style. intros H.
  bind_inv H as x Hx. apply get_node_ok in Hx as [-> [a Ha]].
  bind_inv H as o Ho. bind_inv H as d Hd.
  destruct o as [sa|]; simpl in Hd; [|discriminate].
  exists sa, a. split; [done|]. split; [done|].
  unfold pgv.node_attrs, update, ok in Hd. rewrite Ha in Hd. simpl in Hd.
  injection Hd as <-. by injection H as <-.
Qed.

Lemma set_node_style_ok (g : pgv.AGraph) (n role : string) (sa a : Attrs) :
  pgv.nodes g !! n = Some a ->
  GraphMachine.style_attr g "node" role = ok (Some sa) ->
  GraphMachine.set_node_style g n role = ok (pgv.set_nodes g (<[n := sa ∪ a]> (pgv.nodes g))).
Proof.
  intros Ha Hs. unfold GraphMachine.set_node_style, pgv.get_node, pgv.has_node.
  rewrite bool_decide_eq_true_2 by eauto. simpl. rewrite Hs. simpl.
  unfold pgv.node_attrs. by rewrite Ha.
Qed.

Lemma set_edge_style_inv (g g' : pgv.AGraph) (i : nat) (role : string) :
  GraphMachine.set_edge_style g i role = inr g' ->
  exists sa e, pgv.edges g !! i = Some e
    /\ GraphMachine.style_attr g "edge" role = ok (Some sa)
    /\ g' = pgv.set_edges g (<[i := GraphMachine.with_attr e (sa ∪ pgv.e_attr e)]> (pgv.edges g)).
Proof.
  unfold GraphMachine.set_edge_style. intros H.
  bind_inv H as o Ho. destruct (pgv.edges g !! i) as [e|] eqn:He; [|discriminate].
  bind_inv H as d Hd. destruct o as [sa|]; simpl in Hd; [|discriminate].
  exists sa, e. injection Hd as <-. injection H as <-. done.
Qed.

Lemma set_edge_style_ok (g : pgv.AGraph) (i : nat) (role : string) (sa : Attrs) (e : pgv.Edge) :
  pgv.edges g !! i = Some e ->
  GraphMachine.style_attr g "edge" role = ok (Some sa) ->
  GraphMachine.set_edge_style g i role
  = ok (pgv.set_edges g (<[i := GraphMachine.with_attr e (sa ∪ pgv.e_attr e)]> (pgv.edges g))).
Proof.
  intros He Hs. unfold GraphMachine.set_edge_style. rewrite Hs. simpl. by rewrite He.
Qed.

Lemma style_attr_styled (g : pgv.AGraph) (k role : string) :
  styled g ->
  GraphMachine.style_attr g k role
  = ok (default ∅ (AGraph.style_attributes !! k) !! role).
Proof. unfold styled, GraphMachine.style_attr. by intros ->. Qed.

(** One application of a role to an element: the element's new dictionary is
    the role's dictionary written over the old one, everything else in the
    graph stays. *)
Lemma apply_style_inv (g g' : pgv.AGraph) (t : element) (role : string) :
  apply_style g t role = inr g' ->
  exists d a,
    GraphMachine.style_attr g (kind t) role = ok (Some d)
    /\ attrs_of g t = Some a
    /\ attrs_of g' t = Some (d ∪ a)
    /\ (forall t', t' ≠ t -> attrs_of g' t' = attrs_of g t')
    /\ pgv.style_attributes g' = pgv.style_attributes g.
Proof.
  destruct t as [n|i]; simpl; intros H.
  - apply set_node_style_inv in H as (d & a & Ha & Hd & ->).
    exists d, a. simpl. rewrite lookup_insert_eq. repeat split; try done.
    intros [n'|i'] Hne; simpl; [|done].
    apply lookup_insert_ne. congruence.
  - apply set_edge_style_inv in H as (d & e & He & Hd & ->).
    exists d, (pgv.e_attr e). simpl. rewrite He. simpl.
    rewrite list_lookup_insert_eq by (by eapply lookup_lt_Some).
    repeat split; try done.
    intros [n'|i'] Hne; simpl; [done|].
    rewrite list_lookup_insert_ne; [done | congruence].
Qed.

(** C8: applying a role's style to a node or an edge overwrites exactly the
    keys of the role's attribute dictionary and removes nothing: after two
    successive role applications to the same element, every attribute that
    the later role's dictionary does not mention keeps the value it had before
    that application, the mentioned ones take the role's values, no key
    disappears, and no other element changes. *)
Theorem style_application_frame
    (g g1 g2 : pgv.AGraph) (t : element) (r1 r2 : string) :
  apply_style g t r1 = inr g1 ->
  apply_style g1 t r2 = inr g2 ->
  exists d2 a1 a2,
    GraphMachine.style_attr g1 (kind t) r2 = ok (Some d2)
    /\ attrs_of g1 t = Some a1
    /\ attrs_of g2 t = Some a2
    /\ (forall k, d2 !! k = None -> a2 !! k = a1 !! k)
    /\ (forall k v, d2 !! k = Some v -> a2 !! k = Some v)
    /\ dom a1 ⊆ dom a2
    /\ (forall t', t' ≠ t -> attrs_of g2 t' = attrs_of g1 t').
Proof.
  intros H1 H2.
  apply apply_style_inv in H1 as (d1 & a0 & _ & _ & Ha1 & _ & _).
  apply apply_style_inv in H2 as (d2 & a1 & Hd2 & Ha1' & Ha2 & Hother & _).
  exists d2, a1, (d2 ∪ a1). repeat split; try done.
  - intros k Hk. by apply lookup_union_r.
  - intros k v Hk. by apply lookup_union_Some_l.
  - rewrite dom_union. set_solver.
Qed.

(** The frame property at work on a node made active and then previous. *)
Lemma style_application_frame_witness :
  exists g1 g2,
    apply_style sample_graph (Node "A") "active" = inr g1
    /\ apply_style g1 (Node "A") "previous" = inr g2
    /\ exists d2 a1 a2,
         GraphMachine.style_attr g1 "node" "previous" = ok (Some d2)
         /\ attrs_of g1 (Node "A") = Some a1
         /\ attrs_of g2 (Node "A") = Some a2
         /\ (forall k, d2 !! k = None -> a2 !! k = a1 !! k)
         /\ (forall k v, d2 !! k = Some v -> a2 !! k = Some v)
         /\ dom a1 ⊆ dom a2
         /\ (forall t', t' ≠ Node "A" -> attrs_of g2 t' = attrs_of g1 t').
Proof.
  assert (Hok : is_ok (g1 <- apply_style sample_graph (Node "A") "active" ;;
                       apply_style g1 (Node "A") "previous") = true)
    by (vm_compute; reflexivity).
  apply is_ok_inv in Hok as [g2 H2]. bind_inv H2 as g1 H1.
  exists g1, g2. split; [exact H1|]. split; [exact H2|].
  exact (style_application_frame sample_graph g1 g2 (Node "A") "active" "previous" H1 H2).
Defined.

(** ** Resetting every node, resetting every edge *)

Lemma for_each_set_node_style (d : Attrs) (role : string) (l : list string) :
  forall g : pgv.AGraph,
    NoDup l ->
    (forall n, n ∈ l -> is_Some (pgv.nodes g !! n)) ->
    GraphMachine.style_attr g "node" role = ok (Some d) ->
    exists ns,
      for_each (λ g n, GraphMachine.set_node_style g n role) l g = ok (pgv.set_nodes g ns)
      /\ forall i, ns !! i = if decide (i ∈ l) then (union d) <$> pgv.nodes g !! i
                             else pgv.nodes g !! i.
Proof.
  induction l as [|n l IH]; intros g Hnd Hin Hd; cbn [for_each].
  - exists (pgv.nodes g). rewrite set_nodes_id. split; [done|].
    intros i. case_decide as Hi; [by apply elem_of_nil in Hi | done].
  - apply NoDup_cons in Hnd as [Hn Hnd].
    destruct (Hin n) as [a Ha]; [left|].
    rewrite (set_node_style_ok g n role d a Ha Hd). cbn [bind ok].
    set (g1 := pgv.set_nodes g (<[n := d ∪ a]> (pgv.nodes g))).
    destruct (IH g1 Hnd) as (ns & Hrun & Hns).
    + intros n' Hn'. simpl. destruct (decide (n' = n)) as [->|Hne].
      * rewrite lookup_insert_eq. eauto.
      * rewrite lookup_insert_ne by done. apply Hin. by right.
    + done.
    + exists ns. split; [exact Hrun|].
      intros i. rewrite Hns. cbn [pgv.nodes g1 pgv.set_nodes].
      destruct (decide (i = n)) as [->|Hne].
      * rewrite lookup_insert_eq, Ha. simpl.
        rewrite decide_False by done. rewrite decide_True by left. done.
      * rewrite lookup_insert_ne by done.
        case_decide as Hi.
        -- rewrite decide_True by (by right). done.
        -- rewrite decide_False; [done|]. rewrite elem_of_cons. tauto.
Qed.

Lemma reset_nodes_ok (g : pgv.AGraph) (d : Attrs) :
  GraphMachine.style_attr g "node" "default" = ok (Some d) ->
  GraphMachine.reset_nodes g = ok (pgv.set_nodes g (union d <$> pgv.nodes g)).
Proof.
  intros Hd. unfold GraphMachine.reset_nodes, pgv.nodes_iter.
  destruct (for_each_set_node_style d "default" (map_to_list (pgv.nodes g)).*1 g)
    as (ns & -> & Hns).
  - apply NoDup_fst_map_to_list.
  - intros n [[n' a] [-> Hin%elem_of_map_to_list]]%list_elem_of_fmap. eauto.
  - done.
  - do 2 f_equal. apply map_eq. intros i. rewrite Hns, lookup_fmap.
    case_decide as Hi; [done|].
    destruct (pgv.nodes g !! i) as [a|] eqn:Ha; [|done].
    exfalso. apply Hi. apply list_elem_of_fmap. exists (i, a).
    split; [done|]. by apply elem_of_map_to_list.
Qed.

Lemma for_each_set_edge_style (d : Attrs) (role : string) (l : list nat) :
  forall g : pgv.AGraph,
    NoDup l ->
    (forall i, i ∈ l -> i < length (pgv.edges g)) ->
    GraphMachine.style_attr g "edge" role = ok (Some d) ->
    exists es,
      for_each (λ g e, GraphMachine.set_edge_style g e role) l g = ok (pgv.set_edges g es)
      /\ forall i, es !! i = if decide (i ∈ l) then restyle d <$> pgv.edges g !! i
                             else pgv.edges g !! i.
Proof.
  induction l as [|n l IH]; intros g Hnd Hin Hd; cbn [for_each].
  - exists (pgv.edges g). rewrite set_edges_id. split; [done|].
    intros i. case_decide as Hi; [by apply elem_of_nil in Hi | done].
  - apply NoDup_cons in Hnd as [Hn Hnd].
    destruct (lookup_lt_is_Some_2 (pgv.edges g) n) as [e He]; [apply Hin; left|].
    rewrite (set_edge_style_ok g n role d e He Hd). cbn [bind ok].
    set (g1 := pgv.set_edges g _).
    destruct (IH g1 Hnd) as (es & Hrun & Hes).
    + intros i Hi. simpl. rewrite length_insert. apply Hin. by right.
    + done.
    + exists es. split; [exact Hrun|].
      intros i. rewrite Hes. cbn [pgv.edges g1 pgv.set_edges].
      destruct (decide (i = n)) as [->|Hne].
      * rewrite list_lookup_insert_eq by (by eapply lookup_lt_Some).
        rewrite He. simpl.
        rewrite decide_False by done. rewrite decide_True by left. done.
      * rewrite list_lookup_insert_ne by done.
        case_decide as Hi.
        -- rewrite decide_True by (by right). done.
        -- rewrite decide_False; [done|]. rewrite elem_of_cons. tauto.
Qed.

Lemma reset_edges_ok (g : pgv.AGraph) (d : Attrs) :
  GraphMachine.style_attr g "edge" "default" = ok (Some d) ->
  for_each (λ g e, GraphMachine.set_edge_style g e "default") (pgv.edges_iter g) g
  = ok (pgv.set_edges g (restyle d <$> pgv.edges g)).
Proof.
  intros Hd. unfold pgv.edges_iter.
  destruct (for_each_set_edge_style d "default" (seq 0 (length (pgv.edges g))) g)
    as (es & -> & Hes).
  - apply NoDup_seq.
  - intros i Hi%elem_of_seq. lia.
  - done.
  - do 2 f_equal. apply list_eq. intros i. rewrite Hes, list_lookup_fmap.
    case_decide as Hi; [done|].
    destruct (pgv.edges g !! i) as [e|] eqn:He; [|done].
    exfalso. apply Hi. apply elem_of_seq. apply lookup_lt_Some in He. lia.
Qed.

(** ** What the operations leave alone *)

Lemma config_styled (g g' : pgv.AGraph) : config g' = config g -> styled g -> styled g'.
Proof. unfold config, styled. intros [= -> _]. done. Qed.

Lemma config_node_defaults (g g' : pgv.AGraph) :
  config g' = config g -> node_defaults g -> node_defaults g'.
Proof. unfold config, node_defaults. intros [= _ ->]. done. Qed.

Lemma style_attr_config (g g' : pgv.AGraph) (k role : string) :
  config g' = config g -> GraphMachine.style_attr g' k role = GraphMachine.style_attr g k role.
Proof. unfold config, GraphMachine.style_attr. intros [= -> _]. done. Qed.

(** ** Subgraph lookup after an update along the same path *)

Lemma get_subgraph_in_alter_named (f : pgv.Subgraph -> pgv.Subgraph) (n : string)
    (sgs : list pgv.Subgraph) :
  (forall sg, pgv.sg_name (f sg) = pgv.sg_name sg) ->
  pgv.get_subgraph_in (pgv.alter_named f n sgs) n = f <$> pgv.get_subgraph_in sgs n.
Proof.
  intros Hf. unfold pgv.get_subgraph_in.
  induction sgs as [|sg sgs IH]; simpl; [done|].
  destruct (pgv.named n sg) eqn:E; simpl.
  - unfold pgv.named in *. rewrite Hf, E. done.
  - rewrite E. exact IH.
Qed.

Lemma subgraph_at_alter_at (f : pgv.Subgraph -> pgv.Subgraph) (path : list string) :
  (forall sg, pgv.sg_name (f sg) = pgv.sg_name sg) ->
  forall sgs, pgv.subgraph_at (pgv.alter_at f path sgs) path = f <$> pgv.subgraph_at sgs path.
Proof.
  intros Hf. induction path as [|n rest IH]; intros sgs; [done|].
  destruct rest as [|n' rest].
  - simpl. by apply get_subgraph_in_alter_named.
  - cbn [pgv.alter_at pgv.subgraph_at].
    rewrite get_subgraph_in_alter_named by done.
    destruct (pgv.get_subgraph_in sgs n) as [sg|]; simpl; [|done].
    apply IH.
Qed.

(** ** Styling a state by name: a node, or else the cluster of that name *)

Lemma set_node_state_node (g : pgv.AGraph) (n role : string) :
  pgv.has_node g n = true ->
  GraphMachine.set_node_state g n role = GraphMachine.set_node_style g n role.
Proof.
  intros H. unfold GraphMachine.set_node_state, pgv.get_node. rewrite H. done.
Qed.

Lemma set_node_state_cluster (g g' : pgv.AGraph) (n role : string) :
  pgv.has_node g n = false ->
  GraphMachine.set_node_state g n role = inr g' ->
  exists sg d,
    GraphMachine.style_attr g "node" role = ok (Some d)
    /\ pgv.subgraph_at (pgv.subgraphs g) (cluster_path n) = Some sg
    /\ pgv.subgraph_at (pgv.subgraphs g') (cluster_path n)
       = Some (pgv.with_graph_attr sg (d ∪ pgv.sg_graph_attr sg))
    /\ pgv.nodes g' = pgv.nodes g /\ pgv.edges g' = pgv.edges g
    /\ config g' = config g.
Proof.
  intros Hn H. unfold GraphMachine.set_node_state in H. rewrite Hn in H.
  bind_inv H as node Hnode. unfold GraphMachine.set_graph_style in H.
  bind_inv H as o Ho. fold (cluster_path n) in H.
  destruct node as [x|]; simpl in H; [|discriminate].
  destruct (pgv.subgraph_at (pgv.subgraphs g) (cluster_path n)) as [sg|] eqn:Hsg;
    [|discriminate].
  bind_inv H as a Ha. destruct o as [d|]; simpl in Ha; [|discriminate].
  injection Ha as <-. injection H as <-.
  exists sg, d. repeat split; try done.
  simpl. rewrite subgraph_at_alter_at by done. rewrite Hsg. done.
Qed.

(** ** Marking the edge of the transition *)

Lemma find_edge_Some (es : list pgv.Edge) (u v : string) (i : nat) :
  pgv.find_edge es u v = Some i ->
  exists e, es !! i = Some e /\ pgv.e_from e = u /\ pgv.e_to e = v.
Proof.
  revert i. induction es as [|e es IH]; intros i; simpl; [discriminate|].
  destruct (pgv.joins u v e) eqn:E.
  - intros [= <-]. exists e. unfold pgv.joins in E.
    apply andb_true_iff in E as [E1%bool_decide_eq_true E2%bool_decide_eq_true]. done.
  - destruct (pgv.find_edge es u v) as [j|]; simpl; [|discriminate].
    intros [= <-]. by apply IH.
Qed.

Lemma get_edge_ok (g : pgv.AGraph) (u v : string) (i : nat) :
  pgv.get_edge g u v = inr i ->
  pgv.find_edge (pgv.edges g) u v = Some i
  /\ is_Some (pgv.nodes g !! u) /\ is_Some (pgv.nodes g !! v).
Proof.
  unfold pgv.get_edge. intros H.
  bind_inv H as x Hx. apply get_node_ok in Hx as [_ Hu].
  bind_inv H as y Hy. apply get_node_ok in Hy as [_ Hv].
  destruct (pgv.find_edge (pgv.edges g) u v); [|discriminate].
  by injection H as ->.
Qed.

Lemma set_edge_state_inv (machine : Machine) (g g' : pgv.AGraph) (u v role : string)
    (label : option string) (dflt : Attrs) :
  GraphMachine.style_attr g "edge" "default" = ok (Some dflt) ->
  GraphMachine.set_edge_state machine g u v role label = inr g' ->
  let g0 := with_lazy_edge machine g u v label in
  exists i e d,
    pgv.find_edge (pgv.edges g0) u v = Some i
    /\ pgv.edges g0 !! i = Some e
    /\ GraphMachine.style_attr g "edge" role = ok (Some d)
    /\ is_Some (pgv.nodes g0 !! u) /\ is_Some (pgv.nodes g0 !! v)
    /\ g' = pgv.set_edges g0 (<[i := restyle d (restyle dflt e)]> (restyle dflt <$> pgv.edges g0)).
Proof.
  intros Hd H g0. unfold GraphMachine.set_edge_state in H.
  fold (with_lazy_edge machine g u v label) in H. fold g0 in H.
  assert (Hc : config g0 = config g).
  { unfold g0, with_lazy_edge, pgv.add_edge, pgv.add_node.
    destruct (negb _ && negb _); [|done].
    by destruct (pgv.has_node g u); simpl; destruct (pgv.has_node _ v). }
  bind_inv H as i Hi. apply get_edge_ok in Hi as (Hi & Hu & Hv).
  destruct (find_edge_Some _ _ _ _ Hi) as (e & He & _).
  rewrite reset_edges_ok with (d := dflt) in H
    by (by rewrite (style_attr_config _ _ _ _ Hc)).
  simpl in H. apply set_edge_style_inv in H as (d & e' & He' & Hsd & ->).
  simpl in He'. rewrite list_lookup_fmap, He in He'. injection He' as <-.
  exists i, e, d. repeat split; try done.
  by rewrite <- (style_attr_config _ _ _ _ Hc).
Qed.

(** ** Roles of the class-level style table *)

Lemma styled_node_role (g : pgv.AGraph) (role : string) :
  styled g ->
  role = "default" \/ role = "active" \/ role = "previous" ->
  GraphMachine.style_attr g "node" role = ok (Some (node_style role)).
Proof.
  intros Hs Hr. rewrite style_attr_styled by done.
  by destruct Hr as [->|[->| ->]].
Qed.

Lemma styled_edge_role (g : pgv.AGraph) (role : string) :
  styled g ->
  role = "default" \/ role = "previous" ->
  GraphMachine.style_attr g "edge" role = ok (Some (edge_style role)).
Proof.
  intros Hs Hr. rewrite style_attr_styled by done.
  by destruct Hr as [->| ->].
Qed.

Lemma carries_union (role : string) (a : Attrs) : carries role (node_style role ∪ a).
Proof. apply map_union_subseteq_l. Qed.

Lemma carries_color (role : string) (a : Attrs) (c : string) :
  carries role a -> node_style role !! "color" = Some c -> a !! "color" = Some c.
Proof. intros H Hc. by eapply lookup_weaken. Qed.

Lemma calm_not_active (a : Attrs) : calm a -> ~ carries "active" a.
Proof.
  intros [H|H] Ha.
  - pose proof (carries_color _ _ "black" H eq_refl) as H1.
    pose proof (carries_color _ _ "red" Ha eq_refl) as H2. congruence.
  - pose proof (carries_color _ _ "blue" H eq_refl) as H1.
    pose proof (carries_color _ _ "red" Ha eq_refl) as H2. congruence.
Qed.

Lemma default_not_previous (a : Attrs) : carries "default" a -> ~ carries "previous" a.
Proof.
  intros H Ha.
  pose proof (carries_color _ _ "black" H eq_refl) as H1.
  pose proof (carries_color _ _ "blue" Ha eq_refl) as H2. congruence.
Qed.

(** ** Nodes after the graph operations *)

Lemma add_node_fresh (g : pgv.AGraph) (n : string) :
  pgv.nodes g !! n = None ->
  pgv.nodes (pgv.add_node g n ∅) = <[n := pgv.node_attr g]> (pgv.nodes g).
Proof.
  intros H. unfold pgv.add_node, update. simpl. rewrite H. simpl.
  by rewrite (left_id_L ∅ (∪)).
Qed.

Lemma has_node_false (g : pgv.AGraph) (n : string) :
  pgv.has_node g n = false <-> pgv.nodes g !! n = None.
Proof.
  unfold pgv.has_node. rewrite bool_decide_eq_false, <- eq_None_not_Some. done.
Qed.

Lemma add_edge_nodes (g : pgv.AGraph) (u v : string) (k : option string) (a : Attrs)
    (n : string) :
  pgv.nodes (pgv.add_edge g u v k a) !! n
  = match pgv.nodes g !! n with
    | Some x => Some x
    | None => if decide (n = u \/ n = v) then Some (pgv.node_attr g) else None
    end.
Proof.
  unfold pgv.add_edge. cbn [pgv.nodes pgv.set_edges].
  destruct (pgv.has_node g u) eqn:Eu.
  - apply has_node_true in Eu as [xu Hu].
    destruct (pgv.has_node g v) eqn:Ev.
    + apply has_node_true in Ev as [xv Hv].
      destruct (pgv.nodes g !! n) eqn:En; [done|].
      rewrite decide_False; [done|]. intros [->| ->]; congruence.
    + apply has_node_false in Ev. rewrite add_node_fresh by done.
      destruct (decide (n = v)) as [->|Hne].
      * rewrite lookup_insert_eq, Ev. rewrite decide_True by tauto. done.
      * rewrite lookup_insert_ne by done.
        destruct (pgv.nodes g !! n) eqn:En; [done|].
        rewrite decide_False; [done|]. intros [->| ->]; congruence.
  - apply has_node_false in Eu.
    assert (Hg1 : pgv.nodes (pgv.add_node g u ∅) = <[u := pgv.node_attr g]> (pgv.nodes g))
      by by apply add_node_fresh.
    destruct (pgv.has_node (pgv.add_node g u ∅) v) eqn:Ev.
    + apply has_node_true in Ev. rewrite Hg1 in Ev. rewrite Hg1.
      destruct (decide (n = u)) as [->|Hne].
      * rewrite lookup_insert_eq, Eu. rewrite decide_True by tauto. done.
      * rewrite lookup_insert_ne by done.
        destruct (pgv.nodes g !! n) eqn:En; [done|].
        rewrite decide_False; [done|]. intros [->| ->]; [done|].
        rewrite lookup_insert_ne in Ev by done. rewrite En in Ev. by destruct Ev.
    + apply has_node_false in Ev. rewrite add_node_fresh by done.
      rewrite Hg1 in Ev. rewrite Hg1.
      assert (v ≠ u) by (intros ->; by rewrite lookup_insert_eq in Ev).
      rewrite lookup_insert_ne in Ev by done.
      destruct (decide (n = v)) as [->|Hnv].
      * rewrite lookup_insert_eq, Ev. rewrite decide_True by tauto. done.
      * rewrite lookup_insert_ne by done.
        destruct (decide (n = u)) as [->|Hnu].
        -- rewrite lookup_insert_eq, Eu. rewrite decide_True by tauto. done.
        -- rewrite lookup_insert_ne by done.
           destruct (pgv.nodes g !! n) eqn:En; [done|].
           rewrite decide_False; [done|]. tauto.
Qed.

Lemma add_edge_config (g : pgv.AGraph) (u v : string) (k : option string) (a : Attrs) :
  config (pgv.add_edge g u v k a) = config g.
Proof.
  unfold pgv.add_edge, pgv.add_node.
  by destruct (pgv.has_node g u); simpl; destruct (pgv.has_node _ v).
Qed.

Lemma add_edge_subgraphs (g : pgv.AGraph) (u v : string) (k : option string) (a : Attrs) :
  pgv.subgraphs (pgv.add_edge g u v k a) = pgv.subgraphs g.
Proof.
  unfold pgv.add_edge, pgv.add_node.
  by destruct (pgv.has_node g u); simpl; destruct (pgv.has_node _ v).
Qed.

Lemma with_lazy_edge_config (machine : Machine) (g : pgv.AGraph) (u v : string)
    (l : option string) :
  config (with_lazy_edge machine g u v l) = config g.
Proof.
  unfold with_lazy_edge. destruct (negb _ && negb _); [apply add_edge_config | done].
Qed.

(** Styling a state by name, both cases at once. *)
Lemma set_node_state_inv (g g' : pgv.AGraph) (n role : string) :
  styled g ->
  role = "default" \/ role = "active" \/ role = "previous" ->
  GraphMachine.set_node_state g n role = inr g' ->
  config g' = config g /\ pgv.edges g' = pgv.edges g
  /\ ((exists a, pgv.nodes g !! n = Some a
         /\ pgv.nodes g' = <[n := node_style role ∪ a]> (pgv.nodes g)
         /\ pgv.subgraphs g' = pgv.subgraphs g)
      \/ (pgv.nodes g !! n = None /\ pgv.nodes g' = pgv.nodes g
          /\ exists sg,
               pgv.subgraph_at (pgv.subgraphs g) (cluster_path n) = Some sg
               /\ pgv.subgraph_at (pgv.subgraphs g') (cluster_path n)
                  = Some (pgv.with_graph_attr sg (node_style role ∪ pgv.sg_graph_attr sg)))).
Proof.
  intros Hs Hr H. destruct (pgv.has_node g n) eqn:E.
  - rewrite set_node_state_node in H by done.
    apply set_node_style_inv in H as (d & a & Ha & Hd & ->).
    rewrite styled_node_role in Hd by done. injection Hd as <-.
    split; [done|]. split; [done|]. left. by exists a.
  - destruct (set_node_state_cluster _ _ _ _ E H) as (sg & d & Hd & Hsg & Hsg' & Hn & He & Hc).
    rewrite styled_node_role in Hd by done. injection Hd as <-.
    split; [done|]. split; [done|]. right.
    apply has_node_false in E. repeat split; try done. by exists sg.
Qed.

(** ** Anatomy of one diagram update *)

Lemma update_diagram_inv (t : Transition) (machine : Machine) (ev : string)
    (model model' : Model) (g : pgv.AGraph) :
  styled g ->
  graph model = Some g ->
  TransitionGraphSupport.update_diagram t machine ev model = inr model' ->
  exists d0 g',
    get_state machine (dest t) = inr d0
    /\ model' = set_graph model g'
    /\ match source t with
       | None => GraphMachine.set_node_state (reset g) (name d0) "active" = inr g'
       | Some src =>
           exists s0 sd g2 g3,
             get_state machine src = inr s0
             /\ GraphMachine.set_node_state (reset g) (name s0) "previous" = inr g2
             /\ resolve_pair s0 d0 = inr sd
             /\ GraphMachine.set_edge_state machine g2 (name sd.1) (name sd.2)
                  "previous" (Some ev) = inr g3
             /\ GraphMachine.set_node_state g3 (name sd.2) "active" = inr g'
       end.
Proof.
  intros Hs Hg H. unfold TransitionGraphSupport.update_diagram in H.
  bind_inv H as d0 Hd0. bind_inv H as g0 Hg0.
  unfold GraphMachine.model_graph in Hg0. rewrite Hg in Hg0. injection Hg0 as <-.
  rewrite (reset_nodes_ok g (node_style "default")) in H
    by (apply styled_node_role; auto).
  fold (reset g) in H. cbn [bind ok] in H.
  bind_inv H as r Hr. bind_inv H as g' Hg'. injection H as <-.
  exists d0, g'. split; [done|]. split; [done|].
  destruct (source t) as [src|].
  - bind_inv Hr as s0 Hs0. bind_inv Hr as g2 Hg2. bind_inv Hr as sd Hsd.
    bind_inv Hr as g3 Hg3. injection Hr as <-.
    exists s0, sd, g2, g3. done.
  - injection Hr as <-. done.
Qed.

Lemma reset_config (g : pgv.AGraph) : config (reset g) = config g.
Proof. done. Qed.

Lemma reset_lookup (g : pgv.AGraph) (n : string) :
  pgv.nodes (reset g) !! n = union (node_style "default") <$> pgv.nodes g !! n.
Proof. unfold reset. simpl. apply lookup_fmap. Qed.

Lemma reset_calm (g : pgv.AGraph) (n : string) (a : Attrs) :
  pgv.nodes (reset g) !! n = Some a -> carries "default" a.
Proof.
  rewrite reset_lookup. destruct (pgv.nodes g !! n); simpl; [|discriminate].
  intros [= <-]. apply carries_union.
Qed.

(** What [set_edge_state] does to the rest of the graph. *)
Lemma set_edge_state_nodes (machine : Machine) (g g' : pgv.AGraph) (u v role : string)
    (label : option string) :
  styled g ->
  GraphMachine.set_edge_state machine g u v role label = inr g' ->
  config g' = config g /\ pgv.subgraphs g' = pgv.subgraphs g
  /\ is_Some (pgv.nodes g' !! v)
  /\ forall n, pgv.nodes g' !! n
       = match pgv.nodes g !! n with
         | Some x => Some x
         | None => if decide (pgv.nodes g' !! n = None) then None else Some (pgv.node_attr g)
         end.
Proof.
  intros Hs H.
  destruct (set_edge_state_inv machine g g' u v role label (edge_style "default"))
    as (i & e & d & _ & _ & _ & _ & Hv & ->); [apply styled_edge_role; auto | done |].
  cbn [pgv.nodes pgv.set_edges pgv.subgraphs].
  split; [apply with_lazy_edge_config|]. split.
  { unfold with_lazy_edge. destruct (negb _ && negb _); [apply add_edge_subgraphs | done]. }
  split; [done|]. intros n.
  unfold with_lazy_edge. destruct (negb _ && negb _).
  - rewrite add_edge_nodes. destruct (pgv.nodes g !! n) eqn:En; [done|].
    destruct (decide (n = u \/ n = v)).
    + by rewrite decide_False.
    + by rewrite decide_True.
  - destruct (pgv.nodes g !! n) eqn:En; [done|]. by rewrite decide_True.
Qed.

(** ** The nodes after one diagram update *)

Lemma reset_all_calm (g : pgv.AGraph) : all_calm (reset g).
Proof. intros n a H. left. by eapply reset_calm. Qed.

Lemma set_node_state_previous_calm (g g' : pgv.AGraph) (n : string) :
  styled g -> all_calm g ->
  GraphMachine.set_node_state g n "previous" = inr g' -> all_calm g'.
Proof.
  unfold all_calm. intros Hs Hc H.
  destruct (set_node_state_inv g g' n "previous" Hs) as (_ & _ & Hn); [auto | done |].
  destruct Hn as [(a & Ha & -> & _) | (_ & -> & _)]; [|done].
  intros n' a'. destruct (decide (n' = n)) as [->|Hne].
  - rewrite lookup_insert_eq. intros [= <-]. right. apply carries_union.
  - rewrite lookup_insert_ne by done. apply Hc.
Qed.

Lemma set_edge_state_calm (machine : Machine) (g g' : pgv.AGraph) (u v role : string)
    (label : option string) :
  styled g -> node_defaults g -> all_calm g ->
  GraphMachine.set_edge_state machine g u v role label = inr g' -> all_calm g'.
Proof.
  unfold all_calm. intros Hs Hd Hc H.
  destruct (set_edge_state_nodes machine g g' u v role label Hs H) as (_ & _ & _ & Hn).
  intros n a. rewrite Hn. destruct (pgv.nodes g !! n) as [x|] eqn:En.
  - intros [= <-]. by eapply Hc.
  - case_decide; [discriminate|]. intros [= <-]. left.
    unfold node_defaults in Hd. rewrite Hd. by unfold carries.
Qed.

Lemma set_node_state_active_at (g g' : pgv.AGraph) (n : string) :
  styled g -> all_calm g ->
  GraphMachine.set_node_state g n "active" = inr g' ->
  active_at n g'
  /\ (forall m, is_Some (pgv.nodes g' !! m) <-> is_Some (pgv.nodes g !! m)).
Proof.
  unfold all_calm, active_at. intros Hs Hc H.
  destruct (set_node_state_inv g g' n "active" Hs) as (_ & _ & Hn); [auto | done |].
  destruct Hn as [(a & Ha & -> & _) | (Hnone & -> & _)].
  - split.
    + intros n' a'. destruct (decide (n' = n)) as [->|Hne].
      * rewrite lookup_insert_eq. intros [= <-]. left. split; [done|]. apply carries_union.
      * rewrite lookup_insert_ne by done. intros Hn'. right. split; [done|]. by eapply Hc.
    + intros m. destruct (decide (m = n)) as [->|Hne].
      * rewrite lookup_insert_eq, Ha. split; eauto.
      * by rewrite lookup_insert_ne.
  - split; [|done]. intros n' a' Hn'. right. split; [congruence|]. by eapply Hc.
Qed.

(** One diagram update, seen from the nodes: the name [nd] that was styled
    active is the destination, resolved to its first leaf when the source is
    defined and nested. *)
Lemma update_diagram_nodes (t : Transition) (machine : Machine) (ev : string)
    (model model' : Model) (g : pgv.AGraph) :
  styled g -> node_defaults g ->
  graph model = Some g ->
  TransitionGraphSupport.update_diagram t machine ev model = inr model' ->
  exists g' d0 nd,
    graph model' = Some g' /\ config g' = config g
    /\ get_state machine (dest t) = inr d0
    /\ active_at nd g'
    /\ match source t with
       | Some _ => is_Some (pgv.nodes g' !! nd)
       | None => nd = name d0
       end.
Proof.
  intros Hs Hd Hg H.
  destruct (update_diagram_inv t machine ev model model' g Hs Hg H)
    as (d0 & g' & Hd0 & -> & Hstep).
  assert (Hrs : styled (reset g)) by done.
  destruct (source t) as [src|].
  - destruct Hstep as (s0 & sd & g2 & g3 & Hs0 & Hg2 & Hsd & Hg3 & Hg').
    destruct (set_node_state_inv _ _ _ _ Hrs (or_intror (or_intror eq_refl)) Hg2)
      as (Hc2 & _ & _).
    assert (Hs2 : styled g2) by (by eapply config_styled).
    assert (Hd2 : node_defaults g2) by (by eapply config_node_defaults).
    pose proof (set_node_state_previous_calm _ _ _ Hrs (reset_all_calm g) Hg2) as Hcalm2.
    destruct (set_edge_state_nodes _ _ _ _ _ _ _ Hs2 Hg3) as (Hc3 & _ & Hv & _).
    pose proof (set_edge_state_calm _ _ _ _ _ _ _ Hs2 Hd2 Hcalm2 Hg3) as Hcalm3.
    assert (Hs3 : styled g3) by (by eapply config_styled).
    destruct (set_node_state_active_at _ _ _ Hs3 Hcalm3 Hg') as (Hact & Hdom).
    destruct (set_node_state_inv _ _ _ _ Hs3 (or_intror (or_introl eq_refl)) Hg')
      as (Hc' & _ & _).
    exists g', d0, (name sd.2). repeat split; try done.
    + by rewrite Hc', Hc3, Hc2.
    + by apply Hdom.
  - destruct (set_node_state_active_at _ _ _ Hrs (reset_all_calm g) Hstep) as (Hact & _).
    destruct (set_node_state_inv _ _ _ _ Hrs (or_intror (or_introl eq_refl)) Hstep)
      as (Hc' & _ & _).
    exists g', d0, (name d0). repeat split; try done.
Qed.

(** ** Sequences of transitions *)

Lemma for_each_app {A S} (body : S -> A -> Result S) (xs ys : list A) (s s' : S) :
  for_each body (xs ++ ys)%list s = inr s' <->
  exists mid, for_each body xs s = inr mid /\ for_each body ys mid = inr s'.
Proof.
  revert s. induction xs as [|x xs IH]; intros s; simpl.
  - split; [eauto | by intros (mid & [= <-] & H)].
  - destruct (body s x) as [e|s1]; simpl.
    + split; [discriminate | by intros (mid & ? & _)].
    + apply IH.
Qed.

Lemma change_state_inv (t : Transition) (machine : Machine) (ev : string)
    (model model' : Model) :
  TransitionGraphSupport._change_state t machine ev model = inr model' ->
  exists mid, TransitionGraphSupport.update_diagram t machine ev model = inr mid
    /\ graph model' = graph mid.
Proof.
  unfold TransitionGraphSupport._change_state. intros H. bind_inv H as mid Hmid.
  exists mid. split; [done|]. by injection H as <-.
Qed.

Lemma fire_config (machine : Machine) (ts : list (Transition * string)) :
  forall (model model' : Model) (g : pgv.AGraph),
    styled g -> node_defaults g -> graph model = Some g ->
    fire machine ts model = inr model' ->
    exists g', graph model' = Some g' /\ config g' = config g.
Proof.
  unfold fire. induction ts as [|[t ev] ts IH]; intros model model' g Hs Hd Hg H; simpl in H.
  - injection H as <-. eauto.
  - bind_inv H as m1 Hm1. apply change_state_inv in Hm1 as (mid & Hmid & Hgm).
    destruct (update_diagram_nodes _ _ _ _ _ _ Hs Hd Hg Hmid)
      as (g1 & _ & _ & Hg1 & Hc1 & _).
    rewrite <- Hgm in Hg1.
    destruct (IH m1 model' g1) as (g' & Hg' & Hc'); try done.
    + by eapply config_styled.
    + by eapply config_node_defaults.
    + exists g'. split; [done|]. congruence.
Qed.

(** C1, as the code has it: after every transition of a completed sequence,
    at most one node of the model's graph carries the active role and every
    node carries the active, the default or the previous role; exactly one
    node carries the active role whenever the transition has a defined source
    or its destination is itself a node of the graph.  (An initial-entry
    transition into a composite state styles that state's cluster, and then
    no node is active.) *)
Theorem active_node_unique (machine : Machine) (ts : list (Transition * string))
    (t : Transition) (ev : string) (model model' : Model) (g : pgv.AGraph) :
  graph model = Some g -> styled g -> node_defaults g ->
  fire machine (ts ++ [(t, ev)]) model = inr model' ->
  exists g',
    graph model' = Some g'
    /\ (forall n1 n2 a1 a2,
          pgv.nodes g' !! n1 = Some a1 -> pgv.nodes g' !! n2 = Some a2 ->
          carries "active" a1 -> carries "active" a2 -> n1 = n2)
    /\ (forall n a, pgv.nodes g' !! n = Some a ->
          carries "active" a \/ carries "default" a \/ carries "previous" a)
    /\ (is_Some (source t)
        \/ (exists d0, get_state machine (dest t) = inr d0
                       /\ is_Some (pgv.nodes g' !! name d0)) ->
        exists n a, pgv.nodes g' !! n = Some a /\ carries "active" a).
Proof.
  intros Hg Hs Hd H. unfold fire in H. apply for_each_app in H as (m1 & Hm1 & Hlast).
  destruct (fire_config machine ts model m1 g Hs Hd Hg Hm1) as (g1 & Hg1 & Hc1).
  simpl in Hlast. bind_inv Hlast as m2 Hm2. injection Hlast as <-.
  apply change_state_inv in Hm2 as (mid & Hmid & Hgm).
  destruct (update_diagram_nodes t machine ev m1 mid g1) as
    (g' & d0 & nd & Hg' & _ & Hd0 & Hact & Hsrc); try done.
  { by eapply config_styled. }
  { by eapply config_node_defaults. }
  exists g'. split; [congruence|]. split; [|split].
  - intros n1 n2 a1 a2 H1 H2 Ha1 Ha2.
    destruct (Hact _ _ H1) as [[-> _]|[_ Hc]]; [|by apply calm_not_active in Hc].
    destruct (Hact _ _ H2) as [[-> _]|[_ Hc]]; [done|by apply calm_not_active in Hc].
  - intros n a Hn. destruct (Hact _ _ Hn) as [[_ ?]|[_ [?|?]]]; auto.
  - intros Hcase.
    assert (Hnd : is_Some (pgv.nodes g' !! nd)).
    { destruct (source t) as [src|].
      - done.
      - subst nd. destruct Hcase as [[? [=]]|(d0' & Hd0' & Hin)].
        rewrite Hd0 in Hd0'. by injection Hd0' as <-. }
    destruct Hnd as [a Ha]. exists nd, a. split; [done|].
    destruct (Hact _ _ Ha) as [[_ ?]|[? _]]; done.
Qed.

(** ** Checks on concrete runs *)

Lemma ready_inv (r : Result Model) :
  ready r = true ->
  exists m g, r = inr m /\ graph m = Some g /\ styled g /\ node_defaults g.
Proof.
  destruct r as [e|m]; [discriminate|]. cbn [ready].
  destruct (graph m) as [g|] eqn:Eg; [|discriminate].
  intros [H1%bool_decide_eq_true H2%bool_decide_eq_true]%andb_true_iff.
  exists m, g. split; [reflexivity|]. split; [exact Eg|]. split; assumption.
Qed.

Lemma no_active_node_inv (r : Result Model) :
  no_active_node r = true ->
  exists m g, r = inr m /\ graph m = Some g
    /\ forall n a, pgv.nodes g !! n = Some a -> ~ carries "active" a.
Proof.
  destruct r as [e|m]; [discriminate|]. cbn [no_active_node].
  destruct (graph m) as [g|] eqn:Eg; [|discriminate].
  intros Hall%bool_decide_eq_true. exists m, g. split; [reflexivity|]. split; [exact Eg|].
  intros n a Hn Hc. apply (Hall n a Hn). by eapply carries_color.
Qed.

Lemma drawn_model_ready : ready drawn_model = true.
Proof. vm_compute. reflexivity. Qed.

(** On [nested_machine], firing [go] from [A] leaves a node with the active
    role, and only one. *)
Lemma active_node_unique_witness :
  exists model model' g',
    drawn_model = inr model
    /\ fire nested_machine
         [({| source := Some "A"; dest := "P"; conditions := [] |}, "go")] model
       = inr model'
    /\ graph model' = Some g'
    /\ exists n a, pgv.nodes g' !! n = Some a /\ carries "active" a.
Proof.
  destruct (ready_inv _ drawn_model_ready) as (model & g & E & Hg & Hs & Hd).
  assert (Hok : is_ok (bind drawn_model
                         (fire nested_machine
                            [({| source := Some "A"; dest := "P"; conditions := [] |}, "go")]))
                = true) by (vm_compute; reflexivity).
  apply is_ok_inv in Hok as [model' F]. rewrite E in F. cbn [bind] in F.
  destruct (active_node_unique nested_machine []
              {| source := Some "A"; dest := "P"; conditions := [] |} "go"
              model model' g Hg Hs Hd F) as (g' & Hg' & _ & _ & Hex).
  exists model, model', g'. split; [done|]. split; [done|]. split; [done|].
  apply Hex. left. simpl. eauto.
Defined.

(** C1 as stated fails: an initial-entry transition (no source) into the
    composite state [P] completes, styles the cluster of [P], and leaves no
    node of the graph with the active role. *)
Lemma active_node_unique_counterexample :
  exists model model' g',
    drawn_model = inr model
    /\ fire nested_machine
         [({| source := None; dest := "P"; conditions := [] |}, "init")] model
       = inr model'
    /\ graph model' = Some g'
    /\ forall n a, pgv.nodes g' !! n = Some a -> ~ carries "active" a.
Proof.
  assert (H : no_active_node
                (bind drawn_model
                   (fire nested_machine
                      [({| source := None; dest := "P"; conditions := [] |}, "init")]))
              = true) by (vm_compute; reflexivity).
  apply no_active_node_inv in H as (model' & g' & F & Hg' & Hnone).
  destruct drawn_model as [e|model]; [discriminate|]. cbn [bind] in F.
  exists model, model', g'. done.
Qed.

(** ** The initial-entry update *)

Lemma active_not_previous (a : Attrs) : carries "active" a -> ~ carries "previous" a.
Proof.
  intros H Ha.
  pose proof (carries_color _ _ "red" H eq_refl) as H1.
  pose proof (carries_color _ _ "blue" Ha eq_refl) as H2. congruence.
Qed.

(** C10: for a transition without a source the diagram update puts every
    node back to the default style and applies the active role to the
    destination as named (its node, or its cluster when it is not a node); no
    node ends up with the previous role and the edge list, attribute
    dictionaries included, is left as it was. *)
Theorem initial_entry_update (t : Transition) (machine : Machine) (ev : string)
    (model model' : Model) (g : pgv.AGraph) :
  styled g ->
  graph model = Some g ->
  source t = None ->
  TransitionGraphSupport.update_diagram t machine ev model = inr model' ->
  exists g' d0,
    graph model' = Some g'
    /\ get_state machine (dest t) = inr d0
    /\ pgv.edges g' = pgv.edges g
    /\ (forall n,
          pgv.nodes g' !! n
          = (λ a, if decide (n = name d0)
                  then node_style "active" ∪ (node_style "default" ∪ a)
                  else node_style "default" ∪ a) <$> pgv.nodes g !! n)
    /\ (forall n a, pgv.nodes g' !! n = Some a -> ~ carries "previous" a)
    /\ (pgv.nodes g !! name d0 = None ->
        exists sg,
          pgv.subgraph_at (pgv.subgraphs g) (cluster_path (name d0)) = Some sg
          /\ pgv.subgraph_at (pgv.subgraphs g') (cluster_path (name d0))
             = Some (pgv.with_graph_attr sg (node_style "active" ∪ pgv.sg_graph_attr sg))).
Proof.
  intros Hs Hg Hsrc H.
  destruct (update_diagram_inv t machine ev model model' g Hs Hg H)
    as (d0 & g' & Hd0 & -> & Hstep).
  rewrite Hsrc in Hstep.
  assert (Hrs : styled (reset g)) by done.
  destruct (set_node_state_inv _ _ _ _ Hrs (or_intror (or_introl eq_refl)) Hstep)
    as (_ & He & Hn).
  assert (Hnodes : forall n,
            pgv.nodes g' !! n
            = (λ a, if decide (n = name d0)
                    then node_style "active" ∪ (node_style "default" ∪ a)
                    else node_style "default" ∪ a) <$> pgv.nodes g !! n).
  { intros n. destruct Hn as [(a & Ha & -> & _) | (Hnone & -> & _)].
    - rewrite reset_lookup in Ha.
      destruct (decide (n = name d0)) as [->|Hne].
      + rewrite lookup_insert_eq.
        destruct (pgv.nodes g !! name d0) as [a0|]; simpl in *; [|discriminate].
        by injection Ha as <-.
      + rewrite lookup_insert_ne by done. rewrite reset_lookup.
        by destruct (pgv.nodes g !! n).
    - rewrite reset_lookup in *.
      destruct (pgv.nodes g !! n) as [a0|] eqn:En; simpl; [|done].
      rewrite decide_False; [done|]. intros ->. rewrite En in Hnone. discriminate. }
  exists g', d0. split; [done|]. split; [done|]. split; [done|]. split; [exact Hnodes|].
  split.
  - intros n a. rewrite Hnodes. destruct (pgv.nodes g !! n) as [a0|]; simpl; [|discriminate].
    intros [= <-]. case_decide.
    + apply active_not_previous, carries_union.
    + apply default_not_previous, carries_union.
  - intros Hnone. destruct Hn as [(a & Ha & _) | (_ & _ & sg & Hsg & Hsg')].
    + rewrite reset_lookup, Hnone in Ha. discriminate.
    + by exists sg.
Qed.

(** The initial entry into the leaf [A] of [nested_machine]. *)
Lemma initial_entry_update_witness :
  exists model model' g g',
    drawn_model = inr model /\ graph model = Some g
    /\ TransitionGraphSupport.update_diagram
         {| source := None; dest := "A"; conditions := [] |} nested_machine "init" model
       = inr model'
    /\ graph model' = Some g'
    /\ pgv.edges g' = pgv.edges g
    /\ forall n a, pgv.nodes g' !! n = Some a -> ~ carries "previous" a.
Proof.
  destruct (ready_inv _ drawn_model_ready) as (model & g & E & Hg & Hs & _).
  assert (Hok : is_ok (bind drawn_model
                         (TransitionGraphSupport.update_diagram
                            {| source := None; dest := "A"; conditions := [] |}
                            nested_machine "init")) = true) by (vm_compute; reflexivity).
  apply is_ok_inv in Hok as [model' F]. rewrite E in F. cbn [bind] in F.
  destruct (initial_entry_update {| source := None; dest := "A"; conditions := [] |}
              nested_machine "init" model model' g Hs Hg eq_refl F)
    as (g' & d0 & Hg' & _ & He & _ & Hprev & _).
  exists model, model', g, g'. repeat (split; [eassumption|]). exact Hprev.
Defined.

(** ** The previous role after a transition with a source *)

(** C3, as the code has it: on a completed transition with a defined source
    the previous role is applied to the source as it is named, before any
    descent.  When the source is a node (a leaf) other than the resolved
    destination, that node ends up with the previous role.  When the source is
    not a node (a composite state), the previous style goes to the graph
    attributes of the source's cluster, no node ends up with the previous
    role, and the first-leaf descent serves the edge lookup only. *)
Theorem previous_role_on_source (t : Transition) (machine : Machine) (ev : string)
    (model model' : Model) (g : pgv.AGraph) (src : string) :
  styled g -> node_defaults g ->
  graph model = Some g ->
  source t = Some src ->
  TransitionGraphSupport.update_diagram t machine ev model = inr model' ->
  exists g' s0 d0 sd,
    graph model' = Some g'
    /\ get_state machine src = inr s0
    /\ get_state machine (dest t) = inr d0
    /\ resolve_pair s0 d0 = inr sd
    /\ (is_Some (pgv.nodes g !! name s0) -> name s0 ≠ name sd.2 ->
        exists a, pgv.nodes g' !! name s0 = Some a /\ carries "previous" a)
    /\ (pgv.nodes g !! name s0 = None ->
        (exists sg,
           pgv.subgraph_at (pgv.subgraphs g) (cluster_path (name s0)) = Some sg
           /\ pgv.subgraph_at (pgv.subgraphs g') (cluster_path (name s0))
              = Some (pgv.with_graph_attr sg
                        (node_style "previous" ∪ pgv.sg_graph_attr sg)))
        /\ forall n a, pgv.nodes g' !! n = Some a -> ~ carries "previous" a).
Proof.
  intros Hs Hd Hg Hsrc H.
  destruct (update_diagram_inv t machine ev model model' g Hs Hg H)
    as (d0 & g' & Hd0 & -> & Hstep).
  rewrite Hsrc in Hstep.
  destruct Hstep as (s0 & sd & g2 & g3 & Hs0 & Hg2 & Hsd & Hg3 & Hg').
  assert (Hrs : styled (reset g)) by done.
  destruct (set_node_state_inv _ _ _ _ Hrs (or_intror (or_intror eq_refl)) Hg2)
    as (Hc2 & _ & Hn2).
  assert (Hs2 : styled g2) by (by eapply config_styled).
  assert (Hd2 : node_defaults g2) by (by eapply config_node_defaults).
  destruct (set_edge_state_nodes _ _ _ _ _ _ _ Hs2 Hg3) as (Hc3 & Hsg3 & Hv & Hn3).
  assert (Hs3 : styled g3) by (by eapply config_styled).
  destruct (set_node_state_inv _ _ _ _ Hs3 (or_intror (or_introl eq_refl)) Hg')
    as (_ & _ & Hn').
  destruct Hn' as [(a3 & Ha3 & Hnodes' & Hsg') | (Hnone & _)];
    [|rewrite Hnone in Hv; by destruct Hv].
  exists g', s0, d0, sd. do 4 (split; [done|]). split.
  - intros [a0 Ha0] Hne.
    destruct Hn2 as [(a & Ha & Hnodes2 & _) | (Hnone & _)];
      [|rewrite reset_lookup, Ha0 in Hnone; discriminate].
    exists (node_style "previous" ∪ a). split; [|apply carries_union].
    rewrite Hnodes', lookup_insert_ne by done.
    rewrite Hn3, Hnodes2, lookup_insert_eq. done.
  - intros Hnone.
    destruct Hn2 as [(a & Ha & _) | (_ & Hnodes2 & sg & Hsg & Hsg2)];
      [rewrite reset_lookup, Hnone in Ha; discriminate|].
    split.
    + exists sg. split; [done|]. by rewrite Hsg', Hsg3.
    + intros n a. rewrite Hnodes'. destruct (decide (n = name sd.2)) as [->|Hne].
      * rewrite lookup_insert_eq. intros [= <-].
        apply active_not_previous, carries_union.
      * rewrite lookup_insert_ne by done. rewrite Hn3, Hnodes2.
        destruct (pgv.nodes (reset g) !! n) as [x|] eqn:En.
        -- intros [= <-]. apply default_not_previous. by eapply reset_calm.
        -- case_decide; [discriminate|]. intros [= <-].
           apply default_not_previous. unfold node_defaults in Hd2. rewrite Hd2.
           by unfold carries.
Qed.

Lemma holds_on_inv (r : Result Model) (P : pgv.AGraph -> bool) :
  holds_on r P = true ->
  exists m g, r = inr m /\ graph m = Some g /\ P g = true.
Proof.
  unfold holds_on. destruct r as [e|m]; cbn [final_graph]; [discriminate|].
  destruct (graph m) as [g|] eqn:Eg; [|discriminate]. intros HP. by exists m, g.
Qed.

Lemma holds_at_inv (r : Result Model) (P : Model -> pgv.AGraph -> bool) :
  holds_at r P = true ->
  exists m g, r = inr m /\ graph m = Some g /\ P m g = true.
Proof.
  unfold holds_at. destruct r as [e|m]; [discriminate|].
  destruct (graph m) as [g|] eqn:Eg; [|discriminate]. intros HP. by exists m, g.
Qed.

(** Leaving the composite state [P] of [nested_machine]: the cluster of [P]
    takes the previous style and no node does. *)
Lemma previous_role_on_source_witness :
  exists model model' g g',
    drawn_model = inr model /\ graph model = Some g
    /\ TransitionGraphSupport.update_diagram back_P_A nested_machine "back" model = inr model'
    /\ graph model' = Some g'
    /\ (exists sg,
          pgv.subgraph_at (pgv.subgraphs g) ["cluster_P"] = Some sg
          /\ pgv.subgraph_at (pgv.subgraphs g') ["cluster_P"]
             = Some (pgv.with_graph_attr sg (node_style "previous" ∪ pgv.sg_graph_attr sg)))
    /\ forall n a, pgv.nodes g' !! n = Some a -> ~ carries "previous" a.
Proof.
  assert (Hchk : holds_on drawn_model
                   (λ g, bool_decide (styled g) && bool_decide (node_defaults g)
                         && bool_decide (pgv.nodes g !! "P" = None)) = true)
    by (vm_compute; reflexivity).
  apply holds_on_inv in Hchk as (model & g & E & Hg & Hchk).
  apply andb_true_iff in Hchk as [Hchk HP%bool_decide_eq_true].
  apply andb_true_iff in Hchk as [Hs%bool_decide_eq_true Hd%bool_decide_eq_true].
  assert (Hok : is_ok (bind drawn_model
                         (TransitionGraphSupport.update_diagram back_P_A nested_machine "back"))
                = true) by (vm_compute; reflexivity).
  apply is_ok_inv in Hok as [model' F]. rewrite E in F. cbn [bind] in F.
  destruct (previous_role_on_source back_P_A nested_machine "back" model model' g "P"
              Hs Hd Hg eq_refl F)
    as (g' & s0 & d0 & sd & Hg' & Hs0 & _ & _ & _ & Hcluster).
  vm_compute in Hs0. injection Hs0 as <-.
  destruct (Hcluster HP) as [Hsg Hnone].
  exists model, model', g, g'. repeat (split; [eassumption|]). exact Hnone.
Defined.

(** C3 as stated fails: after [go] (from [A] into [P]) and [back] (from the
    composite [P] to [A]) the source [P] resolves to the leaf [P_1], yet the
    node [P_1] does not carry the previous role. *)
Lemma previous_role_on_source_counterexample :
  exists s0 leaf g' a,
    get_state nested_machine "P" = inr s0
    /\ first_leaf s0 = inr leaf /\ name leaf = "P_1"
    /\ final_graph (m <- drawn_model ;;
                    fire nested_machine [(go_A_P, "go"); (back_P_A, "back")] m) = Some g'
    /\ pgv.nodes g' !! "P_1" = Some a
    /\ ~ carries "previous" a.
Proof.
  assert (Hchk : holds_on (m <- drawn_model ;;
                           fire nested_machine [(go_A_P, "go"); (back_P_A, "back")] m)
                   (λ g, match pgv.nodes g !! "P_1" with
                         | Some a => bool_decide (a !! "color" ≠ Some "blue")
                         | None => false
                         end) = true)
    by (vm_compute; reflexivity).
  unfold holds_on in Hchk.
  destruct (final_graph _) as [g'|] eqn:E; [|discriminate].
  destruct (pgv.nodes g' !! "P_1") as [a|] eqn:Ea; [|discriminate].
  apply bool_decide_eq_true in Hchk.
  exists (MkState "P" "P" (Some [MkState "P_1" "1" (Some [])])),
         (MkState "P_1" "1" (Some [])), g', a.
  repeat (split; [reflexivity || eassumption|]).
  intros Hc. apply Hchk. by eapply carries_color.
Qed.

(** ** The edge of the transition *)

Lemma has_edge_ext (g1 g2 : pgv.AGraph) (u v : string) :
  (forall n, is_Some (pgv.nodes g1 !! n) <-> is_Some (pgv.nodes g2 !! n)) ->
  pgv.edges g1 = pgv.edges g2 ->
  pgv.has_edge g1 u v = pgv.has_edge g2 u v.
Proof.
  intros Hn He. unfold pgv.has_edge, pgv.has_node. rewrite He.
  rewrite (bool_decide_ext _ _ (Hn u)), (bool_decide_ext _ _ (Hn v)). done.
Qed.

Lemma edge_style_default_other (k : string) : k ≠ "color" -> edge_style "default" !! k = None.
Proof. intros Hk. change (edge_style "default") with ({[ "color" := "black" ]} : Attrs).
  by apply lookup_singleton_ne. Qed.

Lemma edge_style_previous_other (k : string) :
  k ≠ "color" -> edge_style "previous" !! k = None.
Proof. intros Hk. change (edge_style "previous") with ({[ "color" := "blue" ]} : Attrs).
  by apply lookup_singleton_ne. Qed.

Lemma edge_default_not_previous (a : Attrs) :
  edge_carries "default" a -> ~ edge_carries "previous" a.
Proof.
  intros H1 H2.
  assert (a !! "color" = Some "black")
    by (apply (lookup_weaken (edge_style "default")); [reflexivity | exact H1]).
  assert (a !! "color" = Some "blue")
    by (apply (lookup_weaken (edge_style "previous")); [reflexivity | exact H2]).
  congruence.
Qed.

(** C2, as the code has it: on a completed transition with a defined source
    the edge from the resolved source to the resolved destination is looked
    up, after being created first exactly when auto-transition display is
    disabled and the graph has no such edge (with display enabled the edge
    must exist, or the update does not complete).  Every edge is then reset to
    the default style and that one edge gets the previous style.  Edges that
    were in the graph keep their ends and every attribute but the colour, in
    particular their labels. *)
Theorem transition_edge_marked (t : Transition) (machine : Machine) (ev : string)
    (model model' : Model) (g : pgv.AGraph) (src : string) :
  styled g ->
  graph model = Some g ->
  source t = Some src ->
  TransitionGraphSupport.update_diagram t machine ev model = inr model' ->
  exists g' s0 d0 sd i e',
    graph model' = Some g'
    /\ get_state machine src = inr s0
    /\ get_state machine (dest t) = inr d0
    /\ resolve_pair s0 d0 = inr sd
    /\ pgv.edges g' !! i = Some e'
    /\ pgv.e_from e' = name sd.1 /\ pgv.e_to e' = name sd.2
    /\ edge_carries "previous" (pgv.e_attr e')
    /\ (forall j e, j ≠ i -> pgv.edges g' !! j = Some e -> edge_carries "default" (pgv.e_attr e))
    /\ (forall j e, pgv.edges g !! j = Some e ->
          exists e2, pgv.edges g' !! j = Some e2
            /\ pgv.e_from e2 = pgv.e_from e /\ pgv.e_to e2 = pgv.e_to e
            /\ forall k, k ≠ "color" -> pgv.e_attr e2 !! k = pgv.e_attr e !! k)
    /\ length (pgv.edges g')
       = length (pgv.edges g)
         + (if negb (show_auto_transitions machine)
               && negb (pgv.has_edge g (name sd.1) (name sd.2)) then 1 else 0)
    /\ (show_auto_transitions machine = true ->
        pgv.has_edge g (name sd.1) (name sd.2) = true).
Proof.
  intros Hs Hg Hsrc H.
  destruct (update_diagram_inv t machine ev model model' g Hs Hg H)
    as (d0 & g' & Hd0 & -> & Hstep).
  rewrite Hsrc in Hstep.
  destruct Hstep as (s0 & sd & g2 & g3 & Hs0 & Hg2 & Hsd & Hg3 & Hg').
  set (u := name sd.1) in *. set (v := name sd.2) in *.
  assert (Hrs : styled (reset g)) by done.
  destruct (set_node_state_inv _ _ _ _ Hrs (or_intror (or_intror eq_refl)) Hg2)
    as (Hc2 & He2 & Hn2).
  assert (Hs2 : styled g2) by (by eapply config_styled).
  assert (Hhas : pgv.has_edge g2 u v = pgv.has_edge g u v).
  { apply has_edge_ext; [|done]. intros n.
    destruct Hn2 as [(a & Ha & -> & _) | (_ & -> & _)].
    - destruct (decide (n = name s0)) as [->|Hne].
      + rewrite lookup_insert_eq. rewrite reset_lookup in Ha.
        destruct (pgv.nodes g !! name s0); [|discriminate]. split; eauto.
      + rewrite lookup_insert_ne by done. rewrite reset_lookup.
        by rewrite fmap_is_Some.
    - rewrite reset_lookup. by rewrite fmap_is_Some. }
  destruct (set_edge_state_inv machine g2 g3 u v "previous" (Some ev) (edge_style "default"))
    as (i & e & d & Hfind & He & Hd & Hu & Hv & Hg3eq);
    [apply styled_edge_role; auto | done |].
  rewrite styled_edge_role in Hd by auto. injection Hd as <-.
  assert (Hs3 : styled g3).
  { eapply config_styled; [|exact Hs2]. rewrite Hg3eq. apply with_lazy_edge_config. }
  destruct (set_node_state_inv _ _ _ _ Hs3 (or_intror (or_introl eq_refl)) Hg')
    as (_ & He' & _).
  set (es0 := pgv.edges (with_lazy_edge machine g2 u v (Some ev))) in *.
  assert (Hes' : pgv.edges g'
                 = <[i := restyle (edge_style "previous") (restyle (edge_style "default") e)]>
                     (restyle (edge_style "default") <$> es0)).
  { rewrite He', Hg3eq. done. }
  assert (Hes0 : es0 = if negb (show_auto_transitions machine) && negb (pgv.has_edge g u v)
                       then (pgv.edges g ++ [{| pgv.e_from := u; pgv.e_to := v;
                                               pgv.e_key := Some ev; pgv.e_attr := ∅ |}])%list
                       else pgv.edges g).
  { unfold es0, with_lazy_edge. rewrite Hhas.
    destruct (negb _ && negb _); [|done].
    unfold pgv.add_edge. cbn [pgv.edges pgv.set_edges].
    assert (Hadd : forall h n, pgv.edges (pgv.add_node h n ∅) = pgv.edges h) by done.
    destruct (pgv.has_node g2 u); destruct (pgv.has_node _ v);
      rewrite ?Hadd, He2; done. }
  destruct (find_edge_Some _ _ _ _ Hfind) as (e0 & He0 & Hfrom & Hto).
  fold es0 in He0. rewrite He in He0. injection He0 as <-.
  assert (Hi : i < length es0) by (by eapply lookup_lt_Some).
  clearbody es0. subst u v.
  exists g', s0, d0, sd, i,
    (restyle (edge_style "previous") (restyle (edge_style "default") e)).
  do 4 (split; [done|]).
  split. { rewrite Hes'. apply list_lookup_insert_eq. by rewrite length_fmap. }
  split; [done|]. split; [done|].
  split. { apply map_union_subseteq_l. }
  split.
  { intros j ej Hne. rewrite Hes', list_lookup_insert_ne by done.
    rewrite list_lookup_fmap. destruct (es0 !! j); simpl; [|discriminate].
    intros [= <-]. apply map_union_subseteq_l. }
  split.
  { intros j ej Hj.
    assert (Hj0 : es0 !! j = Some ej).
    { rewrite Hes0. destruct (negb _ && negb _); [|done]. by apply lookup_app_l_Some. }
    destruct (decide (j = i)) as [->|Hne].
    - rewrite He in Hj0. injection Hj0 as ->.
      eexists. split; [rewrite Hes'; apply list_lookup_insert_eq; by rewrite length_fmap|].
      split; [done|]. split; [done|]. intros k Hk. simpl.
      rewrite lookup_union_r by (by apply edge_style_previous_other).
      by rewrite lookup_union_r by (by apply edge_style_default_other).
    - eexists. split.
      { rewrite Hes', list_lookup_insert_ne by done. rewrite list_lookup_fmap, Hj0. done. }
      split; [done|]. split; [done|]. intros k Hk. simpl.
      by rewrite lookup_union_r by (by apply edge_style_default_other). }
  split.
  { rewrite Hes', length_insert, length_fmap, Hes0.
    destruct (negb _ && negb _); [rewrite length_app; simpl; lia | lia]. }
  intros Hshow. rewrite Hshow in Hes0. cbn [negb andb] in Hes0. subst es0.
  rewrite <- Hhas. unfold pgv.has_edge.
  unfold with_lazy_edge in Hu, Hv. rewrite Hshow in Hu, Hv. cbn [negb andb] in Hu, Hv.
  unfold pgv.has_node.
  apply andb_true_iff; split; [apply andb_true_iff; split|]; apply bool_decide_eq_true;
    [done|done|].
  rewrite He2. change (pgv.edges (reset g)) with (pgv.edges g). rewrite Hfind. eauto.
Qed.

(** On [flat_machine] the hidden event [to_A], fired from [B], gets its edge
    created by the update: one edge more than before. *)
Lemma transition_edge_marked_witness :
  exists model model' g g',
    draw flat_machine "B" = inr model /\ graph model = Some g
    /\ TransitionGraphSupport.update_diagram B_to_A flat_machine "to_A" model = inr model'
    /\ graph model' = Some g'
    /\ length (pgv.edges g') = length (pgv.edges g) + 1.
Proof.
  assert (Hchk : holds_on (draw flat_machine "B")
                   (λ g, bool_decide (styled g) && negb (pgv.has_edge g "B" "A")) = true)
    by (vm_compute; reflexivity).
  apply holds_on_inv in Hchk as (model & g & E & Hg & Hchk).
  apply andb_true_iff in Hchk as [Hs%bool_decide_eq_true Hno].
  assert (Hok : is_ok (bind (draw flat_machine "B")
                         (TransitionGraphSupport.update_diagram B_to_A flat_machine "to_A"))
                = true) by (vm_compute; reflexivity).
  apply is_ok_inv in Hok as [model' F]. rewrite E in F. cbn [bind] in F.
  destruct (transition_edge_marked B_to_A flat_machine "to_A" model model' g "B"
              Hs Hg eq_refl F)
    as (g' & s0 & d0 & sd & i & e' & Hg' & Hs0 & Hd0 & Hsd & _ & _ & _ & _ & _ & _ & Hlen & _).
  vm_compute in Hs0. injection Hs0 as <-.
  vm_compute in Hd0. injection Hd0 as <-.
  vm_compute in Hsd. injection Hsd as <-.
  cbn [fst snd name show_auto_transitions flat_machine] in Hlen.
  rewrite Hno in Hlen. cbn [negb andb] in Hlen.
  exists model, model', g, g'. from_context.
Defined.

(** C2 as stated fails.  On [flat_machine] the events [go] and [stop] share
    the edge from [A] to [B]; after [stop] fired, that edge carries the
    previous role but its label is still the merged one, not the name of the
    event.  And with auto-transition display enabled, the edge from [P] to its
    first child, left out at build time, is not created by the update: the
    update raises. *)
Lemma transition_edge_marked_counterexample :
  (exists g' e,
     final_graph (m <- draw flat_machine "A" ;;
                  fire flat_machine [(A_to_B, "stop")] m) = Some g'
     /\ pgv.edges g' !! 0 = Some e
     /\ pgv.e_from e = "A" /\ pgv.e_to e = "B"
     /\ edge_carries "previous" (pgv.e_attr e)
     /\ pgv.e_attr e !! "label" = Some "go | stop")
  /\ (m <- draw nested_auto_machine "P" ;;
      TransitionGraphSupport.update_diagram P_to_P_1 nested_auto_machine "enter" m)
     = inl (KeyError "Edge P_1-P_1 not in graph.").
Proof.
  split; [|vm_compute; reflexivity].
  assert (Hchk : holds_on (m <- draw flat_machine "A" ;;
                           fire flat_machine [(A_to_B, "stop")] m)
                   (λ g, match pgv.edges g !! 0 with
                         | Some e =>
                             bool_decide (pgv.e_from e = "A") && bool_decide (pgv.e_to e = "B")
                             && bool_decide (pgv.e_attr e !! "color" = Some "blue")
                             && bool_decide (pgv.e_attr e !! "label" = Some "go | stop")
                         | None => false
                         end) = true)
    by (vm_compute; reflexivity).
  unfold holds_on in Hchk.
  destruct (final_graph _) as [g'|] eqn:E; [|discriminate].
  destruct (pgv.edges g' !! 0) as [e|] eqn:Ee; [|discriminate].
  apply andb_true_iff in Hchk as [Hchk Hl%bool_decide_eq_true].
  apply andb_true_iff in Hchk as [Hchk Hc%bool_decide_eq_true].
  apply andb_true_iff in Hchk as [Hf%bool_decide_eq_true Ht%bool_decide_eq_true].
  exists g', e. repeat (split; [reflexivity || eassumption|]). split; [|exact Hl].
  by apply map_singleton_subseteq_l.
Qed.

(** ** The region of interest *)

Lemma add_edge_existing (g : pgv.AGraph) (u v : string) (k : option string) (a : Attrs) :
  is_Some (pgv.nodes g !! u) -> is_Some (pgv.nodes g !! v) ->
  pgv.add_edge g u v k a
  = pgv.set_edges g (pgv.edges g ++ [{| pgv.e_from := u; pgv.e_to := v; pgv.e_key := k;
                                        pgv.e_attr := a |}])%list.
Proof.
  intros Hu%has_node_true Hv%has_node_true. unfold pgv.add_edge. by rewrite Hu, Hv.
Qed.

Lemma roi_add_node (g : pgv.AGraph) (A : string) (f : pgv.AGraph) (n : string) :
  roi_inv g A f ->
  roi_inv g A (pgv.add_node f n (pgv.node_attrs g n))
  /\ pgv.edges (pgv.add_node f n (pgv.node_attrs g n)) = pgv.edges f
  /\ forall m, is_Some (pgv.nodes (pgv.add_node f n (pgv.node_attrs g n)) !! m)
               <-> is_Some (pgv.nodes f !! m) \/ m = n.
Proof.
  intros (Hd & HA & Hx). unfold roi_inv, pgv.add_node.
  cbn [pgv.nodes pgv.set_nodes pgv.edges pgv.node_attr].
  split; [|split; [done|]].
  - split; [done|]. split.
    + destruct (decide (A = n)) as [->|Hne];
        [rewrite lookup_insert_eq; eauto | by rewrite lookup_insert_ne].
    + intros m x. destruct (decide (m = n)) as [->|Hne].
      * rewrite lookup_insert_eq. intros [= <-]. unfold update.
        destruct (pgv.nodes f !! n) as [y|] eqn:Ey; simpl.
        -- rewrite (Hx n y Ey). by rewrite (assoc_L (∪)), (idemp_L (∪)).
        -- by rewrite Hd.
      * rewrite lookup_insert_ne by done. apply Hx.
  - intros m. destruct (decide (m = n)) as [->|Hne].
    + rewrite lookup_insert_eq. split; eauto.
    + rewrite lookup_insert_ne by done. split; [by left | by intros [?|?]].
Qed.

Lemma roi_body (g : pgv.AGraph) (A : string) (f : pgv.AGraph) (t : pgv.Edge) :
  roi_inv g A f -> pgv.incident A t = true ->
  exists f',
    GraphMachine._graph_roi_step g A f t = inr f' /\ roi_inv g A f'
    /\ pgv.edges f' = (pgv.edges f ++ (if roi_keeps g A t then [strip t] else []))%list
    /\ forall m, is_Some (pgv.nodes f' !! m)
                 <-> is_Some (pgv.nodes f !! m)
                     \/ (roi_keeps g A t = true /\ m = roi_new_node A t).
Proof.
  intros Hinv Hinc. unfold GraphMachine._graph_roi_step, roi_keeps, roi_new_node.
  change (((AGraph.style_attributes !!! "node") !!! "previous") !! "fillcolor")
    with (node_style "previous" !! "fillcolor").
  assert (Hkeep : forall nn,
            (pgv.e_from t = A /\ nn = pgv.e_to t) \/ (pgv.e_to t = A /\ nn = pgv.e_from t) ->
            exists f',
              ok (pgv.add_edge (pgv.add_node f nn (pgv.node_attrs g nn))
                    (pgv.e_from t) (pgv.e_to t) None (pgv.e_attr t)) = inr f'
              /\ roi_inv g A f' /\ pgv.edges f' = (pgv.edges f ++ [strip t])%list
              /\ forall m, is_Some (pgv.nodes f' !! m)
                           <-> is_Some (pgv.nodes f !! m) \/ m = nn).
  { intros nn Hnn. destruct (roi_add_node g A f nn Hinv) as (Hinv1 & He1 & Hdom1).
    assert (HA1 : is_Some (pgv.nodes (pgv.add_node f nn (pgv.node_attrs g nn)) !! A))
      by apply Hinv1.
    assert (Hn1 : is_Some (pgv.nodes (pgv.add_node f nn (pgv.node_attrs g nn)) !! nn))
      by (apply Hdom1; by right).
    assert (Hfrom1 : is_Some (pgv.nodes (pgv.add_node f nn (pgv.node_attrs g nn))
                                !! pgv.e_from t))
      by (destruct Hnn as [[E1 E2]|[E1 E2]];
          [rewrite E1; exact HA1 | rewrite <- E2; exact Hn1]).
    assert (Hto1 : is_Some (pgv.nodes (pgv.add_node f nn (pgv.node_attrs g nn))
                              !! pgv.e_to t))
      by (destruct Hnn as [[E1 E2]|[E1 E2]];
          [rewrite <- E2; exact Hn1 | rewrite E1; exact HA1]).
    rewrite add_edge_existing by assumption.
    eexists. split; [reflexivity|]. split; [exact Hinv1|]. split; [|exact Hdom1].
    cbn [pgv.edges pgv.set_edges]. by rewrite He1. }
  destruct (bool_decide (pgv.e_from t = A)) eqn:Efrom; cbn [orb].
  - apply bool_decide_eq_true in Efrom.
    destruct (Hkeep (pgv.e_to t)) as (f' & Hf' & Hinv' & He' & Hdom'); [by left|].
    exists f'. split; [done|]. split; [done|]. split; [done|].
    intros m. rewrite Hdom'. cbn [orb].
    split; [intros [?|?]; [by left | by right; split] | intros [?|[_ ?]]; [by left | by right]].
  - destruct (bool_decide (pgv.node_attrs g (pgv.e_from t) !! "fillcolor"
                           = node_style "previous" !! "fillcolor")) eqn:Efill.
    + assert (pgv.e_to t = A).
      { unfold pgv.incident in Hinc.
        apply orb_true_iff in Hinc as [H1|H1]; [congruence|].
        by apply bool_decide_eq_true in H1. }
      destruct (Hkeep (pgv.e_from t)) as (f' & Hf' & Hinv' & He' & Hdom'); [by right|].
      exists f'. split; [done|]. split; [done|]. split; [done|].
      intros m. rewrite Hdom'. cbn [orb].
      split; [intros [?|?]; [by left | by right; split] | intros [?|[_ ?]]; [by left | by right]].
    + exists f. split; [done|]. split; [done|]. split; [by rewrite app_nil_r|].
      intros m. split; [by left | by intros [?|[[=] _]]].
Qed.

Lemma roi_loop (g : pgv.AGraph) (A : string) (l : list pgv.Edge) :
  Forall (λ t, pgv.incident A t = true) l ->
  forall f, roi_inv g A f ->
    exists f',
      for_each (GraphMachine._graph_roi_step g A) l f = inr f' /\ roi_inv g A f'
      /\ pgv.edges f' = (pgv.edges f ++ (strip <$> List.filter (roi_keeps g A) l))%list
      /\ forall m, is_Some (pgv.nodes f' !! m)
                   <-> is_Some (pgv.nodes f !! m)
                       \/ exists t, In t (List.filter (roi_keeps g A) l)
                                    /\ m = roi_new_node A t.
Proof.
  induction 1 as [|t l Ht Hl IH]; intros f Hinv.
  - exists f. split; [done|]. split; [done|]. split; [by rewrite app_nil_r|].
    intros m. split; [by left | by intros [?|(? & [] & _)]].
  - destruct (roi_body g A f t Hinv Ht) as (f1 & Hf1 & Hinv1 & He1 & Hdom1).
    destruct (IH f1 Hinv1) as (f' & Hf' & Hinv' & He' & Hdom').
    exists f'. cbn [for_each]. rewrite Hf1. cbn [bind]. split; [done|]. split; [done|].
    split.
    + rewrite He', He1. cbn [List.filter].
      destruct (roi_keeps g A t); cbn [fmap list_fmap app]; by rewrite <- ?app_assoc.
    + intros m. rewrite Hdom', Hdom1. cbn [List.filter].
      destruct (roi_keeps g A t); cbn [In].
      * split.
        -- intros [[?|[_ ->]]|(t' & Ht' & ->)]; eauto.
        -- intros [?|(t' & [<-|Ht'] & ->)]; eauto.
      * split.
        -- intros [[?|[[=] _]]|?]; eauto.
        -- intros [?|?]; eauto.
Qed.

Lemma roi_edges_In (g : pgv.AGraph) (A : string) (e : pgv.Edge) :
  In e (roi_edges g A) <->
  In e (pgv.edges g) /\ pgv.incident A e = true /\ roi_keeps g A e = true.
Proof. unfold roi_edges. rewrite !filter_In. tauto. Qed.

Lemma roi_ends (A : string) (e : pgv.Edge) (n : string) :
  pgv.incident A e = true ->
  (n = pgv.e_from e \/ n = pgv.e_to e) <-> (n = A \/ n = roi_new_node A e).
Proof.
  unfold pgv.incident, roi_new_node. intros Hinc.
  destruct (bool_decide (pgv.e_from e = A)) eqn:Ef.
  - apply bool_decide_eq_true in Ef. rewrite Ef. tauto.
  - simpl in Hinc. apply bool_decide_eq_true in Hinc. rewrite Hinc. tauto.
Qed.

(** A node that carries the previous role passes the test of the code. *)
Lemma carries_previous_fillcolor (a : Attrs) :
  carries "previous" a -> a !! "fillcolor" = node_style "previous" !! "fillcolor".
Proof. intros H. by apply (lookup_weaken (node_style "previous")). Qed.

(** A region-of-interest request of a model that holds a graph. *)
Lemma roi_request_cached (pgv_imported : bool) (self : Machine) (m : Model)
    (g : pgv.AGraph) (ttl : option string) :
  graph m = Some g ->
  GraphMachine._get_graph pgv_imported self m ttl false true
  = (r <- GraphMachine._graph_roi pgv_imported m (default (title self) ttl) ;; ok (m, r)).
Proof.
  intros Hg. unfold GraphMachine._get_graph. rewrite Hg.
  rewrite bool_decide_eq_true_2 by eauto. cbn [negb orb]. by rewrite bind_ok_l.
Qed.

(** On a graph whose nodes all carry a role, the fill colour of the previous
    role is on the nodes that carry that role and on no others. *)
Lemma fillcolor_previous (g : pgv.AGraph) (n : string) :
  roles_clear g -> is_Some (pgv.nodes g !! n) ->
  pgv.node_attrs g n !! "fillcolor" = node_style "previous" !! "fillcolor"
  <-> carries "previous" (pgv.node_attrs g n).
Proof.
  intros Hroles [a Ha]. unfold pgv.node_attrs. rewrite Ha.
  change (default ∅ (Some a)) with a.
  split; [|apply carries_previous_fillcolor].
  intros Hfill.
  destruct (Hroles n a Ha) as [H|[H|H]]; [| |done].
  - pose proof (lookup_weaken (node_style "active") a "fillcolor" "darksalmon" eq_refl H)
      as Hc. rewrite Hc in Hfill. discriminate.
  - pose proof (lookup_weaken (node_style "default") a "fillcolor" "white" eq_refl H)
      as Hc. rewrite Hc in Hfill. discriminate.
Qed.

(** C6, as the code has it: with the backend importable, for a graph [g]
    held by the model in which the model's current state names a node [A],
    the region-of-interest request returns a new graph [r] and the model
    (with its graph) as it was.  [r] has exactly the edges of [g] at [A] that
    leave [A] or whose source has the fill colour of the previous role, with
    their ends and attributes; its nodes are [A] and the ends of those edges,
    each with every attribute it has in [g]; so [r] is a subgraph of [g] that
    contains [A].  An edge into [A] whose source carries the previous role
    is among the edges shown; and on a graph whose nodes all carry a role,
    the edges shown are exactly the edges at [A] that leave [A] or whose
    source carries the previous role. *)
Theorem roi_is_subgraph (machine : Machine) (model : Model)
    (ttl : option string) (g : pgv.AGraph) :
  graph model = Some g ->
  edges_wf g ->
  is_Some (pgv.nodes g !! state model) ->
  exists r,
    GraphMachine._get_graph true machine model ttl false true = inr (model, r)
    /\ pgv.edges r = strip <$> roi_edges g (state model)
    /\ (forall n, is_Some (pgv.nodes r !! n) <->
          n = state model
          \/ exists e, In e (roi_edges g (state model))
                       /\ (n = pgv.e_from e \/ n = pgv.e_to e))
    /\ (forall n x, pgv.nodes r !! n = Some x ->
          exists a, pgv.nodes g !! n = Some a /\ a ⊆ x /\ x = a ∪ node_style "default")
    /\ (forall e', In e' (pgv.edges r) ->
          exists e, In e (pgv.edges g) /\ pgv.e_from e' = pgv.e_from e
                    /\ pgv.e_to e' = pgv.e_to e /\ pgv.e_attr e' = pgv.e_attr e)
    /\ (exists a x, pgv.nodes g !! state model = Some a
                    /\ pgv.nodes r !! state model = Some x /\ a ⊆ x)
    /\ (forall e, In e (pgv.edges g) -> pgv.e_to e = state model ->
          carries "previous" (pgv.node_attrs g (pgv.e_from e)) ->
          In (strip e) (pgv.edges r))
    /\ (roles_clear g ->
        forall e, In e (roi_edges g (state model)) <->
          In e (pgv.edges g) /\ pgv.incident (state model) e = true
          /\ (pgv.e_from e = state model
              \/ carries "previous" (pgv.node_attrs g (pgv.e_from e)))).
Proof.
  intros Hg Hwf HA. set (A := state model) in *.
  pose (f0 := pgv.add_node
                (pgv.set_node_attr
                   (pgv.new (update AGraph.machine_attributes
                               {[ "label" := default (title machine) ttl;
                                  "compound" := "True" ]}))
                   (update ∅ (node_style "default")))
                A (pgv.node_attrs g A)).
  assert (Hf0 : pgv.nodes f0 = {[ A := pgv.node_attrs g A ∪ node_style "default" ]}).
  { unfold f0, pgv.add_node, update. cbn. by rewrite (right_id_L ∅ (∪)), insert_empty. }
  destruct (roi_loop g A (pgv.edges_iter_at g A)) with (f := f0)
    as (r & Hr & (_ & _ & Hattrs) & Hedges & Hdom).
  { apply Forall_forall. intros e He. unfold pgv.edges_iter_at in He.
    apply list_elem_of_In in He. by apply filter_In in He as [_ ?]. }
  { split; [|split].
    - unfold f0, pgv.add_node, update. cbn. by rewrite (right_id_L ∅ (∪)).
    - rewrite Hf0, lookup_singleton_eq. eauto.
    - intros n x. rewrite Hf0. intros [-> <-]%lookup_singleton_Some. done. }
  assert (Hnode : forall n, is_Some (pgv.nodes r !! n) -> is_Some (pgv.nodes g !! n)).
  { intros n [Hn|(e & He & ->)]%Hdom.
    - rewrite Hf0 in Hn. destruct Hn as [x [-> _]%lookup_singleton_Some]. done.
    - apply roi_edges_In in He as (He & _ & _).
      unfold edges_wf in Hwf. rewrite Forall_forall in Hwf.
      apply list_elem_of_In in He. destruct (Hwf e He) as [Hfrom Hto].
      unfold roi_new_node. by destruct (bool_decide _). }
  assert (Hrun : GraphMachine._graph_roi true model (default (title machine) ttl) = inr r).
  { unfold GraphMachine._graph_roi, GraphMachine.model_graph. rewrite Hg, bind_ok_l.
    cbn [negb]. fold A. unfold pgv.get_node.
    rewrite (proj2 (has_node_true g A) HA), bind_ok_l.
    exact Hr. }
  exists r. split.
  { unfold GraphMachine._get_graph. rewrite Hg.
    rewrite bool_decide_eq_true_2 by eauto. cbn [negb orb]. rewrite bind_ok_l.
    by rewrite Hrun. }
  split. { by rewrite Hedges. }
  split.
  { intros n. rewrite Hdom, Hf0. split.
    - intros [[x [-> _]%lookup_singleton_Some]|(e & He & ->)]; [by left|].
      right. exists e. split; [done|].
      apply roi_edges_In in He as (_ & Hinc & _).
      apply (roi_ends A e); [done | by right].
    - intros [->|(e & He & Hn)]; [left; rewrite lookup_singleton_eq; eauto|].
      pose proof He as (_ & Hinc & _)%roi_edges_In.
      apply (roi_ends A e n Hinc) in Hn as [->| ->].
      + left. rewrite lookup_singleton_eq. eauto.
      + right. eauto. }
  split.
  { intros n x Hx. destruct (Hnode n) as [a Ha]; [eauto|].
    exists a. pose proof (Hattrs n x Hx) as ->. unfold pgv.node_attrs. rewrite Ha. simpl.
    split; [done|]. split; [apply map_union_subseteq_l | done]. }
  split.
  { intros e'. rewrite Hedges. cbn [pgv.edges f0 pgv.add_node pgv.set_nodes]. simpl.
    intros He'. apply list_elem_of_In, list_elem_of_fmap in He' as (e & -> & He).
    apply list_elem_of_In, roi_edges_In in He as (He & _ & _).
    exists e. done. }
  destruct HA as [a Ha]. destruct (proj2 (Hdom A)) as [x Hx].
  { left. rewrite Hf0, lookup_singleton_eq. eauto. }
  split.
  { exists a, x. split; [done|]. split; [done|].
    pose proof (Hattrs A x Hx) as ->. unfold pgv.node_attrs. rewrite Ha. simpl.
    apply map_union_subseteq_l. }
  split.
  { intros e He Hto Hprev. rewrite Hedges. cbn [app].
    apply list_elem_of_In, list_elem_of_fmap_2, list_elem_of_In, roi_edges_In.
    split; [done|]. split.
    - unfold pgv.incident. rewrite (bool_decide_eq_true_2 (pgv.e_to e = A)) by done.
      apply orb_true_r.
    - unfold roi_keeps.
      rewrite (bool_decide_eq_true_2 (_ !! "fillcolor" = _))
        by (by apply carries_previous_fillcolor).
      apply orb_true_r. }
  intros Hroles e. rewrite roi_edges_In.
  split; intros (He & Hinc & Hkeep); (split; [done|]); (split; [done|]).
  - unfold roi_keeps in Hkeep.
    apply orb_true_iff in Hkeep as [Hfrom%bool_decide_eq_true|Hfill%bool_decide_eq_true];
      [by left|]. right.
    apply (fillcolor_previous g (pgv.e_from e) Hroles); [|done].
    unfold edges_wf in Hwf. rewrite Forall_forall in Hwf.
    apply list_elem_of_In in He. by destruct (Hwf e He).
  - unfold roi_keeps. destruct Hkeep as [Hfrom|Hprev].
    + by rewrite (bool_decide_eq_true_2 (pgv.e_from e = A)).
    + rewrite (bool_decide_eq_true_2 (_ !! "fillcolor" = _))
        by (by apply carries_previous_fillcolor).
      apply orb_true_r.
Qed.

(** After [stop] fired on [flat_machine], the region of interest of the
    active node [B]. *)
Lemma roi_is_subgraph_witness :
  exists model g r,
    (m <- draw flat_machine "A" ;; fire flat_machine [(A_to_B, "stop")] m) = inr model
    /\ graph model = Some g
    /\ GraphMachine._get_graph true flat_machine model None false true = inr (model, r)
    /\ pgv.edges r = strip <$> roi_edges g (state model)
    /\ (forall e', In e' (pgv.edges r) ->
          exists e, In e (pgv.edges g) /\ pgv.e_from e' = pgv.e_from e
                    /\ pgv.e_to e' = pgv.e_to e /\ pgv.e_attr e' = pgv.e_attr e).
Proof.
  assert (Hchk : holds_at (m <- draw flat_machine "A" ;;
                           fire flat_machine [(A_to_B, "stop")] m)
                   (λ m g, bool_decide (edges_wf g)
                           && bool_decide (is_Some (pgv.nodes g !! state m))) = true)
    by (vm_compute; reflexivity).
  apply holds_at_inv in Hchk as (model & g & E & Hg & Hchk).
  apply andb_true_iff in Hchk as [Hwf%bool_decide_eq_true HA%bool_decide_eq_true].
  destruct (roi_is_subgraph flat_machine model None g Hg Hwf HA)
    as (r & Hr & He & _ & _ & Hsub & _ & _ & _).
  exists model, g, r. from_context.
Defined.

(** C6 as stated fails, in two ways.  On [tinted_graph] the node [B] has the
    fill colour of the previous role but the colour of the default one, so
    it does not carry the previous role; the edge from [B] to the active
    node [A] is shown all the same.  And on [nested_machine], after [go]
    from [A] into the composite [P], the node [P_1] carries the active role
    while the model's state is [P], which is no node of the graph: the
    request returns no graph but fails with [KeyError]. *)
Lemma roi_is_subgraph_counterexample :
  (exists r e,
     GraphMachine._get_graph true flat_machine tinted_model None false true
     = inr (tinted_model, r)
     /\ In e (pgv.edges r)
     /\ pgv.e_from e = "B" /\ pgv.e_to e = "A"
     /\ ~ carries "previous" (pgv.node_attrs tinted_graph "B"))
  /\ (exists model model' g' a msg,
        drawn_model = inr model
        /\ fire nested_machine [(go_A_P, "go")] model = inr model'
        /\ state model' = "P"
        /\ graph model' = Some g'
        /\ pgv.nodes g' !! "P_1" = Some a /\ carries "active" a
        /\ pgv.nodes g' !! "P" = None
        /\ GraphMachine._get_graph true nested_machine model' None false true
           = inl (KeyError msg)).
Proof.
  split.
  - rewrite (roi_request_cached true flat_machine tinted_model tinted_graph None eq_refl).
    assert (Hchk : match GraphMachine._graph_roi true tinted_model
                           (default (title flat_machine) None) with
                   | inr r =>
                       match pgv.edges r with
                       | [e] => bool_decide (pgv.e_from e = "B")
                                && bool_decide (pgv.e_to e = "A")
                                && bool_decide (pgv.node_attrs tinted_graph "B" !! "color"
                                                = Some "black")
                       | _ => false
                       end
                   | inl _ => false
                   end = true) by (vm_compute; reflexivity).
    destruct (GraphMachine._graph_roi true tinted_model _) as [x|r]; [discriminate|].
    destruct (pgv.edges r) as [|e [|e2 es]] eqn:Er; try discriminate.
    apply andb_true_iff in Hchk as [Hchk Hcol%bool_decide_eq_true].
    apply andb_true_iff in Hchk as [Hfrom%bool_decide_eq_true Hto%bool_decide_eq_true].
    exists r, e. split; [reflexivity|]. split; [rewrite Er; by left|].
    split; [exact Hfrom|]. split; [exact Hto|].
    intros Hc. pose proof (carries_color _ _ "blue" Hc eq_refl) as Hblue. congruence.
  - assert (Hchk : holds_at (bind drawn_model (fire nested_machine [(go_A_P, "go")]))
                     (λ m g, bool_decide (state m = "P")
                             && match pgv.nodes g !! "P_1" with
                                | Some a => bool_decide (node_style "active" ⊆ a)
                                | None => false
                                end
                             && bool_decide (pgv.nodes g !! "P" = None)
                             && match GraphMachine._get_graph true nested_machine m None
                                        false true with
                                | inl (KeyError _) => true
                                | _ => false
                                end) = true)
      by (vm_compute; reflexivity).
    apply holds_at_inv in Hchk as (model' & g' & F & Hg' & Hchk).
    destruct drawn_model as [x|model]; [discriminate|]. cbn [bind] in F.
    apply andb_true_iff in Hchk as [Hchk Hkey].
    apply andb_true_iff in Hchk as [Hchk HP%bool_decide_eq_true].
    apply andb_true_iff in Hchk as [Hst%bool_decide_eq_true Hact].
    destruct (pgv.nodes g' !! "P_1") as [a|] eqn:Ea; [|discriminate].
    apply bool_decide_eq_true in Hact.
    destruct (GraphMachine._get_graph true nested_machine model' None false true)
      as [[msg| | | |]|] eqn:Eroi; try discriminate.
    exists model, model', g', a, msg. split; [reflexivity|].
    repeat (split; [eassumption|]). exact Eroi.
Qed.

(** ** Rebuilding after a structural change *)

Lemma map_result_inv {A B} (f : A -> Result B) (xs : list A) (ys : list B) :
  map_result f xs = inr ys ->
  length ys = length xs
  /\ forall i y, ys !! i = Some y -> exists x, xs !! i = Some x /\ f x = inr y.
Proof.
  revert ys. induction xs as [|x xs IH]; intros ys H; simpl in H.
  - injection H as <-. split; [done|]. intros i y Hy. by rewrite lookup_nil in Hy.
  - bind_inv H as y Hy. bind_inv H as ys' Hys'. injection H as <-.
    destruct (IH ys' Hys') as [Hlen Hall]. split; [simpl; by rewrite Hlen|].
    intros [|i] y'; simpl.
    + intros [= <-]. eauto.
    + apply Hall.
Qed.

Lemma map_result_app {A B} (f : A -> Result B) (xs ys : list A) :
  map_result f (xs ++ ys)%list
  = (a <- map_result f xs ;; b <- map_result f ys ;; ok (a ++ b)%list).
Proof.
  induction xs as [|x xs IH]; simpl.
  - by destruct (map_result f ys).
  - destruct (f x) as [e|y]; simpl; [done|]. rewrite IH.
    destruct (map_result f xs) as [e|a]; simpl; [done|].
    by destruct (map_result f ys).
Qed.

(** The builder reads the definition of the machine, not its models. *)
Lemma get_graph_set_models (pgv_imported : bool) (machine : Machine) (ms : list Model)
    (ttl : string) :
  AGraph.get_graph pgv_imported (set_models machine ms) ttl
  = AGraph.get_graph pgv_imported machine ttl.
Proof. reflexivity. Qed.

Lemma rebuild_inv (pgv_imported : bool) (machine : Machine) (m m' : Model) :
  GraphMachine.rebuild pgv_imported machine m = inr m' ->
  exists g0 g',
    AGraph.get_graph pgv_imported machine (title machine) = inr g0
    /\ GraphMachine.set_node_state g0 (state m) "active" = inr g'
    /\ m' = set_graph m g'.
Proof.
  unfold GraphMachine.rebuild. destruct (hasattr m "get_graph"); [|discriminate].
  intros H. bind_inv H as r Hr. injection H as <-.
  unfold GraphMachine._get_graph in Hr. rewrite orb_true_r in Hr.
  bind_inv Hr as m1 Hm1. bind_inv Hm1 as g0 Hg0. bind_inv Hm1 as g' Hg'.
  injection Hm1 as <-. cbn [set_graph graph GraphMachine.model_graph bind ok] in Hr.
  injection Hr as <-. exists g0, g'. done.
Qed.

Lemma get_graph_cached (pgv_imported : bool) (machine : Machine) (m : Model)
    (g : pgv.AGraph) (ttl : option string) :
  graph m = Some g ->
  GraphMachine._get_graph pgv_imported machine m ttl false false = inr (m, g).
Proof.
  intros Hg. unfold GraphMachine._get_graph, GraphMachine.model_graph. rewrite Hg.
  rewrite bool_decide_eq_true_2 by eauto. cbn [negb orb]. rewrite bind_ok_l.
  by rewrite Hg.
Qed.

(** C7: when [add_states] or [add_transition] completes, every model of the
    machine holds a graph built afresh from the new definition, with the
    active role on the model's current state, and a later graph request
    without [force_new] returns exactly that graph. *)
Theorem structural_change_rebuilds (pgv_imported : bool)
    (super_add : Machine -> Result Machine) (self self' : Machine) :
  GraphMachine.add_states pgv_imported super_add self = inr self'
  \/ GraphMachine.add_transition pgv_imported super_add self = inr self' ->
  exists self1,
    super_add self = inr self1
    /\ states self' = states self1 /\ events self' = events self1
    /\ length (models self') = length (models self1)
    /\ forall i m', models self' !! i = Some m' ->
         exists m g0 g',
           models self1 !! i = Some m
           /\ AGraph.get_graph pgv_imported self' (title self') = inr g0
           /\ GraphMachine.set_node_state g0 (state m) "active" = inr g'
           /\ m' = set_graph m g'
           /\ GraphMachine._get_graph pgv_imported self' m' None false false = inr (m', g').
Proof.
  intros H.
  assert (H' : exists self1 ms,
             super_add self = inr self1
             /\ map_result (GraphMachine.rebuild pgv_imported self1) (models self1) = inr ms
             /\ self' = set_models self1 ms).
  { destruct H as [H|H];
      [unfold GraphMachine.add_states in H | unfold GraphMachine.add_transition in H];
      bind_inv H as self1 Hself1; bind_inv H as ms Hms; injection H as <-;
      by exists self1, ms. }
  destruct H' as (self1 & ms & Hsuper & Hms & ->).
  destruct (map_result_inv _ _ _ Hms) as [Hlen Hall].
  exists self1. do 3 (split; [done|]). split; [done|].
  intros i m' Hi. destruct (Hall i m' Hi) as (m & Hm & Hre).
  destruct (rebuild_inv _ _ _ _ Hre) as (g0 & g' & Hg0 & Hg' & ->).
  exists m, g0, g'. split; [done|]. split; [by rewrite get_graph_set_models|].
  split; [done|]. split; [done|]. by apply get_graph_cached.
Qed.

(** Registering [C] on [flat_with_model]: the model's cached graph is the
    rebuilt one. *)
Lemma structural_change_rebuilds_witness :
  exists self self',
    flat_with_model = inr self
    /\ GraphMachine.add_states true add_state_C self = inr self'
    /\ length (models self') = length (models self)
    /\ forall i m', models self' !! i = Some m' ->
         exists g0 g',
           AGraph.get_graph true self' (title self') = inr g0
           /\ GraphMachine._get_graph true self' m' None false false = inr (m', g').
Proof.
  assert (Hok : is_ok (self <- flat_with_model ;;
                       GraphMachine.add_states true add_state_C self) = true)
    by (vm_compute; reflexivity).
  apply is_ok_inv in Hok as [self' H]. bind_inv H as self Hself.
  destruct (structural_change_rebuilds true add_state_C self self' (or_introl H))
    as (self1 & Hsuper & _ & _ & Hlen & Hall).
  injection Hsuper as <-.
  exists self, self'. split; [done|]. split; [done|]. split; [exact Hlen|].
  intros i m' Hi. destruct (Hall i m' Hi) as (m & g0 & g' & _ & Hg0 & _ & _ & Hget).
  by exists g0, g'.
Defined.

(** ** Binding the accessor at construction *)

(** C9: if some model of the machine under construction already has an
    attribute [get_graph], construction does not return a machine; and when
    the models listed before it were bound without error, the error raised is
    the dedicated one, before anything is bound to that model. *)
Theorem conflicting_accessor_fails (pgv_imported : bool) (base : Machine)
    (before after : list Model) (m : Model) :
  models base = (before ++ m :: after)%list ->
  hasattr m "get_graph" = true ->
  (exists e, GraphMachine.__init__ pgv_imported (ok base) = inl e)
  /\ (is_ok (map_result (GraphMachine.bind_model pgv_imported base) before) = true ->
      GraphMachine.__init__ pgv_imported (ok base)
      = inl (AttributeError
               "Model already has a get_graph attribute. Graph retrieval cannot be bound.")).
Proof.
  intros Hms Hattr. unfold GraphMachine.__init__. rewrite bind_ok_l, Hms, map_result_app.
  assert (Hm : map_result (GraphMachine.bind_model pgv_imported base) (m :: after)
               = inl (AttributeError
                        "Model already has a get_graph attribute. Graph retrieval cannot be bound.")).
  { cbn [map_result]. unfold GraphMachine.bind_model at 1. rewrite Hattr. done. }
  rewrite Hm.
  destruct (map_result (GraphMachine.bind_model pgv_imported base) before) as [e|bs];
    cbn [bind is_ok]; split; eauto; discriminate.
Qed.

(** [flat_machine] given a model that already has [get_graph]. *)
Lemma conflicting_accessor_fails_witness :
  GraphMachine.__init__ true (ok (set_models flat_machine [conflicting_model]))
  = inl (AttributeError
           "Model already has a get_graph attribute. Graph retrieval cannot be bound.").
Proof.
  apply (conflicting_accessor_fails true (set_models flat_machine [conflicting_model])
           [] [] conflicting_model); reflexivity.
Defined.

(** ** The builder: nodes *)

Lemma State_nested_ind (P : State -> Prop)
    (Hplain : forall n sn, P (MkState n sn None))
    (Hnested : forall n sn cs, Forall P cs -> P (MkState n sn (Some cs))) :
  forall s, P s.
Proof.
  fix IH 1. intros [n sn [cs|]]; [apply Hnested | apply Hplain].
  induction cs as [|c cs IHcs]; constructor; [apply IH | exact IHcs].
Qed.

Lemma add_subgraph_edges (g : pgv.AGraph) (path : list string) (n : string) (a : Attrs) :
  pgv.edges (pgv.add_subgraph g path n a) = pgv.edges g.
Proof. by destruct path. Qed.

Lemma add_node_in_edges (g : pgv.AGraph) (path : list string) (n : string) (a : Attrs) :
  pgv.edges (pgv.add_node_in g path n a) = pgv.edges g.
Proof. done. Qed.

Lemma add_nodes_state_edges (s : State) :
  forall container acc,
    pgv.edges (AGraph._add_nodes_state container s acc).2 = pgv.edges acc.2.
Proof.
  induction s as [n sn|n sn cs IH] using State_nested_ind; intros container acc;
    cbn [AGraph._add_nodes_state]; destruct (bool_decide (n ∈ acc.1)); try done.
  assert (Hloop : forall path (a : list string * pgv.AGraph),
            pgv.edges (fold_left (λ a c, AGraph._add_nodes_state path c a) cs a).2
            = pgv.edges a.2).
  { intros path. induction IH as [|c cs Hc _ IHcs]; intros a; [done|].
    cbn [fold_left]. rewrite IHcs. apply Hc. }
  destruct cs as [|c cs]; [done|]. rewrite Hloop. apply add_subgraph_edges.
Qed.

Lemma add_nodes_edges (sts : list State) (container : list string)
    (acc : list string * pgv.AGraph) :
  pgv.edges (AGraph._add_nodes sts container acc).2 = pgv.edges acc.2.
Proof.
  unfold AGraph._add_nodes. revert acc. induction sts as [|s sts IH]; intros acc; [done|].
  simpl. rewrite IH. apply add_nodes_state_edges.
Qed.

(** ** The builder: edges *)

Lemma for_each_collect {A B S} (body : S -> A -> Result S) (r : A -> Result (list B))
    (h : S -> B -> S) :
  (forall s x, body s x = (bs <- r x ;; ok (foldl h s bs))) ->
  forall xs s,
    for_each body xs s = (bss <- map_result r xs ;; ok (foldl h s (concat bss))).
Proof.
  intros Hbody. induction xs as [|x xs IH]; intros s; [done|].
  cbn [for_each map_result]. rewrite Hbody.
  destruct (r x) as [e|bs]; [done|]. cbn [bind ok]. rewrite IH.
  destruct (map_result r xs) as [e|bss]; [done|]. cbn [bind ok concat].
  by rewrite foldl_app.
Qed.

Lemma add_edge_place (machine : Machine) (label key ltail : string) (src : State)
    (container : pgv.AGraph) (t : Transition) :
  AGraph._add_edge machine label key ltail src container t
  = (ds <- draw_transition machine label key ltail src t ;; ok (foldl place container ds)).
Proof.
  unfold AGraph._add_edge, draw_transition.
  destruct (get_state machine (dest t)) as [e|dst0]; [done|]. cbn [bind].
  destruct (AGraph.descend name dst0) as [e|r]; [done|]. cbn [bind].
  destruct (bool_decide (name r.2 = name src) && negb (bool_decide (key = dest t)));
    [done|].
  cbn [bind ok foldl]. unfold place. cbn [d_from d_to d_label d_ltail d_lhead].
  destruct (pgv.has_edge container (name src) (name r.2)) eqn:Ehas; [|done].
  unfold pgv.has_edge in Ehas.
  apply andb_true_iff in Ehas as [Ehas Hfind%bool_decide_eq_true].
  apply andb_true_iff in Ehas as [Hu Hv].
  unfold pgv.get_edge, pgv.get_node. rewrite Hu, Hv. cbn [bind ok].
  destruct Hfind as [i Hi]. by rewrite Hi.
Qed.

Lemma add_edges_from_place (machine : Machine) (label : string) (container : pgv.AGraph)
    (tr : string * list Transition) :
  AGraph._add_edges_from machine label container tr
  = (ds <- draw_from machine label tr ;; ok (foldl place container ds)).
Proof.
  unfold AGraph._add_edges_from, draw_from.
  destruct (get_state machine tr.1) as [e|src0]; [done|]. cbn [bind].
  destruct (AGraph.descend _name src0) as [e|r]; [done|]. cbn [bind].
  rewrite (for_each_collect _ (draw_transition machine label tr.1 r.1 r.2) place)
    by (intros; apply add_edge_place).
  by destruct (map_result _ tr.2).
Qed.

Lemma add_edges_event_place (machine : Machine) (container : pgv.AGraph) (event : Event) :
  AGraph._add_edges_event machine container event
  = (ds <- draw_event machine event ;; ok (foldl place container ds)).
Proof.
  unfold AGraph._add_edges_event, draw_event. fold (hidden machine event).
  destruct (hidden machine event); [done|].
  rewrite (for_each_collect _ (draw_from machine (ev_name event)) place)
    by (intros; apply add_edges_from_place).
  by destruct (map_result _ (transitions event)).
Qed.

Lemma add_edges_place (machine : Machine) (container : pgv.AGraph) :
  AGraph._add_edges machine (events machine) container
  = (ds <- drawn machine ;; ok (foldl place container ds)).
Proof.
  unfold AGraph._add_edges, drawn.
  rewrite (for_each_collect _ (draw_event machine) place)
    by (intros; apply add_edges_event_place).
  by destruct (map_result _ _).
Qed.

Lemma append_assoc (s1 s2 s3 : string) : (s1 +:+ s2) +:+ s3 = s1 +:+ s2 +:+ s3.
Proof.
  induction s1 as [|c s1 IH]; [done|].
  change (String c ((s1 +:+ s2) +:+ s3) = String c (s1 +:+ s2 +:+ s3)). by f_equal.
Qed.

Lemma concat_snoc (sep : string) (ls : list string) (x : string) :
  ls ≠ [] -> String.concat sep (ls ++ [x]) = String.concat sep ls +:+ sep +:+ x.
Proof.
  induction ls as [|l ls IH]; [done|]. intros _.
  destruct ls as [|l' ls]; [done|].
  change (String.concat sep ((l :: l' :: ls) ++ [x]))
    with (l +:+ sep +:+ String.concat sep ((l' :: ls) ++ [x])).
  rewrite IH by done.
  change (String.concat sep (l :: l' :: ls))
    with (l +:+ sep +:+ String.concat sep (l' :: ls)).
  by rewrite !append_assoc.
Qed.

Lemma labels_for_snoc (p : string * string) (ds : list Drawn) (d : Drawn) :
  labels_for p (ds ++ [d])
  = (labels_for p ds ++ (if bool_decide (d_ends d = p) then [d_label d] else []))%list.
Proof.
  unfold labels_for. rewrite List.filter_app, fmap_app. cbn [List.filter].
  by destruct (bool_decide (d_ends d = p)).
Qed.

Lemma labels_for_nonempty (p : string * string) (ds : list Drawn) :
  labels_for p ds ≠ [] -> exists d, d ∈ ds /\ d_ends d = p.
Proof.
  unfold labels_for. induction ds as [|d ds IH]; [done|]. cbn [List.filter].
  destruct (bool_decide (d_ends d = p)) eqn:E.
  - intros _. exists d. split; [left | by apply bool_decide_eq_true in E].
  - intros (d' & Hd' & Hp)%IH. exists d'. split; [by right | done].
Qed.

Lemma find_edge_None (es : list pgv.Edge) (u v : string) :
  pgv.find_edge es u v = None <-> (u, v) ∉ ends <$> es.
Proof.
  induction es as [|e es IH]; simpl.
  - split; [intros _; apply not_elem_of_nil | done].
  - unfold pgv.joins. rewrite not_elem_of_cons.
    destruct (bool_decide (pgv.e_from e = u)) eqn:E1;
      destruct (bool_decide (pgv.e_to e = v)) eqn:E2; cbn [andb].
    + apply bool_decide_eq_true in E1, E2. split; [discriminate|].
      intros [Hne _]. destruct Hne. unfold ends. by rewrite E1, E2.
    + apply bool_decide_eq_false in E2. rewrite fmap_None, IH.
      split; [intros ?; split; [|done] | tauto]. unfold ends. congruence.
    + apply bool_decide_eq_false in E1. rewrite fmap_None, IH.
      split; [intros ?; split; [|done] | tauto]. unfold ends. congruence.
    + apply bool_decide_eq_false in E1. rewrite fmap_None, IH.
      split; [intros ?; split; [|done] | tauto]. unfold ends. congruence.
Qed.

Lemma edges_wf_ends (g : pgv.AGraph) :
  edges_wf g <->
  forall p, p ∈ ends <$> pgv.edges g ->
    is_Some (pgv.nodes g !! p.1) /\ is_Some (pgv.nodes g !! p.2).
Proof.
  unfold edges_wf. rewrite Forall_forall. split.
  - intros H p (e & -> & He)%list_elem_of_fmap. by apply H.
  - intros H e He. apply (H (ends e)). by apply list_elem_of_fmap_2.
Qed.

Lemma has_edge_wf (g : pgv.AGraph) (u v : string) :
  edges_wf g ->
  pgv.has_edge g u v = true <-> (u, v) ∈ ends <$> pgv.edges g.
Proof.
  intros Hwf. unfold pgv.has_edge. split.
  - intros [_ Hfind%bool_decide_eq_true]%andb_true_iff.
    destruct (decide ((u, v) ∈ ends <$> pgv.edges g)) as [|Hn]; [done|].
    apply find_edge_None in Hn. rewrite Hn in Hfind. by destruct Hfind.
  - intros Hin. destruct (proj1 (edges_wf_ends g) Hwf _ Hin) as [Hu Hv].
    unfold pgv.has_node. rewrite !bool_decide_eq_true_2; try done.
    destruct (pgv.find_edge (pgv.edges g) u v) eqn:E; [eauto|].
    by apply find_edge_None in E.
Qed.

Lemma reflects_nil (g : pgv.AGraph) : pgv.edges g = [] -> reflects g [].
Proof.
  intros He. unfold reflects, edges_wf. rewrite He. split; [constructor|].
  split; [constructor|]. split; [intros e He'; by apply elem_of_nil in He'|].
  intros d Hd. by apply elem_of_nil in Hd.
Qed.

Lemma append_label_ends (l : string) (e : pgv.Edge) : ends (AGraph.append_label l e) = ends e.
Proof. done. Qed.

Lemma ends_alter (l : string) (i : nat) (es : list pgv.Edge) :
  ends <$> alter (AGraph.append_label l) i es = ends <$> es.
Proof.
  apply list_eq. intros j. rewrite !list_lookup_fmap.
  destruct (decide (i = j)) as [->|Hne].
  - rewrite list_lookup_alter_eq. by destruct (es !! j).
  - by rewrite list_lookup_alter_ne.
Qed.

Lemma reflects_merge (g : pgv.AGraph) (ds : list Drawn) (d : Drawn) (i : nat) :
  reflects g ds ->
  pgv.find_edge (pgv.edges g) (d_from d) (d_to d) = Some i ->
  reflects (pgv.set_edges g (alter (AGraph.append_label (d_label d)) i (pgv.edges g)))
           (ds ++ [d]).
Proof.
  intros (Hwf & Hnd & Hlab & Hall) Hfind.
  destruct (find_edge_Some _ _ _ _ Hfind) as (e0 & He0 & Hfrom & Hto).
  assert (Hends0 : ends e0 = d_ends d) by (unfold ends, d_ends; congruence).
  unfold reflects. cbn [pgv.edges pgv.set_edges]. rewrite ends_alter.
  split. { apply edges_wf_ends. cbn [pgv.edges pgv.set_edges pgv.nodes].
           rewrite ends_alter. by apply edges_wf_ends. }
  split; [done|]. split.
  - intros e' (j & Hj)%list_elem_of_lookup. rewrite labels_for_snoc.
    destruct (decide (i = j)) as [<-|Hne].
    + rewrite list_lookup_alter_eq, He0 in Hj. injection Hj as <-.
      rewrite append_label_ends, Hends0. rewrite bool_decide_eq_true_2 by done.
      split; [by destruct (labels_for (d_ends d) ds)|].
      destruct (Hlab e0) as [Hne Hl]; [by eapply list_elem_of_lookup_2|].
      rewrite Hends0 in Hne, Hl. cbn [AGraph.append_label pgv.e_attr].
      rewrite lookup_insert_eq, Hl. cbn [default]. by rewrite concat_snoc.
    + rewrite list_lookup_alter_ne in Hj by done.
      assert (ends e' ≠ d_ends d).
      { intros Heq. apply Hne.
        apply (NoDup_lookup _ i j (ends e0) Hnd); rewrite list_lookup_fmap.
        - by rewrite He0.
        - rewrite Hj. simpl. congruence. }
      rewrite bool_decide_eq_false_2 by done. rewrite app_nil_r.
      apply Hlab. by eapply list_elem_of_lookup_2.
  - intros d' [Hd'|Hd']%elem_of_app; [by apply Hall|].
    apply list_elem_of_singleton in Hd' as ->.
    rewrite <- Hends0. apply list_elem_of_fmap_2. by eapply list_elem_of_lookup_2.
Qed.

Lemma reflects_new (g : pgv.AGraph) (ds : list Drawn) (d : Drawn) :
  reflects g ds ->
  d_ends d ∉ ends <$> pgv.edges g ->
  reflects (pgv.add_edge g (d_from d) (d_to d) None
              {[ "label" := d_label d; "ltail" := d_ltail d; "lhead" := d_lhead d ]})
           (ds ++ [d]).
Proof.
  intros (Hwf & Hnd & Hlab & Hall) Hfresh.
  set (a := ({[ "label" := d_label d; "ltail" := d_ltail d; "lhead" := d_lhead d ]} : Attrs)).
  set (g' := pgv.add_edge g (d_from d) (d_to d) None a).
  set (new := {| pgv.e_from := d_from d; pgv.e_to := d_to d; pgv.e_key := None;
                 pgv.e_attr := a |}).
  assert (Hes : pgv.edges g' = (pgv.edges g ++ [new])%list).
  { unfold g', pgv.add_edge. cbn [pgv.edges pgv.set_edges].
    assert (Hadd : forall h n, pgv.edges (pgv.add_node h n ∅) = pgv.edges h) by done.
    destruct (pgv.has_node g (d_from d)); destruct (pgv.has_node _ (d_to d));
      by rewrite ?Hadd. }
  assert (Hkeep : forall n, is_Some (pgv.nodes g !! n) -> is_Some (pgv.nodes g' !! n)).
  { intros n [x Hx]. unfold g'. rewrite add_edge_nodes, Hx. eauto. }
  assert (Hlabs : labels_for (d_ends d) ds = []).
  { destruct (labels_for (d_ends d) ds) eqn:E; [done|].
    destruct (labels_for_nonempty (d_ends d) ds) as (d0 & Hd0 & Heq); [by rewrite E|].
    destruct Hfresh. rewrite <- Heq. by apply Hall. }
  unfold reflects. rewrite Hes, fmap_app. cbn [fmap list_fmap].
  change (ends new) with (d_ends d).
  split.
  { apply edges_wf_ends. rewrite Hes, fmap_app.
    intros p [Hp|Hp]%elem_of_app.
    - destruct (proj1 (edges_wf_ends g) Hwf p Hp). split; by apply Hkeep.
    - apply list_elem_of_singleton in Hp as ->. unfold g'. cbn [fst snd d_ends ends new pgv.e_from pgv.e_to].
      rewrite !add_edge_nodes.
      split.
      + destruct (pgv.nodes g !! d_from d); [eauto|]. rewrite decide_True by tauto. eauto.
      + destruct (pgv.nodes g !! d_to d); [eauto|]. rewrite decide_True by tauto. eauto. }
  split.
  { apply NoDup_app. split; [done|]. split; [|apply NoDup_singleton].
    intros p Hp Hp'. apply list_elem_of_singleton in Hp' as ->. done. }
  split.
  - intros e' [He'|He']%elem_of_app; rewrite labels_for_snoc.
    + assert (ends e' ≠ d_ends d).
      { intros Heq. apply Hfresh. rewrite <- Heq. by apply list_elem_of_fmap_2. }
      rewrite bool_decide_eq_false_2 by done. rewrite app_nil_r. by apply Hlab.
    + apply list_elem_of_singleton in He' as ->.
      change (ends new) with (d_ends d). rewrite Hlabs.
      rewrite bool_decide_eq_true_2 by done. split; [done|].
      cbn [app String.concat new pgv.e_attr]. unfold a. by rewrite lookup_insert_eq.
  - intros d' [Hd'|Hd']%elem_of_app; apply elem_of_app.
    + left. by apply Hall.
    + right. apply list_elem_of_singleton in Hd' as ->. by apply list_elem_of_singleton.
Qed.

Lemma reflects_place (g : pgv.AGraph) (ds : list Drawn) (d : Drawn) :
  reflects g ds -> reflects (place g d) (ds ++ [d]).
Proof.
  intros Hr. pose proof Hr as (Hwf & _). unfold place.
  destruct (pgv.has_edge g (d_from d) (d_to d)) eqn:E.
  - apply has_edge_wf in E; [|done].
    destruct (pgv.find_edge (pgv.edges g) (d_from d) (d_to d)) as [i|] eqn:Ef.
    + by apply reflects_merge.
    + by apply find_edge_None in Ef.
  - apply reflects_new; [done|]. intros Hin. apply (has_edge_wf g) in Hin; [|done].
    congruence.
Qed.

Lemma reflects_foldl (ds : list Drawn) :
  forall g ds0, reflects g ds0 -> reflects (foldl place g ds) (ds0 ++ ds).
Proof.
  induction ds as [|d ds IH]; intros g ds0 Hr.
  - by rewrite app_nil_r.
  - cbn [foldl]. replace (ds0 ++ d :: ds)%list with ((ds0 ++ [d]) ++ ds)%list
      by (by rewrite <- app_assoc).
    by apply IH, reflects_place.
Qed.

Lemma get_graph_reflects (pgv_imported : bool) (machine : Machine) (ttl : string)
    (g : pgv.AGraph) :
  AGraph.get_graph pgv_imported machine ttl = inr g ->
  exists ds, drawn machine = inr ds /\ reflects g ds.
Proof.
  unfold AGraph.get_graph. destruct (negb pgv_imported); [discriminate|].
  intros H. bind_inv H as g1 Hg1. injection H as <-.
  rewrite add_edges_place in Hg1. bind_inv Hg1 as ds Hds. injection Hg1 as <-.
  exists ds. split; [done|].
  apply (reflects_foldl ds _ []), reflects_nil. by rewrite add_nodes_edges.
Qed.

Lemma reflects_ends (g : pgv.AGraph) (ds : list Drawn) (p : string * string) :
  reflects g ds -> p ∈ ends <$> pgv.edges g <-> p ∈ d_ends <$> ds.
Proof.
  intros (_ & _ & Hlab & Hall). split.
  - intros (e & -> & He)%list_elem_of_fmap.
    destruct (Hlab e He) as [Hne _].
    destruct (labels_for_nonempty _ _ Hne) as (d & Hd & <-). by apply list_elem_of_fmap_2.
  - intros (d & -> & Hd)%list_elem_of_fmap. by apply Hall.
Qed.

Lemma labels_for_app (p : string * string) (l1 l2 : list Drawn) :
  labels_for p (l1 ++ l2) = (labels_for p l1 ++ labels_for p l2)%list.
Proof. unfold labels_for. by rewrite List.filter_app, fmap_app. Qed.

Lemma labels_for_cons (p : string * string) (d : Drawn) (l : list Drawn) :
  labels_for p (d :: l)
  = ((if bool_decide (d_ends d = p) then [d_label d] else []) ++ labels_for p l)%list.
Proof. unfold labels_for. cbn [List.filter]. by destruct (bool_decide _). Qed.

Lemma labels_for_none (p : string * string) (ds : list Drawn) :
  Forall (λ d, d_ends d ≠ p) ds -> labels_for p ds = [].
Proof.
  unfold labels_for. induction 1 as [|d ds Hd _ IH]; [done|].
  cbn [List.filter]. by rewrite bool_decide_eq_false_2.
Qed.

(** C4, as the code has it: the built graph has no two edges between the
    same ends; it has an edge between two leaves exactly when some drawn
    transition (one that is neither part of a hidden blanket event nor a
    parent-to-first-child transition) resolves to them; every edge is labelled
    with the labels of the drawn transitions between its ends, in definition
    order, joined by [" | "].  In particular two drawn transitions that alone
    share their ends give exactly one edge, labelled with both labels. *)
Theorem merged_edges (pgv_imported : bool) (machine : Machine) (ttl : string)
    (g : pgv.AGraph) :
  AGraph.get_graph pgv_imported machine ttl = inr g ->
  exists ds,
    drawn machine = inr ds
    /\ NoDup (ends <$> pgv.edges g)
    /\ (forall p, p ∈ ends <$> pgv.edges g <-> p ∈ d_ends <$> ds)
    /\ (forall e, e ∈ pgv.edges g ->
          pgv.e_attr e !! "label" = Some (String.concat " | " (labels_for (ends e) ds)))
    /\ (forall d1 d2 front middle back,
          ds = (front ++ d1 :: middle ++ d2 :: back)%list ->
          d_ends d1 = d_ends d2 ->
          Forall (λ d, d_ends d ≠ d_ends d1) (front ++ middle ++ back) ->
          exists e,
            e ∈ pgv.edges g /\ ends e = d_ends d1
            /\ pgv.e_attr e !! "label" = Some (d_label d1 +:+ " | " +:+ d_label d2)
            /\ forall e', e' ∈ pgv.edges g -> ends e' = d_ends d1 -> e' = e).
Proof.
  intros H. destruct (get_graph_reflects _ _ _ _ H) as (ds & Hds & Hr).
  pose proof Hr as (_ & Hnd & Hlab & Hall).
  exists ds. split; [done|]. split; [done|].
  split; [intros p; by apply reflects_ends|].
  split; [intros e He; by apply Hlab|].
  intros d1 d2 front middle back -> Heq Hothers.
  rewrite !Forall_app in Hothers. destruct Hothers as (Hb & Hbt & Ha).
  assert (Hin : d_ends d1 ∈ ends <$> pgv.edges g).
  { apply (reflects_ends g _ (d_ends d1) Hr).
    apply list_elem_of_fmap_2. apply elem_of_app. right. left. }
  apply list_elem_of_fmap in Hin as (e & He1 & He).
  exists e. split; [done|]. split; [done|]. split.
  - destruct (Hlab e He) as [_ ->]. rewrite <- He1.
    rewrite labels_for_app, labels_for_cons, labels_for_app, labels_for_cons.
    rewrite (bool_decide_eq_true_2 (d_ends d1 = d_ends d1)) by done.
    rewrite (bool_decide_eq_true_2 (d_ends d2 = d_ends d1)) by done.
    by rewrite !labels_for_none.
  - intros e' (j & Hj)%list_elem_of_lookup He'.
    apply list_elem_of_lookup in He as (i & Hi).
    assert (i = j) as ->.
    { apply (NoDup_lookup _ i j (d_ends d1) Hnd); rewrite list_lookup_fmap.
      - rewrite Hi. simpl. congruence.
      - rewrite Hj. simpl. congruence. }
    congruence.
Qed.

(** On [flat_machine] the events [go] and [stop] both run from [A] to [B]:
    one edge, labelled with both names. *)
Lemma merged_edges_witness :
  exists g e,
    AGraph.get_graph true flat_machine "" = inr g
    /\ e ∈ pgv.edges g /\ ends e = ("A", "B")
    /\ pgv.e_attr e !! "label" = Some "go | stop"
    /\ forall e', e' ∈ pgv.edges g -> ends e' = ("A", "B") -> e' = e.
Proof.
  assert (Hok : is_ok (AGraph.get_graph true flat_machine "") = true)
    by (vm_compute; reflexivity).
  apply is_ok_inv in Hok as [g Hg].
  destruct (merged_edges true flat_machine "" g Hg) as (ds & Hds & _ & _ & _ & Hpair).
  vm_compute in Hds. injection Hds as <-.
  destruct (Hpair {| d_from := "A"; d_to := "B"; d_label := "go";
                     d_ltail := ""; d_lhead := "" |}
                  {| d_from := "A"; d_to := "B"; d_label := "stop";
                     d_ltail := ""; d_lhead := "" |} [] [] [])
    as (e & He & Hends & Hlabel & Huniq); [reflexivity | reflexivity | constructor |].
  exists g, e. repeat (split; [eassumption|]). exact Huniq.
Defined.

(** C4 as stated fails: on [loop_machine] both transitions of [go] resolve
    to the ends [(P_1, P_1)] (the source [P] descends to its first leaf), but
    the one from [P] is left out as a parent-to-first-child edge: the single
    edge of the built graph is labelled ["go"], not ["go | go"]. *)
Lemma merged_edges_counterexample :
  exists sP leaf g e,
    get_state loop_machine "P" = inr sP
    /\ first_leaf sP = inr leaf /\ name leaf = "P_1"
    /\ AGraph.get_graph true loop_machine "" = inr g
    /\ pgv.edges g = [e]
    /\ ends e = ("P_1", "P_1")
    /\ pgv.e_attr e !! "label" = Some "go".
Proof.
  assert (Hchk : match AGraph.get_graph true loop_machine "" with
                 | inr g =>
                     match pgv.edges g with
                     | [e] => bool_decide (ends e = ("P_1", "P_1"))
                              && bool_decide (pgv.e_attr e !! "label" = Some "go")
                     | _ => false
                     end
                 | inl _ => false
                 end = true) by (vm_compute; reflexivity).
  destruct (AGraph.get_graph true loop_machine "") as [x|g]; [discriminate|].
  destruct (pgv.edges g) as [|e [|e' es]] eqn:Ees; try discriminate.
  apply andb_true_iff in Hchk as [He%bool_decide_eq_true Hl%bool_decide_eq_true].
  exists (MkState "P" "P" (Some [MkState "P_1" "1" (Some [])])),
         (MkState "P_1" "1" (Some [])), g, e.
  repeat (split; [reflexivity || eassumption|]). exact Hl.
Qed.

(** ** Blanket events *)

Lemma concat_length_le {A B} (f : A -> Result (list B)) (w : A -> nat) (xs : list A) :
  (forall x ys, f x = inr ys -> length ys <= w x) ->
  forall yss, map_result f xs = inr yss -> length (concat yss) <= sum_list (w <$> xs).
Proof.
  intros Hw. induction xs as [|x xs IH]; intros yss H; simpl in H.
  - by injection H as <-.
  - bind_inv H as ys Hys. bind_inv H as yss' Hyss'. injection H as <-.
    cbn [concat fmap list_fmap sum_list sum_list_with]. rewrite length_app.
    pose proof (Hw _ _ Hys). pose proof (IH _ Hyss'). simpl in *. lia.
Qed.

Lemma draw_transition_length (machine : Machine) (label key ltail : string) (src : State)
    (t : Transition) (ds : list Drawn) :
  draw_transition machine label key ltail src t = inr ds -> length ds <= 1.
Proof.
  unfold draw_transition. intros H. bind_inv H as dst0 Hdst0. bind_inv H as r Hr.
  destruct (_ && _); injection H as <-; simpl; lia.
Qed.

Lemma draw_from_length (machine : Machine) (label : string)
    (tr : string * list Transition) (ds : list Drawn) :
  draw_from machine label tr = inr ds -> length ds <= length tr.2.
Proof.
  unfold draw_from. intros H. bind_inv H as src0 Hsrc0. bind_inv H as r Hr.
  bind_inv H as dss Hdss. injection H as <-.
  pose proof (concat_length_le _ (λ _, 1) tr.2
                (λ t ds, draw_transition_length machine label tr.1 r.1 r.2 t ds) dss Hdss)
    as Hle.
  assert (Hsum : forall l : list Transition, sum_list ((λ _, 1) <$> l) = length l).
  { induction l as [|? l IHl]; [done|].
    change (S (sum_list ((λ _, 1) <$> l)) = S (length l)). by rewrite IHl. }
  by rewrite Hsum in Hle.
Qed.

Lemma draw_event_length (machine : Machine) (event : Event) (ds : list Drawn) :
  draw_event machine event = inr ds ->
  length ds <= length (concat (transitions event).*2).
Proof.
  unfold draw_event. destruct (hidden machine event).
  - intros [= <-]. simpl. lia.
  - intros H. bind_inv H as dss Hdss. injection H as <-.
    pose proof (concat_length_le _ (λ tr, length tr.2) (transitions event)
                  (draw_from_length machine (ev_name event)) dss Hdss) as Hle.
    assert (Hsum : forall l : list (string * list Transition),
               sum_list ((λ tr, length tr.2) <$> l) = length (concat l.*2)).
    { induction l as [|tr l IHl]; [done|].
      change (length tr.2 + sum_list ((λ tr, length tr.2) <$> l)
              = length (tr.2 ++ concat l.*2)).
      by rewrite length_app, IHl. }
    by rewrite Hsum in Hle.
Qed.

(** C5, as the code has it: for a machine whose only event has a name that
    starts with ["to_"] and as many sources as the machine has states, the
    built graph has no edge when auto-transition display is off.  When it is
    on, the graph has one edge for each distinct pair of resolved ends among
    the drawn transitions of the event (those that are not
    parent-to-first-child): never more edges than drawn transitions, and as
    many exactly when no two of them resolve to the same ends. *)
Theorem blanket_event_edges (pgv_imported : bool) (machine : Machine) (k : string)
    (ev : Event) (ttl : string) (g : pgv.AGraph) :
  events machine = [(k, ev)] ->
  String.prefix "to_" (ev_name ev) = true ->
  length (transitions ev) = length (states machine) ->
  AGraph.get_graph pgv_imported machine ttl = inr g ->
  if show_auto_transitions machine then
    exists ds,
      drawn machine = inr ds
      /\ length ds <= length (concat (transitions ev).*2)
      /\ NoDup (ends <$> pgv.edges g)
      /\ (forall p, p ∈ ends <$> pgv.edges g <-> p ∈ d_ends <$> ds)
      /\ length (pgv.edges g) <= length ds
      /\ (NoDup (d_ends <$> ds) -> length (pgv.edges g) = length ds)
  else pgv.edges g = [].
Proof.
  intros Hev Hpre Hlen H.
  destruct (get_graph_reflects _ _ _ _ H) as (ds & Hds & Hr).
  assert (Hdraw : draw_event machine ev = inr ds).
  { unfold drawn in Hds. rewrite Hev in Hds. cbn [fmap list_fmap snd map_result] in Hds.
    destruct (draw_event machine ev) as [e|ds']; [discriminate|].
    cbn [bind ok concat] in Hds. rewrite app_nil_r in Hds. done. }
  destruct (show_auto_transitions machine) eqn:Eshow.
  - pose proof Hr as (_ & Hnd & _ & _).
    assert (Hin : forall p, p ∈ ends <$> pgv.edges g <-> p ∈ d_ends <$> ds)
      by (intros p; by apply reflects_ends).
    exists ds. split; [done|]. split; [by apply (draw_event_length machine)|].
    split; [done|]. split; [done|]. split.
    + rewrite <- (length_fmap ends (pgv.edges g)), <- (length_fmap d_ends ds).
      apply submseteq_length, NoDup_submseteq; [done|]. intros p. apply Hin.
    + intros Hnd'.
      rewrite <- (length_fmap ends (pgv.edges g)), <- (length_fmap d_ends ds).
      apply Permutation_length, NoDup_Permutation; done.
  - unfold draw_event, hidden in Hdraw. rewrite Eshow, Hpre, Hlen, Nat.eqb_refl in Hdraw.
    cbn [negb andb] in Hdraw. injection Hdraw as <-.
    destruct Hr as (_ & _ & Hlab & _).
    destruct (pgv.edges g) as [|e es]; [done|].
    destruct (Hlab e) as [Hne _]; [left|]. done.
Qed.

(** [blanket_machine] with the blanket event hidden: no edge at all. *)
Lemma blanket_event_edges_witness :
  exists g, AGraph.get_graph true (blanket_machine false) "" = inr g /\ pgv.edges g = [].
Proof.
  assert (Hok : is_ok (AGraph.get_graph true (blanket_machine false) "") = true)
    by (vm_compute; reflexivity).
  apply is_ok_inv in Hok as [g Hg]. exists g. split; [exact Hg|].
  exact (blanket_event_edges true (blanket_machine false) "to_A" blanket_event "" g
           eq_refl eq_refl eq_refl Hg).
Defined.

(** C5 as stated fails: [blanket_machine] has three states and [to_A] has
    three transitions, none of them parent-to-first-child (all three are
    drawn); with the event shown the graph has two edges, not three, because
    [P] and its first leaf [P_1] resolve to the same ends. *)
Lemma blanket_event_edges_counterexample :
  exists g ds,
    AGraph.get_graph true (blanket_machine true) "" = inr g
    /\ drawn (blanket_machine true) = inr ds
    /\ length (states (blanket_machine true)) = 3
    /\ length (concat (transitions blanket_event).*2) = 3
    /\ length ds = 3
    /\ length (pgv.edges g) = 2.
Proof.
  assert (Hchk : match AGraph.get_graph true (blanket_machine true) "",
                       drawn (blanket_machine true) with
                 | inr g, inr ds => Nat.eqb (length ds) 3 && Nat.eqb (length (pgv.edges g)) 2
                 | _, _ => false
                 end = true) by (vm_compute; reflexivity).
  destruct (AGraph.get_graph true (blanket_machine true) "") as [x|g]; [discriminate|].
  destruct (drawn (blanket_machine true)) as [x|ds]; [discriminate|].
  apply andb_true_iff in Hchk as [H1%Nat.eqb_eq H2%Nat.eqb_eq].
  exists g, ds. repeat (split; [reflexivity || eassumption|]). exact H2.
Qed.

(** * Further properties of the code *)

(** ** Requests for a graph *)

Lemma get_graph_no_backend (self : Machine) (model : Model) (ttl : option string)
    (force_new show_roi : bool) :
  graph model = None \/ force_new = true ->
  GraphMachine._get_graph false self model ttl force_new show_roi
  = inl (Exception "AGraph diagram requires pygraphviz").
Proof.
  intros H. unfold GraphMachine._get_graph.
  assert (negb (bool_decide (is_Some (graph model))) || force_new = true) as ->.
  { destruct H as [H| ->]; [|apply orb_true_r].
    rewrite H. rewrite bool_decide_eq_false_2; [done|]. by intros [? [=]]. }
  done.
Qed.

(** X1: without the rendering backend nothing can be drawn.  A model that
    holds no graph cannot get one, whatever the request, and a machine whose
    first model is such a model cannot be constructed: both fail with the
    exception of the builder. *)
Theorem backend_required (base : Machine) (m : Model) (rest : list Model) :
  models base = m :: rest ->
  hasattr m "get_graph" = false ->
  graph m = None ->
  GraphMachine.__init__ false (ok base)
  = inl (Exception "AGraph diagram requires pygraphviz")
  /\ forall ttl force_new show_roi,
       GraphMachine._get_graph false base m ttl force_new show_roi
       = inl (Exception "AGraph diagram requires pygraphviz").
Proof.
  intros Hms Hattr Hg. split.
  - unfold GraphMachine.__init__. rewrite bind_ok_l, Hms. cbn [map_result].
    unfold GraphMachine.bind_model at 1. rewrite Hattr.
    rewrite get_graph_no_backend; [done|]. by left.
  - intros ttl force_new show_roi. apply get_graph_no_backend. by left.
Qed.

Lemma backend_required_witness :
  GraphMachine.__init__ false (ok (set_models flat_machine [fresh_model]))
  = inl (Exception "AGraph diagram requires pygraphviz").
Proof.
  apply (backend_required (set_models flat_machine [fresh_model]) fresh_model []);
    reflexivity.
Defined.

(** X2: a model that holds a graph gets that very graph back from a request
    without [force_new], with the model as it was, whatever title is passed
    and whether or not the backend can be imported; a request with
    [force_new] behaves as the first request of a model that never had a
    graph. *)
Theorem graph_request_cached (self : Machine) (m : Model) (g : pgv.AGraph) :
  graph m = Some g ->
  (forall pgv_imported ttl,
     GraphMachine._get_graph pgv_imported self m ttl false false = inr (m, g))
  /\ (forall pgv_imported ttl show_roi,
        GraphMachine._get_graph pgv_imported self m ttl true show_roi
        = GraphMachine._get_graph pgv_imported self (drop_graph m) ttl false show_roi).
Proof.
  intros Hg. split.
  - intros pgv_imported ttl. by apply get_graph_cached.
  - intros pgv_imported ttl show_roi. unfold GraphMachine._get_graph.
    rewrite orb_true_r. cbn [drop_graph graph].
    rewrite bool_decide_eq_false_2 by (by intros [? [=]]). cbn [negb orb].
    destruct (AGraph.get_graph pgv_imported self (default (title self) ttl)) as [e|g0];
      [done|].
    cbn [bind]. by destruct (GraphMachine.set_node_state g0 _ "active").
Qed.

Lemma graph_request_cached_witness :
  exists m g,
    drawn_model = inr m /\ graph m = Some g
    /\ GraphMachine._get_graph false nested_machine m (Some "Another title") false false
       = inr (m, g).
Proof.
  destruct (ready_inv _ drawn_model_ready) as (m & g & E & Hg & _ & _).
  exists m, g. split; [exact E|]. split; [exact Hg|].
  exact (proj1 (graph_request_cached nested_machine m g Hg) false (Some "Another title")).
Defined.

(** X3: the region of interest of a model whose current state is not a node
    of its graph (a composite state, drawn as a cluster) cannot be shown: with
    the backend importable the request fails with [KeyError].  Without the
    backend it fails with [AttributeError] before the node is looked up. *)
Theorem roi_needs_node (self : Machine) (m : Model) (g : pgv.AGraph)
    (ttl : option string) :
  graph m = Some g ->
  pgv.nodes g !! state m = None ->
  (exists msg,
     GraphMachine._get_graph true self m ttl false true = inl (KeyError msg))
  /\ (exists msg,
        GraphMachine._get_graph false self m ttl false true = inl (AttributeError msg)).
Proof.
  intros Hg Hn.
  split; rewrite (roi_request_cached _ _ _ _ _ Hg);
    unfold GraphMachine._graph_roi, GraphMachine.model_graph;
    rewrite Hg, bind_ok_l; cbn [negb].
  - unfold pgv.get_node. rewrite (proj2 (has_node_false g (state m)) Hn).
    eexists. reflexivity.
  - eexists. reflexivity.
Qed.

Lemma roi_needs_node_witness :
  exists m msg,
    draw nested_machine "P" = inr m
    /\ GraphMachine._get_graph true nested_machine m None false true = inl (KeyError msg).
Proof.
  assert (Hchk : holds_at (draw nested_machine "P")
                   (λ m g, bool_decide (pgv.nodes g !! state m = None)) = true)
    by (vm_compute; reflexivity).
  apply holds_at_inv in Hchk as (m & g & E & Hg & Hn%bool_decide_eq_true).
  destruct (roi_needs_node nested_machine m g None Hg Hn) as [[msg H] _].
  exists m, msg. split; [exact E | exact H].
Defined.

(** ** Styling by name *)

Lemma cluster_walk_error (path : list string) :
  forall node e, GraphMachine.cluster_walk node path = inl e -> exists msg, e = AttributeError msg.
Proof.
  induction path as [|p rest IH]; intros node e; [discriminate|].
  cbn [GraphMachine.cluster_walk]. destruct node as [sgs|]; [apply IH|].
  intros [= <-]. eauto.
Qed.

(** X4: a name that is neither a node of the graph nor the path of one of
    its clusters cannot be styled: [set_node_state] fails with
    [AttributeError], for every role. *)
Theorem unknown_name_not_styled (g : pgv.AGraph) (n role : string) :
  pgv.nodes g !! n = None ->
  pgv.subgraph_at (pgv.subgraphs g) (cluster_path n) = None ->
  exists msg, GraphMachine.set_node_state g n role = inl (AttributeError msg).
Proof.
  intros Hn Hsg. unfold GraphMachine.set_node_state.
  rewrite (proj2 (has_node_false g n) Hn).
  destruct (GraphMachine.cluster_walk _ _) as [e|node] eqn:Ew.
  - destruct (cluster_walk_error _ _ _ Ew) as [msg ->]. by exists msg.
  - cbn [bind]. unfold GraphMachine.set_graph_style, GraphMachine.style_attr.
    destruct (pgv.style_attributes g) as [tbl|]; cbn [bind ok raise]; [|eauto].
    destruct node as [x|]; cbn [mbind option_bind]; [|eauto].
    fold (cluster_path n). rewrite Hsg. eauto.
Qed.

(** The composite state [big_P] is drawn as the cluster [cluster_big_P], but
    its name is split at the separator when it is styled. *)
Lemma unknown_name_not_styled_witness :
  exists g msg,
    AGraph.get_graph true underscore_machine "" = inr g
    /\ is_Some (pgv.get_subgraph_in (pgv.subgraphs g) "cluster_big_P")
    /\ GraphMachine.set_node_state g "big_P" "active" = inl (AttributeError msg).
Proof.
  assert (Hchk : match AGraph.get_graph true underscore_machine "" with
                 | inr g =>
                     bool_decide (pgv.nodes g !! "big_P" = None)
                     && bool_decide (pgv.subgraph_at (pgv.subgraphs g) (cluster_path "big_P")
                                     = None)
                     && bool_decide (is_Some (pgv.get_subgraph_in (pgv.subgraphs g)
                                                "cluster_big_P"))
                 | inl _ => false
                 end = true) by (vm_compute; reflexivity).
  destruct (AGraph.get_graph true underscore_machine "") as [e|g]; [discriminate|].
  apply andb_true_iff in Hchk as [Hchk Hc%bool_decide_eq_true].
  apply andb_true_iff in Hchk as [Hn%bool_decide_eq_true Hp%bool_decide_eq_true].
  destruct (unknown_name_not_styled g "big_P" "active" Hn Hp) as [msg H].
  exists g, msg. split; [reflexivity|]. split; [exact Hc | exact H].
Defined.

(** ** Roles that the style table does not have *)

Lemma node_role_unknown (role : string) :
  role ∉ roles "node" -> (AGraph.style_attributes !!! "node" : gmap string Attrs) !! role = None.
Proof.
  change (roles "node") with ["default"; "active"; "previous"].
  rewrite !not_elem_of_cons. intros (H1 & H2 & H3 & _).
  change (AGraph.style_attributes !!! "node")
    with (<["default" := node_style "default"]>
            (<["active" := node_style "active"]>
               ({["previous" := node_style "previous"]} : gmap string Attrs))).
  rewrite !lookup_insert_ne by done. by apply lookup_singleton_ne.
Qed.

Lemma edge_role_unknown (role : string) :
  role ∉ roles "edge" -> (AGraph.style_attributes !!! "edge" : gmap string Attrs) !! role = None.
Proof.
  change (roles "edge") with ["default"; "previous"].
  rewrite !not_elem_of_cons. intros (H1 & H2 & _).
  change (AGraph.style_attributes !!! "edge")
    with (<["default" := edge_style "default"]>
            ({["previous" := edge_style "previous"]} : gmap string Attrs)).
  rewrite !lookup_insert_ne by done. by apply lookup_singleton_ne.
Qed.

(** X5: on a graph of the builder, styling a node that does not exist fails
    with [KeyError] whatever the role; styling an existing node with a role
    that the style table does not have for nodes fails with [TypeError]; so
    does styling an edge with a role that the table does not have for edges
    (the active role among them). *)
Theorem style_errors (g : pgv.AGraph) :
  styled g ->
  (forall n role, pgv.nodes g !! n = None ->
     exists msg, GraphMachine.set_node_style g n role = inl (KeyError msg))
  /\ (forall n role, is_Some (pgv.nodes g !! n) -> role ∉ roles "node" ->
        exists msg, GraphMachine.set_node_style g n role = inl (TypeError msg))
  /\ (forall e role, is_Some (pgv.edges g !! e) -> role ∉ roles "edge" ->
        exists msg, GraphMachine.set_edge_style g e role = inl (TypeError msg)).
Proof.
  intros Hs. split; [|split].
  - intros n role Hn. unfold GraphMachine.set_node_style, pgv.get_node.
    rewrite (proj2 (has_node_false g n) Hn). eexists. reflexivity.
  - intros n role Hn Hrole. unfold GraphMachine.set_node_style, pgv.get_node.
    rewrite (proj2 (has_node_true g n) Hn), bind_ok_l.
    rewrite style_attr_styled by done. rewrite bind_ok_l.
    change (default ∅ (AGraph.style_attributes !! "node"))
      with (AGraph.style_attributes !!! "node" : gmap string Attrs).
    rewrite node_role_unknown by done. eexists. reflexivity.
  - intros e role [x He] Hrole. unfold GraphMachine.set_edge_style.
    rewrite style_attr_styled by done. rewrite bind_ok_l.
    change (default ∅ (AGraph.style_attributes !! "edge"))
      with (AGraph.style_attributes !!! "edge" : gmap string Attrs).
    rewrite edge_role_unknown by done.
    rewrite He. eexists. reflexivity.
Qed.

Lemma sample_graph_styled : styled sample_graph.
Proof. reflexivity. Qed.

Lemma style_errors_witness :
  (exists msg, GraphMachine.set_node_style sample_graph "Z" "active" = inl (KeyError msg))
  /\ (exists msg, GraphMachine.set_node_style sample_graph "A" "visited" = inl (TypeError msg))
  /\ (exists msg, GraphMachine.set_edge_style sample_graph 0 "active" = inl (TypeError msg)).
Proof.
  destruct (style_errors sample_graph sample_graph_styled) as (H1 & H2 & H3).
  split; [|split].
  - apply H1. reflexivity.
  - apply H2; [apply (bool_decide_eq_true_1 (is_Some _)); vm_compute; reflexivity|].
    change (roles "node") with ["default"; "active"; "previous"].
    intros H. repeat (apply elem_of_cons in H as [H|H]; [discriminate|]).
    by apply elem_of_nil in H.
  - apply H3; [apply (bool_decide_eq_true_1 (is_Some _)); vm_compute; reflexivity|]. change (roles "edge") with ["default"; "previous"].
    intros H. repeat (apply elem_of_cons in H as [H|H]; [discriminate|]).
    by apply elem_of_nil in H.
Defined.

(** ** Back to the default style *)

Lemma union_absorb (d r a : Attrs) :
  (forall k, is_Some (r !! k) -> is_Some (d !! k)) -> d ∪ (r ∪ a) = d ∪ a.
Proof.
  intros H. apply map_eq. intros k. rewrite !lookup_union.
  destruct (d !! k) as [x|] eqn:Ed; [by destruct (r !! k), (a !! k)|].
  destruct (r !! k) as [y|] eqn:Er; [|by destruct (a !! k)].
  destruct (H k) as [z Hz]; [eauto | congruence].
Qed.

(** The default style of a kind sets every attribute that a role of that
    kind sets. *)
Lemma default_covers_node_roles (role k : string) :
  role ∈ roles "node" ->
  is_Some (node_style role !! k) -> is_Some (node_style "default" !! k).
Proof.
  change (roles "node") with ["default"; "active"; "previous"].
  intros Hr [v Hv].
  assert (Hall : forall r, r ∈ ["default"; "active"; "previous"] ->
            map_Forall (λ k _, is_Some (node_style "default" !! k)) (node_style r)).
  { intros r Hin. repeat (apply elem_of_cons in Hin as [->|Hin]);
      [| | |by apply elem_of_nil in Hin];
      apply (bool_decide_eq_true_1 (map_Forall _ _)); vm_compute; reflexivity. }
  exact (Hall role Hr k v Hv).
Qed.

Lemma default_covers_edge_roles (role k : string) :
  role ∈ roles "edge" ->
  is_Some (edge_style role !! k) -> is_Some (edge_style "default" !! k).
Proof.
  change (roles "edge") with ["default"; "previous"].
  intros Hr [v Hv].
  assert (Hall : forall r, r ∈ ["default"; "previous"] ->
            map_Forall (λ k _, is_Some (edge_style "default" !! k)) (edge_style r)).
  { intros r Hin. repeat (apply elem_of_cons in Hin as [->|Hin]);
      [| |by apply elem_of_nil in Hin];
      apply (bool_decide_eq_true_1 (map_Forall _ _)); vm_compute; reflexivity. }
  exact (Hall role Hr k v Hv).
Qed.

Lemma styled_role (g : pgv.AGraph) (k role : string) :
  styled g -> k = "node" \/ k = "edge" -> role ∈ roles k ->
  GraphMachine.style_attr g k role
  = ok (Some (if bool_decide (k = "node") then node_style role else edge_style role)).
Proof.
  intros Hs [-> | ->] Hr.
  - change (roles "node") with ["default"; "active"; "previous"] in Hr.
    apply styled_node_role; [done|].
    repeat (apply elem_of_cons in Hr as [->|Hr]); auto. by apply elem_of_nil in Hr.
  - change (roles "edge") with ["default"; "previous"] in Hr.
    change (bool_decide ("edge" = "node")) with false. cbn [negb].
    apply styled_edge_role; [done|].
    repeat (apply elem_of_cons in Hr as [->|Hr]); auto. by apply elem_of_nil in Hr.
Qed.

(** X6: the default style removes a role without trace.  On a graph of the
    builder, applying a role of the style table to a node or an edge and then
    the default style leaves the graph exactly as applying the default style
    alone does. *)
Theorem default_erases_role (g g1 g2 : pgv.AGraph) (t : element) (role : string) :
  styled g ->
  role ∈ roles (kind t) ->
  apply_style g t role = inr g1 ->
  apply_style g1 t "default" = inr g2 ->
  apply_style g t "default" = inr g2.
Proof.
  intros Hs Hr H1 H2. destruct t as [n|i]; cbn [apply_style kind] in *.
  - apply set_node_style_inv in H1 as (d & a & Ha & Hd & ->).
    apply set_node_style_inv in H2 as (d' & a' & Ha' & Hd' & ->).
    rewrite styled_node_role in Hd' by auto. injection Hd' as <-.
    rewrite (styled_role g "node" role) in Hd by auto. injection Hd as <-.
    change (bool_decide ("node" = "node")) with true in *. cbn [pgv.nodes pgv.set_nodes] in *.
    rewrite lookup_insert_eq in Ha'. injection Ha' as <-.
    rewrite (set_node_style_ok g n "default" (node_style "default") a Ha)
      by (apply styled_node_role; auto).
    rewrite insert_insert_eq, union_absorb; [done|].
    intros k. by apply default_covers_node_roles.
  - apply set_edge_style_inv in H1 as (d & e & He & Hd & ->).
    apply set_edge_style_inv in H2 as (d' & e' & He' & Hd' & ->).
    rewrite styled_edge_role in Hd' by auto. injection Hd' as <-.
    rewrite (styled_role g "edge" role) in Hd by auto. injection Hd as <-.
    change (bool_decide ("edge" = "node")) with false in *. cbn [pgv.edges pgv.set_edges] in *.
    rewrite list_lookup_insert_eq in He' by (by eapply lookup_lt_Some). injection He' as <-.
    rewrite (set_edge_style_ok g i "default" (edge_style "default") e He)
      by (apply styled_edge_role; auto).
    rewrite list_insert_insert_eq. cbn [GraphMachine.with_attr pgv.e_attr pgv.e_from pgv.e_to pgv.e_key].
    rewrite union_absorb; [done|].
    intros k. by apply default_covers_edge_roles.
Qed.

Lemma default_erases_role_witness :
  exists g1 g2,
    apply_style sample_graph (Node "A") "active" = inr g1
    /\ apply_style g1 (Node "A") "default" = inr g2
    /\ apply_style sample_graph (Node "A") "default" = inr g2.
Proof.
  assert (Hok : is_ok (g1 <- apply_style sample_graph (Node "A") "active" ;;
                       apply_style g1 (Node "A") "default") = true)
    by (vm_compute; reflexivity).
  apply is_ok_inv in Hok as [g2 H]. bind_inv H as g1 H1.
  exists g1, g2. split; [exact H1|]. split; [exact H|].
  refine (default_erases_role sample_graph g1 g2 (Node "A") "active"
            sample_graph_styled _ H1 H).
  change (roles (kind (Node "A"))) with ["default"; "active"; "previous"].
  apply elem_of_cons. right. apply elem_of_cons. by left.
Defined.

Lemma reset_idemp (g : pgv.AGraph) : reset (reset g) = reset g.
Proof.
  unfold reset. cbn [pgv.nodes pgv.set_nodes]. destruct g; cbn. f_equal.
  rewrite <- map_fmap_compose. apply map_fmap_ext. intros k a _. cbn.
  by rewrite (assoc_L (∪)), (idemp_L (∪)).
Qed.

(** X7: on a graph of the builder [reset_nodes] always completes.  It
    writes the default node style over every node and keeps the attributes
    that this style does not set; afterwards every node carries the default
    role and none the active or the previous one.  It adds and removes no
    node, touches no edge and no cluster (a cluster styled active or previous
    stays so), and running it again changes nothing. *)
Theorem reset_nodes_effect (g : pgv.AGraph) :
  styled g ->
  exists g',
    GraphMachine.reset_nodes g = inr g'
    /\ (forall n, pgv.nodes g' !! n = union (node_style "default") <$> pgv.nodes g !! n)
    /\ (forall n a, pgv.nodes g' !! n = Some a ->
          carries "default" a /\ ~ carries "active" a /\ ~ carries "previous" a)
    /\ pgv.edges g' = pgv.edges g
    /\ pgv.subgraphs g' = pgv.subgraphs g
    /\ pgv.graph_attr g' = pgv.graph_attr g
    /\ config g' = config g
    /\ GraphMachine.reset_nodes g' = inr g'.
Proof.
  intros Hs. exists (reset g).
  assert (Hrun : forall h, styled h -> GraphMachine.reset_nodes h = inr (reset h)).
  { intros h Hh. apply reset_nodes_ok. apply styled_node_role; auto. }
  split; [by apply Hrun|]. split; [apply reset_lookup|]. split.
  { intros n a Ha. pose proof (reset_calm g n a Ha) as Hd.
    split; [done|]. split.
    - apply calm_not_active. by left.
    - by apply default_not_previous. }
  do 4 (split; [done|]). rewrite Hrun by done. by rewrite reset_idemp.
Qed.

Lemma reset_nodes_effect_witness :
  exists g', GraphMachine.reset_nodes sample_graph = inr g'
             /\ GraphMachine.reset_nodes g' = inr g'.
Proof.
  destruct (reset_nodes_effect sample_graph sample_graph_styled)
    as (g' & H & _ & _ & _ & _ & _ & _ & H').
  exists g'. split; [exact H | exact H'].
Defined.

(** ** Clusters during transitions *)

(** X8: a transition whose source state is drawn as a node changes no
    cluster of the graph: the update resets nodes only, and both the previous
    and the active role then go to nodes.  A cluster that an earlier update
    styled active or previous keeps that style. *)
Theorem node_transition_keeps_clusters (t : Transition) (machine : Machine) (ev : string)
    (model model' : Model) (g : pgv.AGraph) (src : string) (s0 : State) :
  styled g ->
  graph model = Some g ->
  source t = Some src ->
  get_state machine src = inr s0 ->
  is_Some (pgv.nodes g !! name s0) ->
  TransitionGraphSupport._change_state t machine ev model = inr model' ->
  exists g', graph model' = Some g' /\ pgv.subgraphs g' = pgv.subgraphs g.
Proof.
  intros Hs Hg Hsrc Hs0 Hnode H.
  apply change_state_inv in H as (mid & Hmid & Hgm).
  destruct (update_diagram_inv t machine ev model mid g Hs Hg Hmid)
    as (d0 & g' & Hd0 & -> & Hstep).
  rewrite Hsrc in Hstep.
  destruct Hstep as (s0' & sd & g2 & g3 & Hs0' & Hg2 & Hsd & Hg3 & Hg').
  rewrite Hs0 in Hs0'. injection Hs0' as <-.
  assert (Hrs : styled (reset g)) by done.
  destruct (set_node_state_inv _ _ _ _ Hrs (or_intror (or_intror eq_refl)) Hg2)
    as (Hc2 & _ & Hcase2).
  assert (Hsub2 : pgv.subgraphs g2 = pgv.subgraphs g).
  { destruct Hcase2 as [(a & _ & _ & ->)|(Hnone & _)]; [done|].
    rewrite reset_lookup in Hnone. destruct Hnode as [x Hx]. by rewrite Hx in Hnone. }
  assert (Hs2 : styled g2) by (by eapply config_styled).
  destruct (set_edge_state_nodes _ _ _ _ _ _ _ Hs2 Hg3) as (Hc3 & Hsub3 & Hv & _).
  assert (Hs3 : styled g3) by (by eapply config_styled).
  destruct (set_node_state_inv _ _ _ _ Hs3 (or_intror (or_introl eq_refl)) Hg')
    as (_ & _ & Hcase').
  exists g'. split; [by rewrite Hgm|].
  destruct Hcase' as [(a & _ & _ & ->)|(Hnone & _)]; [congruence|].
  destruct Hv as [x Hx]. congruence.
Qed.

(** On [nested_machine], after an initial entry into the composite [P] its
    cluster is styled active; the transition [go] from the node [A] then
    leaves the cluster so. *)
Lemma node_transition_keeps_clusters_witness :
  exists model model' g g' sg,
    bind drawn_model
      (fire nested_machine [({| source := None; dest := "P"; conditions := [] |}, "init")])
    = inr model
    /\ graph model = Some g
    /\ TransitionGraphSupport._change_state go_A_P nested_machine "go" model = inr model'
    /\ graph model' = Some g'
    /\ pgv.subgraph_at (pgv.subgraphs g') ["cluster_P"] = Some sg
    /\ carries "active" (pgv.sg_graph_attr sg).
Proof.
  set (run := bind drawn_model
                (fire nested_machine
                   [({| source := None; dest := "P"; conditions := [] |}, "init")])).
  assert (Hchk : holds_on run
                   (λ g, bool_decide (styled g)
                         && bool_decide (is_Some (pgv.nodes g !! "A"))
                         && match pgv.subgraph_at (pgv.subgraphs g) ["cluster_P"] with
                            | Some sg => bool_decide (node_style "active" ⊆ pgv.sg_graph_attr sg)
                            | None => false
                            end) = true)
    by (vm_compute; reflexivity).
  apply holds_on_inv in Hchk as (model & g & E & Hg & Hchk).
  apply andb_true_iff in Hchk as [Hchk Hc].
  apply andb_true_iff in Hchk as [Hs%bool_decide_eq_true HA%bool_decide_eq_true].
  destruct (pgv.subgraph_at (pgv.subgraphs g) ["cluster_P"]) as [sg|] eqn:Esg;
    [|discriminate].
  apply bool_decide_eq_true in Hc.
  assert (Hok : is_ok (m <- run ;;
                       TransitionGraphSupport._change_state go_A_P nested_machine "go" m)
                = true) by (vm_compute; reflexivity).
  apply is_ok_inv in Hok as [model' F]. rewrite E in F. cbn [bind] in F.
  destruct (node_transition_keeps_clusters go_A_P nested_machine "go" model model' g
              "A" (MkState "A" "A" (Some [])) Hs Hg eq_refl eq_refl HA F)
    as (g' & Hg' & Hsub).
  exists model, model', g, g', sg. split; [exact E|].
  repeat (split; [eassumption|]). split; [by rewrite Hsub | exact Hc].
Defined.

(** ** Transitions whose edge is not drawn *)

Lemma get_edge_missing (g : pgv.AGraph) (u v : string) :
  pgv.has_edge g u v = false -> exists msg, pgv.get_edge g u v = inl (KeyError msg).
Proof.
  unfold pgv.has_edge, pgv.get_edge, pgv.get_node. intros H.
  destruct (pgv.has_node g u); cbn [bind ok raise]; [|eauto].
  destruct (pgv.has_node g v); cbn [bind ok raise]; [|eauto].
  destruct (pgv.find_edge (pgv.edges g) u v) as [i|]; [|eauto].
  cbn [andb] in H. apply bool_decide_eq_false in H. destruct H. eauto.
Qed.

(** X9: with the display of auto transitions enabled no edge is created on
    demand.  A transition with a source whose resolved leaves are joined by no
    edge of the graph does not complete: once the source has taken the
    previous style the update fails with [KeyError], and the model's state is
    left as it was. *)
Theorem shown_auto_transitions_need_edge (t : Transition) (machine : Machine) (ev : string)
    (model : Model) (g : pgv.AGraph) (src : string) (s0 d0 : State) (sd : State * State) :
  show_auto_transitions machine = true ->
  styled g ->
  graph model = Some g ->
  source t = Some src ->
  get_state machine src = inr s0 ->
  get_state machine (dest t) = inr d0 ->
  resolve_pair s0 d0 = inr sd ->
  pgv.has_edge g (name sd.1) (name sd.2) = false ->
  exists e,
    TransitionGraphSupport._change_state t machine ev model = inl e
    /\ (is_ok (GraphMachine.set_node_state (reset g) (name s0) "previous") = true ->
        exists msg, e = KeyError msg).
Proof.
  intros Hshow Hs Hg Hsrc Hs0 Hd0 Hsd Hedge.
  unfold TransitionGraphSupport._change_state, TransitionGraphSupport.update_diagram.
  rewrite Hd0, bind_ok_l. unfold GraphMachine.model_graph. rewrite Hg, bind_ok_l.
  rewrite (reset_nodes_ok g (node_style "default")) by (apply styled_node_role; auto).
  fold (reset g). rewrite bind_ok_l, Hsrc, Hs0, bind_ok_l.
  destruct (GraphMachine.set_node_state (reset g) (name s0) "previous") as [e|g2] eqn:Eg2.
  { exists e. split; [done|]. discriminate. }
  cbn [bind]. fold (resolve_pair s0 d0). rewrite Hsd. cbn [bind].
  assert (Hrs : styled (reset g)) by done.
  destruct (set_node_state_inv _ _ _ _ Hrs (or_intror (or_intror eq_refl)) Eg2)
    as (_ & He2 & Hcase2).
  assert (Hedge2 : pgv.has_edge g2 (name sd.1) (name sd.2) = false).
  { rewrite <- Hedge. apply has_edge_ext; [|done].
    intros n. rewrite <- (fmap_is_Some (union (node_style "default")) (pgv.nodes g !! n)).
    rewrite <- reset_lookup.
    destruct Hcase2 as [(a & Ha & -> & _)|(_ & -> & _)]; [|done].
    destruct (decide (n = name s0)) as [->|Hne].
    - rewrite lookup_insert_eq, Ha. split; eauto.
    - by rewrite lookup_insert_ne. }
  unfold GraphMachine.set_edge_state. rewrite Hshow. cbn [negb andb].
  destruct (get_edge_missing _ _ _ Hedge2) as [msg ->].
  exists (KeyError msg). split; [done|]. eauto.
Qed.

(** On [nested_auto_machine] the transition [enter], from the composite [P]
    to its first child, is not drawn; firing it fails. *)
Lemma shown_auto_transitions_need_edge_witness :
  exists model msg,
    draw nested_auto_machine "P" = inr model
    /\ TransitionGraphSupport._change_state P_to_P_1 nested_auto_machine "enter" model
       = inl (KeyError msg).
Proof.
  assert (Hchk : holds_on (draw nested_auto_machine "P")
                   (λ g, bool_decide (styled g)
                         && negb (pgv.has_edge g "P_1" "P_1")
                         && is_ok (GraphMachine.set_node_state (reset g) "P" "previous"))
                 = true) by (vm_compute; reflexivity).
  apply holds_on_inv in Hchk as (model & g & E & Hg & Hchk).
  apply andb_true_iff in Hchk as [Hchk Hprev].
  apply andb_true_iff in Hchk as [Hs%bool_decide_eq_true He%negb_true_iff].
  destruct (shown_auto_transitions_need_edge P_to_P_1 nested_auto_machine "enter" model g
              "P" (MkState "P" "P" (Some [MkState "P_1" "1" (Some [])]))
              (MkState "P_1" "1" (Some []))
              (MkState "P_1" "1" (Some []), MkState "P_1" "1" (Some []))
              eq_refl Hs Hg eq_refl eq_refl eq_refl eq_refl He)
    as (e & H & Hkey).
  destruct (Hkey Hprev) as [msg ->].
  exists model, msg. split; [exact E | exact H].
Defined.

(** ** Hidden events *)

Lemma add_edges_without_hidden (machine : Machine) (evs : list (string * Event)) :
  forall container,
    for_each (AGraph._add_edges_event (without_hidden machine))
      (List.filter (λ p, negb (hidden machine p.2)) evs).*2 container
    = for_each (AGraph._add_edges_event machine) evs.*2 container.
Proof.
  induction evs as [|p evs IH]; intros container; [done|].
  cbn [List.filter fmap list_fmap for_each].
  destruct (hidden machine p.2) eqn:Eh; cbn [negb].
  - rewrite IH. unfold AGraph._add_edges_event at 2. fold (hidden machine p.2).
    by rewrite Eh.
  - cbn [fmap list_fmap for_each].
    change (AGraph._add_edges_event (without_hidden machine) container p.2)
      with (AGraph._add_edges_event machine container p.2).
    destruct (AGraph._add_edges_event machine container p.2) as [e|c]; [done|].
    cbn [bind]. apply IH.
Qed.

(** X10: an event that the builder hides (auto-transition display off, a
    name that starts with [to_], as many sources as the machine has states)
    leaves no trace: the built graph is the graph of the machine without
    such events, and a failure is the same failure. *)
Theorem hidden_events_leave_no_trace (pgv_imported : bool) (machine : Machine)
    (ttl : string) :
  AGraph.get_graph pgv_imported (without_hidden machine) ttl
  = AGraph.get_graph pgv_imported machine ttl.
Proof.
  unfold AGraph.get_graph. destruct (negb pgv_imported); [done|].
  unfold AGraph._add_edges. cbn [events states without_hidden].
  by rewrite add_edges_without_hidden.
Qed.

(** ** The nodes of a built graph *)

Lemma shape_in_default :
  ({[ "shape" := ((AGraph.style_attributes !!! "node") !!! "default") !!! "shape" ]} : Attrs)
  ∪ node_style "default" = node_style "default".
Proof. apply (bool_decide_eq_true_1 (_ = _)). vm_compute. reflexivity. Qed.

Lemma add_node_in_nodes (g : pgv.AGraph) (path : list string) (n : string) (a : Attrs) :
  pgv.nodes (pgv.add_node_in g path n a)
  = <[n := a ∪ default (pgv.node_attr g) (pgv.nodes g !! n)]> (pgv.nodes g).
Proof. done. Qed.

Lemma adding_nodes_leaf (L C : list string) (seen : list string) (g : pgv.AGraph)
    (path : list string) (nm : string) :
  adding_nodes L C (seen, g) -> nm ∈ L ->
  adding_nodes L C
    ((seen ++ [nm])%list,
     pgv.add_node_in g path nm
       {[ "shape" := ((AGraph.style_attributes !!! "node") !!! "default") !!! "shape" ]}).
Proof.
  intros (Hd & Ht & Hn & Hs) HL. cbn [fst snd] in *.
  assert (Hnew : ({[ "shape" := ((AGraph.style_attributes !!! "node") !!! "default")
                                  !!! "shape" ]} : Attrs)
                 ∪ default (pgv.node_attr g) (pgv.nodes g !! nm) = node_style "default").
  { destruct (pgv.nodes g !! nm) as [a|] eqn:Ea; cbn [default].
    - destruct (Hn nm a Ea) as [_ ->]. apply shape_in_default.
    - rewrite Hd. apply shape_in_default. }
  unfold adding_nodes. cbn [fst snd].
  split; [done|]. split; [done|]. split.
  - intros n a. rewrite add_node_in_nodes, Hnew.
    destruct (decide (n = nm)) as [->|Hne].
    + rewrite lookup_insert_eq. by intros [= <-].
    + rewrite lookup_insert_ne by done. apply Hn.
  - intros n [Hin|Hin]%elem_of_app; rewrite add_node_in_nodes.
    + destruct (decide (n = nm)) as [->|Hne]; [rewrite lookup_insert_eq; eauto|].
      rewrite lookup_insert_ne by done. by apply Hs.
    + apply list_elem_of_singleton in Hin as ->. rewrite lookup_insert_eq. eauto.
Qed.

Lemma add_subgraph_nodes (g : pgv.AGraph) (path : list string) (n : string) (a : Attrs) :
  pgv.nodes (pgv.add_subgraph g path n a) = pgv.nodes g
  /\ pgv.node_attr (pgv.add_subgraph g path n a) = pgv.node_attr g
  /\ pgv.style_attributes (pgv.add_subgraph g path n a) = pgv.style_attributes g.
Proof. by destruct path. Qed.

Lemma adding_nodes_cluster (L C : list string) (seen : list string) (g : pgv.AGraph)
    (path : list string) (nm sub : string) (a : Attrs) :
  adding_nodes L C (seen, g) -> nm ∈ C ->
  adding_nodes L C ((seen ++ [nm])%list, pgv.add_subgraph g path sub a).
Proof.
  intros (Hd & Ht & Hn & Hs) HC. cbn [fst snd] in *.
  destruct (add_subgraph_nodes g path sub a) as (E1 & E2 & E3).
  unfold adding_nodes. cbn [fst snd]. rewrite E1, E2, E3.
  split; [done|]. split; [done|]. split; [done|].
  intros n [Hin|Hin]%elem_of_app; [by apply Hs|].
  apply list_elem_of_singleton in Hin as ->. by right.
Qed.

Lemma flat_map_elem {A B} (f : A -> list B) (l : list A) (x : A) (y : B) :
  x ∈ l -> y ∈ f x -> y ∈ flat_map f l.
Proof.
  intros Hx Hy. apply list_elem_of_In, in_flat_map. exists x.
  split; by apply list_elem_of_In.
Qed.

(** One state of the loop of [_add_nodes]: the invariant is kept, nothing
    seen is forgotten, and the state's own name is seen afterwards. *)
Lemma add_nodes_state_keeps (L C : list string) (s : State) :
  (forall n, n ∈ leaves s -> n ∈ L) ->
  (forall n, n ∈ composites s -> n ∈ C) ->
  forall container acc,
    adding_nodes L C acc ->
    adding_nodes L C (AGraph._add_nodes_state container s acc)
    /\ (forall n, n ∈ acc.1 -> n ∈ (AGraph._add_nodes_state container s acc).1)
    /\ name s ∈ (AGraph._add_nodes_state container s acc).1.
Proof.
  induction s as [n sn|n sn cs IH] using State_nested_ind;
    intros HL HC container [seen g] Hacc; cbn [AGraph._add_nodes_state fst snd name].
  - case_bool_decide as Hseen; [done|].
    split; [apply adding_nodes_leaf; [done | apply HL; cbn; by left]|].
    split; [intros m Hm; apply elem_of_app; by left|].
    apply elem_of_app. right. by left.
  - case_bool_decide as Hseen; [done|].
    destruct cs as [|c cs].
    { split; [apply adding_nodes_leaf; [done | apply HL; cbn; by left]|].
      split; [intros m Hm; apply elem_of_app; by left|].
      apply elem_of_app. right. by left. }
    set (cs' := c :: cs) in *.
    assert (HLc : forall x, x ∈ cs' -> forall m, m ∈ leaves x -> m ∈ L).
    { intros x Hx m Hm. apply HL. cbn [leaves]. fold cs'.
      unfold cs' at 1. by eapply flat_map_elem. }
    assert (HCc : forall x, x ∈ cs' -> forall m, m ∈ composites x -> m ∈ C).
    { intros x Hx m Hm. apply HC. cbn [composites]. fold cs'.
      unfold cs' at 1. right. by eapply flat_map_elem. }
    assert (Hn : n ∈ C) by (apply HC; cbn [composites]; by left).
    clearbody cs'. clear HL HC.
    assert (Hloop : forall path acc0,
              adding_nodes L C acc0 ->
              adding_nodes L C (fold_left (λ a c, AGraph._add_nodes_state path c a) cs' acc0)
              /\ forall m, m ∈ acc0.1 ->
                   m ∈ (fold_left (λ a c, AGraph._add_nodes_state path c a) cs' acc0).1).
    { intros path. induction IH as [|x xs Hx _ IHxs]; intros acc0 H0; [done|].
      cbn [fold_left].
      destruct (Hx (HLc x ltac:(left)) (HCc x ltac:(left)) path acc0 H0) as (H1 & Hmono & _).
      assert (HL' : forall y, y ∈ xs -> forall m, m ∈ leaves y -> m ∈ L)
        by (intros y Hy; apply HLc; by right).
      assert (HC' : forall y, y ∈ xs -> forall m, m ∈ composites y -> m ∈ C)
        by (intros y Hy; apply HCc; by right).
      destruct (IHxs HL' HC' (AGraph._add_nodes_state path x acc0) H1) as [H2 Hmono2].
      split; [done|]. intros m Hm. by apply Hmono2, Hmono. }
    destruct (Hloop (container ++ ["cluster_" +:+ sn])%list
                ((seen ++ [n])%list,
                 pgv.add_subgraph g container ("cluster_" +:+ sn)
                   {[ "label" := n; "rank" := "same" ]}))
      as [H1 Hmono]; [by apply adding_nodes_cluster|].
    split; [done|]. split.
    + intros m Hm. apply Hmono. apply elem_of_app. by left.
    + apply Hmono. apply elem_of_app. right. by left.
Qed.

Lemma add_nodes_keeps (L C : list string) (sts : list State) (container : list string) :
  (forall s n, s ∈ sts -> n ∈ leaves s -> n ∈ L) ->
  (forall s n, s ∈ sts -> n ∈ composites s -> n ∈ C) ->
  forall acc,
    adding_nodes L C acc ->
    adding_nodes L C (AGraph._add_nodes sts container acc)
    /\ (forall n, n ∈ acc.1 -> n ∈ (AGraph._add_nodes sts container acc).1)
    /\ forall s, s ∈ sts -> name s ∈ (AGraph._add_nodes sts container acc).1.
Proof.
  unfold AGraph._add_nodes.
  induction sts as [|s sts IH]; intros HL HC acc Hacc.
  - split; [done|]. split; [done|]. intros s Hs. by apply elem_of_nil in Hs.
  - cbn [fold_left].
    destruct (add_nodes_state_keeps L C s) with (container := container) (acc := acc)
      as (H1 & Hmono1 & Hname1); [intros n; apply HL; left | intros n; apply HC; left | done |].
    destruct (IH) with (acc := AGraph._add_nodes_state container s acc)
      as (H2 & Hmono2 & Hname2).
    + intros s' n Hs'. apply HL. by right.
    + intros s' n Hs'. apply HC. by right.
    + done.
    + split; [done|]. split; [intros n Hn; by apply Hmono2, Hmono1|].
      intros s' [->|Hs']%elem_of_cons; [by apply Hmono2 | by apply Hname2].
Qed.

Lemma get_state_elem (machine : Machine) (n : string) (s : State) :
  get_state machine n = inr s -> s ∈ (states machine).*2.
Proof.
  unfold get_state. destruct (List.find _ _) as [p|] eqn:E; [|discriminate].
  intros [= <-]. apply find_some in E as [Hin _].
  apply list_elem_of_fmap_2. by apply list_elem_of_In.
Qed.

Lemma first_leaf_leaves (s : State) :
  forall leaf, first_leaf s = inr leaf -> name leaf ∈ leaves s.
Proof.
  induction s as [n sn|n sn cs IH] using State_nested_ind; intros leaf; [discriminate|].
  destruct cs as [|c cs]; cbn [first_leaf leaves].
  - intros [= <-]. cbn. by left.
  - intros H. apply Forall_cons in IH as [Hc _].
    cbn [flat_map]. apply elem_of_app. left. by apply Hc.
Qed.

Lemma descend_leaves (tag : State -> string) (s : State) (r : string * State) :
  AGraph.descend tag s = inr r -> name r.2 ∈ leaves s.
Proof.
  unfold AGraph.descend. destruct s as [n sn [[|c cs]|]]; cbn [children].
  - intros [= <-]. cbn. by left.
  - intros H. bind_inv H as leaf Hleaf. injection H as <-. cbn [snd leaves flat_map].
    apply elem_of_app. left. by apply first_leaf_leaves.
  - intros [= <-]. cbn. by left.
Qed.

Lemma map_result_concat_elem {A B} (f : A -> Result (list B)) (xs : list A)
    (yss : list (list B)) (y : B) :
  map_result f xs = inr yss -> y ∈ concat yss ->
  exists x ys, x ∈ xs /\ f x = inr ys /\ y ∈ ys.
Proof.
  revert yss. induction xs as [|x xs IH]; intros yss H Hy; cbn [map_result] in H.
  - injection H as <-. by apply elem_of_nil in Hy.
  - bind_inv H as ys Hys. bind_inv H as yss' Hyss'. injection H as <-.
    cbn [concat] in Hy. apply elem_of_app in Hy as [Hy|Hy].
    + exists x, ys. split; [left | done].
    + destruct (IH yss' Hyss' Hy) as (x' & ys' & Hx' & Hf & Hin).
      exists x', ys'. split; [by right | done].
Qed.

(** Both ends of a drawn transition are leaves of the registered states. *)
Lemma drawn_ends_leaves (machine : Machine) (ds : list Drawn) (d : Drawn) :
  drawn machine = inr ds -> d ∈ ds ->
  d_from d ∈ flat_map leaves (states machine).*2
  /\ d_to d ∈ flat_map leaves (states machine).*2.
Proof.
  unfold drawn. intros H Hd. bind_inv H as dss Hdss. injection H as <-.
  destruct (map_result_concat_elem _ _ _ _ Hdss Hd) as (ev & l1 & _ & Hev & Hd1).
  unfold draw_event in Hev. destruct (hidden machine ev).
  { injection Hev as <-. by apply elem_of_nil in Hd1. }
  bind_inv Hev as dss1 Hdss1. injection Hev as <-.
  destruct (map_result_concat_elem _ _ _ _ Hdss1 Hd1) as (tr & l2 & _ & Htr & Hd2).
  unfold draw_from in Htr. bind_inv Htr as src0 Hsrc0. bind_inv Htr as r Hr.
  bind_inv Htr as dss2 Hdss2. injection Htr as <-.
  destruct (map_result_concat_elem _ _ _ _ Hdss2 Hd2) as (t & l3 & _ & Ht & Hd3).
  unfold draw_transition in Ht. bind_inv Ht as dst0 Hdst0. bind_inv Ht as r' Hr'.
  destruct (bool_decide _ && negb _).
  { injection Ht as <-. by apply elem_of_nil in Hd3. }
  injection Ht as <-. apply list_elem_of_singleton in Hd3 as ->.
  cbn [d_from d_to]. split.
  - apply (flat_map_elem leaves _ src0);
      [exact (get_state_elem _ _ _ Hsrc0) | exact (descend_leaves _ _ _ Hr)].
  - apply (flat_map_elem leaves _ dst0);
      [exact (get_state_elem _ _ _ Hdst0) | exact (descend_leaves _ _ _ Hr')].
Qed.

(** What placing a drawn transition does to the nodes: a missing end is
    added with the node defaults, nothing else changes. *)
Lemma place_nodes (g : pgv.AGraph) (d : Drawn) (n : string) :
  pgv.nodes (place g d) !! n
  = match pgv.nodes g !! n with
    | Some x => Some x
    | None => if decide (pgv.nodes (place g d) !! n = None) then None
              else Some (pgv.node_attr g)
    end.
Proof.
  unfold place. destruct (pgv.has_edge g (d_from d) (d_to d)).
  - assert (pgv.nodes (match pgv.find_edge (pgv.edges g) (d_from d) (d_to d) with
                       | Some i => pgv.set_edges g
                                     (alter (AGraph.append_label (d_label d)) i (pgv.edges g))
                       | None => g
                       end) = pgv.nodes g) as -> by (by destruct (pgv.find_edge _ _ _)).
    destruct (pgv.nodes g !! n) eqn:E; [done|]. by rewrite decide_True.
  - rewrite add_edge_nodes. destruct (pgv.nodes g !! n) eqn:E; [done|].
    destruct (decide (n = d_from d \/ n = d_to d)).
    + by rewrite decide_False.
    + by rewrite decide_True.
Qed.

Lemma place_new_node (g : pgv.AGraph) (d : Drawn) (n : string) :
  pgv.nodes g !! n = None -> is_Some (pgv.nodes (place g d) !! n) ->
  n = d_from d \/ n = d_to d.
Proof.
  unfold place. destruct (pgv.has_edge g (d_from d) (d_to d)).
  - destruct (pgv.find_edge _ _ _); cbn [pgv.nodes pgv.set_edges];
      intros -> [? [=]].
  - rewrite add_edge_nodes. intros ->. case_decide; [done|]. by intros [? [=]].
Qed.

Lemma place_config (g : pgv.AGraph) (d : Drawn) :
  config (place g d) = config g /\ pgv.graph_attr (place g d) = pgv.graph_attr g
  /\ pgv.subgraphs (place g d) = pgv.subgraphs g.
Proof.
  unfold place. destruct (pgv.has_edge g (d_from d) (d_to d)).
  - by destruct (pgv.find_edge _ _ _).
  - split; [apply add_edge_config|]. split; [|apply add_edge_subgraphs].
    unfold pgv.add_edge, pgv.add_node.
    by destruct (pgv.has_node g _); simpl; destruct (pgv.has_node _ _).
Qed.

(** The nodes while the edges are added. *)
Lemma foldl_place_nodes (L : list string) (ds : list Drawn) :
  Forall (λ d, d_from d ∈ L /\ d_to d ∈ L) ds ->
  forall g,
    pgv.node_attr g = node_style "default" ->
    (forall n a, pgv.nodes g !! n = Some a -> n ∈ L /\ a = node_style "default") ->
    config (foldl place g ds) = config g
    /\ pgv.graph_attr (foldl place g ds) = pgv.graph_attr g
    /\ pgv.subgraphs (foldl place g ds) = pgv.subgraphs g
    /\ (forall n a, pgv.nodes (foldl place g ds) !! n = Some a ->
          n ∈ L /\ a = node_style "default")
    /\ (forall n, is_Some (pgv.nodes g !! n) -> is_Some (pgv.nodes (foldl place g ds) !! n)).
Proof.
  induction 1 as [|d ds [Hfrom Hto] _ IH]; intros g Hd Hn; [done|].
  cbn [foldl]. destruct (place_config g d) as (Hc & Hga & Hsg).
  destruct (IH (place g d)) as (Hc' & Hga' & Hsg' & Hn' & Hmono).
  - unfold config in Hc. by injection Hc as _ ->.
  - intros n a. rewrite place_nodes. destruct (pgv.nodes g !! n) as [x|] eqn:E.
    + intros [= <-]. by apply Hn.
    + case_decide as Hnone; [discriminate|]. intros [= <-]. split; [|done].
      destruct (place_new_node g d n E) as [-> | ->]; try done.
      by apply not_eq_None_Some.
  - split; [congruence|]. split; [congruence|]. split; [congruence|].
    split; [done|]. intros n [x Hx]. apply Hmono. rewrite place_nodes, Hx. eauto.
Qed.

Lemma add_nodes_state_graph_attr (s : State) :
  forall container acc,
    pgv.graph_attr (AGraph._add_nodes_state container s acc).2 = pgv.graph_attr acc.2.
Proof.
  induction s as [n sn|n sn cs IH] using State_nested_ind; intros container acc;
    cbn [AGraph._add_nodes_state]; destruct (bool_decide (n ∈ acc.1)); try done.
  assert (Hloop : forall path (a : list string * pgv.AGraph),
            pgv.graph_attr (fold_left (λ a c, AGraph._add_nodes_state path c a) cs a).2
            = pgv.graph_attr a.2).
  { intros path. induction IH as [|c cs Hc _ IHcs]; intros a; [done|].
    cbn [fold_left]. rewrite IHcs. apply Hc. }
  destruct cs as [|c cs]; [done|]. rewrite Hloop. by destruct container.
Qed.

Lemma add_nodes_graph_attr (sts : list State) (container : list string)
    (acc : list string * pgv.AGraph) :
  pgv.graph_attr (AGraph._add_nodes sts container acc).2 = pgv.graph_attr acc.2.
Proof.
  unfold AGraph._add_nodes. revert acc. induction sts as [|s sts IH]; intros acc; [done|].
  simpl. rewrite IH. apply add_nodes_state_graph_attr.
Qed.

(** The graph that the builder returns, seen from its nodes. *)
Lemma get_graph_nodes (pgv_imported : bool) (machine : Machine) (ttl : string)
    (g : pgv.AGraph) :
  AGraph.get_graph pgv_imported machine ttl = inr g ->
  styled g /\ node_defaults g
  /\ pgv.graph_attr g
     = update AGraph.machine_attributes {[ "label" := ttl; "compound" := "True" ]}
  /\ (forall n a, pgv.nodes g !! n = Some a ->
        n ∈ flat_map leaves (states machine).*2 /\ a = node_style "default")
  /\ (forall s, s ∈ (states machine).*2 ->
        is_Some (pgv.nodes g !! name s)
        \/ name s ∈ flat_map composites (states machine).*2).
Proof.
  unfold AGraph.get_graph. destruct (negb pgv_imported); [discriminate|].
  intros H. bind_inv H as g1 Hg1. injection H as <-.
  rewrite add_edges_place in Hg1. bind_inv Hg1 as ds Hds. injection Hg1 as <-.
  set (L := flat_map leaves (states machine).*2).
  set (C := flat_map composites (states machine).*2).
  set (g0 := pgv.set_node_attr _ _).
  destruct (add_nodes_keeps L C (states machine).*2 [] ) with (acc := ([] : list string, g0))
    as ((Hd0 & _ & Hn0 & Hs0) & _ & Hnames).
  { intros s n Hs Hn. by eapply flat_map_elem. }
  { intros s n Hs Hn. by eapply flat_map_elem. }
  { split; [|split; [done|split]].
    - unfold g0, update. cbn. by rewrite (right_id_L ∅ (∪)).
    - intros n a. unfold g0. cbn. by rewrite lookup_empty.
    - intros n Hn. by apply elem_of_nil in Hn. }
  destruct (foldl_place_nodes L ds) with (g := (AGraph._add_nodes (states machine).*2 [] ([], g0)).2)
    as (Hc & Hga & _ & Hn & Hmono); [|done|done|].
  { apply Forall_forall. intros d Hd. by eapply drawn_ends_leaves. }
  unfold config in Hc. injection Hc as Hst Hna.
  split; [done|]. split; [unfold node_defaults; cbn; congruence|].
  split.
  { cbn [pgv.graph_attr pgv.set_style_attributes]. rewrite Hga.
    by rewrite add_nodes_graph_attr. }
  split; [done|]. intros s Hs.
  destruct (Hs0 (name s) (Hnames s Hs)) as [Hnode|HC]; [left; by apply Hmono | by right].
Qed.

(** X11: the nodes of a built graph are leaves of the registered states,
    and every registered state whose name is not the name of a composite
    state is a node.  (A composite state is drawn as a cluster, not as a
    node.) *)
Theorem built_nodes_are_leaves (pgv_imported : bool) (machine : Machine) (ttl : string)
    (g : pgv.AGraph) :
  AGraph.get_graph pgv_imported machine ttl = inr g ->
  (forall n, is_Some (pgv.nodes g !! n) -> n ∈ flat_map leaves (states machine).*2)
  /\ (forall s, s ∈ (states machine).*2 ->
        name s ∉ flat_map composites (states machine).*2 ->
        is_Some (pgv.nodes g !! name s)).
Proof.
  intros H. destruct (get_graph_nodes _ _ _ _ H) as (_ & _ & _ & Hn & Hs). split.
  - intros n [a Ha]. by destruct (Hn n a Ha).
  - intros s Hin Hc. by destruct (Hs s Hin).
Qed.

(** On [nested_machine] the leaves [A] and [P_1] are nodes, the composite
    [P] is not. *)
Lemma built_nodes_are_leaves_witness :
  exists g,
    AGraph.get_graph true nested_machine "" = inr g
    /\ is_Some (pgv.nodes g !! "A") /\ is_Some (pgv.nodes g !! "P_1")
    /\ pgv.nodes g !! "P" = None.
Proof.
  assert (Hok : is_ok (AGraph.get_graph true nested_machine "") = true)
    by (vm_compute; reflexivity).
  apply is_ok_inv in Hok as [g Hg].
  destruct (built_nodes_are_leaves true nested_machine "" g Hg) as [Hsound Hcompl].
  assert (Hnot : forall n, n ∈ ["A"; "P_1"] ->
            n ∉ flat_map composites (states nested_machine).*2).
  { intros n Hn. change (flat_map composites (states nested_machine).*2) with ["P"].
    intros ->%list_elem_of_singleton.
    repeat (apply elem_of_cons in Hn as [Hn|Hn]; [discriminate|]).
    by apply elem_of_nil in Hn. }
  exists g. split; [exact Hg|]. split; [|split].
  - apply (Hcompl (MkState "A" "A" (Some []))).
    + cbn. left.
    + apply Hnot. left.
  - apply (Hcompl (MkState "P_1" "1" (Some []))).
    + cbn. right. right. left.
    + apply Hnot. right. left.
  - apply eq_None_not_Some. intros HP%Hsound.
    change (flat_map leaves (states nested_machine).*2) with ["A"; "P_1"; "P_1"] in HP.
    repeat (apply elem_of_cons in HP as [HP|HP]; [discriminate|]).
    by apply elem_of_nil in HP.
Defined.

(** ** The graph of the builder and the first request *)

(** X12: a graph that the builder returns has what the style operations
    rely on: the style table of the class is attached, new nodes start from
    the default node style, every node has exactly the default style, every
    edge joins two nodes, and the graph attributes are those of the class
    with the title as label. *)
Theorem built_graph_ready (pgv_imported : bool) (machine : Machine) (ttl : string)
    (g : pgv.AGraph) :
  AGraph.get_graph pgv_imported machine ttl = inr g ->
  styled g /\ node_defaults g /\ edges_wf g
  /\ (forall n a, pgv.nodes g !! n = Some a -> a = node_style "default")
  /\ pgv.graph_attr g
     = update AGraph.machine_attributes {[ "label" := ttl; "compound" := "True" ]}.
Proof.
  intros H. destruct (get_graph_nodes _ _ _ _ H) as (Hs & Hd & Hga & Hn & _).
  destruct (get_graph_reflects _ _ _ _ H) as (ds & _ & Hwf & _).
  split; [done|]. split; [done|]. split; [done|]. split; [|done].
  intros n a Ha. by destruct (Hn n a Ha).
Qed.

Lemma built_graph_ready_witness :
  exists g, AGraph.get_graph true flat_machine "Flat" = inr g
            /\ styled g /\ node_defaults g
            /\ pgv.graph_attr g !! "label" = Some "Flat".
Proof.
  assert (Hok : is_ok (AGraph.get_graph true flat_machine "Flat") = true)
    by (vm_compute; reflexivity).
  apply is_ok_inv in Hok as [g Hg].
  destruct (built_graph_ready true flat_machine "Flat" g Hg) as (Hs & Hd & _ & _ & Hga).
  exists g. split; [exact Hg|]. split; [exact Hs|]. split; [exact Hd|].
  rewrite Hga. reflexivity.
Defined.

Lemma first_request_inv (pgv_imported : bool) (self : Machine) (m m' : Model)
    (ttl : option string) (force_new : bool) (g : pgv.AGraph) :
  graph m = None \/ force_new = true ->
  GraphMachine._get_graph pgv_imported self m ttl force_new false = inr (m', g) ->
  exists g0,
    AGraph.get_graph pgv_imported self (default (title self) ttl) = inr g0
    /\ GraphMachine.set_node_state g0 (state m) "active" = inr g
    /\ m' = set_graph m g.
Proof.
  intros Hcase H. unfold GraphMachine._get_graph in H.
  assert (negb (bool_decide (is_Some (graph m))) || force_new = true) as Heq.
  { destruct Hcase as [Hn| ->]; [|apply orb_true_r].
    rewrite Hn. rewrite bool_decide_eq_false_2; [done|]. by intros [? [=]]. }
  rewrite Heq in H. bind_inv H as m1 Hm1. bind_inv Hm1 as g0 Hg0. bind_inv Hm1 as g1 Hg1.
  injection Hm1 as <-. cbn [GraphMachine.model_graph set_graph graph bind ok] in H.
  injection H as <- <-. by exists g0.
Qed.

Lemma set_node_state_graph_attr (g g' : pgv.AGraph) (n role : string) :
  GraphMachine.set_node_state g n role = inr g' -> pgv.graph_attr g' = pgv.graph_attr g.
Proof.
  unfold GraphMachine.set_node_state. destruct (pgv.has_node g n).
  - intros H. bind_inv H as x Hx. by apply set_node_style_inv in H as (d & a & _ & _ & ->).
  - intros H. bind_inv H as node Hnode. unfold GraphMachine.set_graph_style in H.
    bind_inv H as o Ho. destruct (_ ≫= _) as [sg|]; [|by destruct node].
    destruct node as [x|]; [|discriminate]. cbn in H.
    bind_inv H as a Ha. by injection H as <-.
Qed.

(** The active style on the state called [nm], on a graph whose nodes have
    the default style, except perhaps [nm], which may be active already. *)
Lemma mark_active_nodes (g g' : pgv.AGraph) (nm : string) :
  styled g ->
  (forall n a, pgv.nodes g !! n = Some a ->
     a = node_style "default"
     \/ (n = nm /\ a = node_style "active" ∪ node_style "default")) ->
  GraphMachine.set_node_state g nm "active" = inr g' ->
  forall n a, pgv.nodes g' !! n = Some a ->
    (n = nm /\ a = node_style "active" ∪ node_style "default")
    \/ (n ≠ nm /\ a = node_style "default").
Proof.
  intros Hs Hn H n a.
  destruct (set_node_state_inv g g' nm "active" Hs) as (_ & _ & Hcase); [auto | done |].
  destruct Hcase as [(a0 & Ha0 & -> & _)|(Hnone & -> & _)].
  - destruct (decide (n = nm)) as [->|Hne].
    + rewrite lookup_insert_eq. intros [= <-]. left. split; [done|].
      destruct (Hn nm a0 Ha0) as [-> | [_ ->]]; [done|].
      by rewrite (assoc_L (∪)), (idemp_L (∪)).
    + rewrite lookup_insert_ne by done. intros Ha. right. split; [done|].
      by destruct (Hn n a Ha) as [-> | [? _]].
  - intros Ha. right. split; [congruence|].
    destruct (Hn n a Ha) as [-> | [-> _]]; [done | congruence].
Qed.

Lemma set_node_state_wf (g g' : pgv.AGraph) (n role : string) :
  styled g -> role = "default" \/ role = "active" \/ role = "previous" ->
  GraphMachine.set_node_state g n role = inr g' ->
  edges_wf g -> edges_wf g'.
Proof.
  intros Hs Hr H Hwf.
  destruct (set_node_state_inv g g' n role Hs Hr H) as (_ & He & Hcase).
  unfold edges_wf in *. rewrite He.
  destruct Hcase as [(a & Ha & -> & _)|(_ & -> & _)]; [|done].
  assert (Hkeep : forall x, is_Some (pgv.nodes g !! x) ->
            is_Some (<[n := node_style role ∪ a]> (pgv.nodes g) !! x)).
  { intros x Hx. destruct (decide (x = n)) as [->|Hne];
      [rewrite lookup_insert_eq; eauto | by rewrite lookup_insert_ne]. }
  eapply Forall_impl; [exact Hwf|]. intros e [Hf Ht]. split; by apply Hkeep.
Qed.

Lemma first_request_facts (pgv_imported : bool) (self : Machine) (m m' : Model)
    (ttl : option string) (force_new : bool) (g : pgv.AGraph) :
  graph m = None \/ force_new = true ->
  GraphMachine._get_graph pgv_imported self m ttl force_new false = inr (m', g) ->
  m' = set_graph m g
  /\ styled g /\ node_defaults g /\ edges_wf g
  /\ pgv.graph_attr g !! "label" = Some (default (title self) ttl)
  /\ forall n a, pgv.nodes g !! n = Some a ->
       (n = state m /\ a = node_style "active" ∪ node_style "default")
       \/ (n ≠ state m /\ a = node_style "default").
Proof.
  intros Hcase H.
  destruct (first_request_inv _ _ _ _ _ _ _ Hcase H) as (g0 & Hg0 & Hg & ->).
  destruct (get_graph_nodes _ _ _ _ Hg0) as (Hs0 & Hd0 & Hga0 & Hn0 & _).
  destruct (get_graph_reflects _ _ _ _ Hg0) as (ds & _ & Hwf0 & _).
  destruct (set_node_state_inv g0 g (state m) "active" Hs0) as (Hc & _ & _); [auto | done |].
  split; [done|]. split; [by eapply config_styled|].
  split; [by eapply config_node_defaults|].
  split; [apply (set_node_state_wf g0 g (state m) "active"); auto|].
  split.
  { rewrite (set_node_state_graph_attr _ _ _ _ Hg), Hga0. unfold update.
    apply lookup_union_Some_l. apply lookup_insert_eq. }
  apply (mark_active_nodes g0 g (state m) Hs0); [|done].
  intros n a Ha. left. by destruct (Hn0 n a Ha).
Qed.

(** X13: the first request of a model for its graph, or a request with
    [force_new], stores and returns the graph of the builder, titled with
    the title passed or else the machine's, in which the node of the
    model's current state has the active style written over the default one
    and every other node has exactly the default style.  When the current
    state is not a node (a composite state), no node is active. *)
Theorem first_request_marks_state (pgv_imported : bool) (self : Machine) (m m' : Model)
    (ttl : option string) (force_new : bool) (g : pgv.AGraph) :
  graph m = None \/ force_new = true ->
  GraphMachine._get_graph pgv_imported self m ttl force_new false = inr (m', g) ->
  m' = set_graph m g
  /\ styled g /\ node_defaults g /\ edges_wf g
  /\ pgv.graph_attr g !! "label" = Some (default (title self) ttl)
  /\ forall n a, pgv.nodes g !! n = Some a ->
       (n = state m /\ a = node_style "active" ∪ node_style "default")
       \/ (n ≠ state m /\ a = node_style "default").
Proof. apply first_request_facts. Qed.

Lemma first_request_marks_state_witness :
  exists m' g a,
    GraphMachine._get_graph true nested_machine fresh_model None false false = inr (m', g)
    /\ pgv.graph_attr g !! "label" = Some "State Machine"
    /\ pgv.nodes g !! "A" = Some a /\ carries "active" a.
Proof.
  assert (Hok : match GraphMachine._get_graph true nested_machine fresh_model None false false
                with
                | inr r => bool_decide (is_Some (pgv.nodes r.2 !! "A"))
                | inl _ => false
                end = true) by (vm_compute; reflexivity).
  destruct (GraphMachine._get_graph true nested_machine fresh_model None false false)
    as [e|[m' g]] eqn:E; [discriminate|].
  apply bool_decide_eq_true in Hok as [a Ha].
  destruct (first_request_marks_state true nested_machine fresh_model m' None false g
              (or_introl eq_refl) E) as (_ & _ & _ & _ & Hl & Hn).
  exists m', g, a. split; [reflexivity|]. split; [exact Hl|]. split; [exact Ha|].
  destruct (Hn "A" a Ha) as [[_ ->]|[Hne _]]; [apply carries_union | by destruct Hne].
Defined.

(** ** Construction *)

Lemma bind_model_inv (pgv_imported : bool) (self : Machine) (m m' : Model) :
  GraphMachine.bind_model pgv_imported self m = inr m' ->
  hasattr m "get_graph" = false
  /\ exists m1 g1 g,
       GraphMachine._get_graph pgv_imported self (bind_attribute m "get_graph")
         None false false = inr (m1, g1)
       /\ graph m1 = Some g1
       /\ GraphMachine.set_node_state g1 (initial self) "active" = inr g
       /\ m' = set_graph m1 g.
Proof.
  unfold GraphMachine.bind_model. destruct (hasattr m "get_graph"); [discriminate|].
  intros H. split; [done|]. bind_inv H as r Hr. bind_inv H as g1 Hg1. bind_inv H as g Hg.
  injection H as <-. destruct r as [m1 g0]. cbn [fst snd] in *.
  unfold GraphMachine.model_graph in Hg1.
  destruct (graph m1) as [g1'|] eqn:Em1; [|discriminate]. injection Hg1 as ->.
  assert (g0 = g1) as ->.
  { unfold GraphMachine._get_graph in Hr. bind_inv Hr as m2 Hm2.
    cbn [bind] in Hr. unfold GraphMachine.model_graph in Hr.
    destruct (graph m2) as [g2|] eqn:Em2; [|discriminate].
    injection Hr as -> ->. congruence. }
  by exists m1, g1, g.
Qed.

(** X14: when the construction of a machine completes, every model has the
    accessor [get_graph] bound and is in the state it was in.  A model that
    came without a graph now holds one with what the style operations rely
    on, and when its state is the initial state of the machine, the node of
    that state has the active style written over the default one and every
    other node has exactly the default style. *)
Theorem construction_marks_initial (pgv_imported : bool) (base self : Machine) :
  GraphMachine.__init__ pgv_imported (ok base) = inr self ->
  states self = states base /\ events self = events base
  /\ length (models self) = length (models base)
  /\ forall i m', models self !! i = Some m' ->
       exists m,
         models base !! i = Some m
         /\ hasattr m "get_graph" = false
         /\ hasattr m' "get_graph" = true
         /\ state m' = state m
         /\ (graph m = None ->
             exists g,
               graph m' = Some g /\ styled g /\ node_defaults g /\ edges_wf g
               /\ (state m = initial base ->
                   forall n a, pgv.nodes g !! n = Some a ->
                     (n = initial base /\ a = node_style "active" ∪ node_style "default")
                     \/ (n ≠ initial base /\ a = node_style "default"))).
Proof.
  unfold GraphMachine.__init__. rewrite bind_ok_l. intros H.
  bind_inv H as ms Hms. injection H as <-.
  destruct (map_result_inv _ _ _ Hms) as [Hlen Hall].
  do 2 (split; [done|]). split; [done|].
  intros i m' Hi. destruct (Hall i m' Hi) as (m & Hm & Hbind).
  destruct (bind_model_inv _ _ _ _ Hbind) as (Hattr & m1 & g1 & g & Hget & Hm1 & Hg & ->).
  exists m. split; [done|]. split; [done|].
  assert (Hst : state m1 = state m /\ attributes m1 = {[ "get_graph" ]} ∪ attributes m).
  { unfold GraphMachine._get_graph in Hget. bind_inv Hget as m2 Hm2.
    assert (state m2 = state m /\ attributes m2 = {[ "get_graph" ]} ∪ attributes m) as Hm2'.
    { destruct (negb _ || false); [|by injection Hm2 as <-].
      bind_inv Hm2 as x Hx. bind_inv Hm2 as y Hy. by injection Hm2 as <-. }
    cbn [bind] in Hget. unfold GraphMachine.model_graph in Hget.
    destruct (graph m2); [|discriminate]. by injection Hget as <- _. }
  destruct Hst as [Hst Hat].
  split.
  { unfold hasattr. cbn [set_graph attributes]. rewrite Hat.
    apply bool_decide_eq_true_2, elem_of_union. left. by apply elem_of_singleton. }
  split; [done|]. intros Hnone.
  destruct (first_request_facts pgv_imported base (bind_attribute m "get_graph") m1 None
              false g1 (or_introl Hnone) Hget) as (_ & Hs1 & Hd1 & Hwf1 & _ & Hn1).
  destruct (set_node_state_inv g1 g (initial base) "active" Hs1) as (Hc & _ & _);
    [auto | done |].
  exists g. split; [done|]. split; [by eapply config_styled|].
  split; [by eapply config_node_defaults|].
  split; [apply (set_node_state_wf g1 g (initial base) "active"); auto|].
  intros Hinit. apply (mark_active_nodes g1 g (initial base) Hs1); [|done].
  intros n a Ha. cbn [bind_attribute state] in Hn1. rewrite Hinit in Hn1.
  destruct (Hn1 n a Ha) as [[-> ->]|[_ ->]]; auto.
Qed.

Lemma construction_marks_initial_witness :
  exists self m g a,
    flat_with_model = inr self
    /\ models self = [m] /\ hasattr m "get_graph" = true
    /\ graph m = Some g /\ styled g /\ node_defaults g
    /\ pgv.nodes g !! "A" = Some a /\ carries "active" a.
Proof.
  assert (Hok : match flat_with_model with
                | inr self =>
                    match models self with
                    | [m] => match graph m with
                             | Some g => bool_decide (is_Some (pgv.nodes g !! "A"))
                             | None => false
                             end
                    | _ => false
                    end
                | inl _ => false
                end = true) by (vm_compute; reflexivity).
  destruct flat_with_model as [e|self] eqn:E; [discriminate|].
  destruct (models self) as [|m [|m2 ms]] eqn:Ems; try discriminate.
  destruct (graph m) as [g|] eqn:Eg; [|discriminate].
  apply bool_decide_eq_true in Hok as [a Ha].
  destruct (construction_marks_initial true _ self E) as (_ & _ & _ & Hall).
  destruct (Hall 0 m) as (m0 & Hm0 & _ & Hattr & _ & Hfresh); [by rewrite Ems|].
  injection Hm0 as <-.
  destruct (Hfresh eq_refl) as (g' & Hg' & Hs & Hd & _ & Hn).
  rewrite Eg in Hg'. injection Hg' as <-.
  exists self, m, g, a. split; [reflexivity|]. split; [exact Ems|].
  split; [exact Hattr|]. split; [exact Eg|]. split; [exact Hs|]. split; [exact Hd|].
  split; [exact Ha|].
  destruct (Hn eq_refl "A" a Ha) as [[_ ->]|[Hne _]]; [apply carries_union | by destruct Hne].
Defined.

(** ** Restoring a pickled machine *)

Lemma get_graph_keeps_model (pgv_imported : bool) (self : Machine) (m m1 : Model)
    (ttl : option string) (force_new : bool) (g : pgv.AGraph) :
  GraphMachine._get_graph pgv_imported self m ttl force_new false = inr (m1, g) ->
  state m1 = state m /\ attributes m1 = attributes m /\ graph m1 = Some g.
Proof.
  unfold GraphMachine._get_graph. intros H. bind_inv H as m2 Hm2.
  assert (state m2 = state m /\ attributes m2 = attributes m) as [Hst Hat].
  { destruct (negb _ || force_new); [|by injection Hm2 as <-].
    bind_inv Hm2 as x Hx. bind_inv Hm2 as y Hy. by injection Hm2 as <-. }
  cbn [bind] in H. unfold GraphMachine.model_graph in H.
  destruct (graph m2) as [g2|] eqn:E; [|discriminate]. by injection H as <- <-.
Qed.

Lemma restore_model_inv (pgv_imported : bool) (self : Machine) (m m' : Model) :
  GraphMachine.restore_model pgv_imported self m = inr m' ->
  exists m1 g1 g',
    GraphMachine._get_graph pgv_imported self m None false false = inr (m1, g1)
    /\ GraphMachine.set_node_style g1 (state m) "active" = inr g'
    /\ m' = set_graph m1 g'.
Proof.
  unfold GraphMachine.restore_model. intros H. bind_inv H as r Hr. bind_inv H as g' Hg'.
  injection H as <-. destruct r as [m1 g1]. cbn [fst snd] in *.
  destruct (get_graph_keeps_model _ _ _ _ _ _ _ Hr) as (Hst & _ & _). rewrite Hst in Hg'.
  by exists m1, g1, g'.
Qed.

(** X15: when a pickled machine is restored, every model keeps its state
    and its other attributes and holds a graph in which the node of its state
    has the active style.  For a model that was pickled with its graph, that
    is the pickled graph with this one style applied; for a model that was
    pickled without (the machine itself, whose graph is never pickled), it is
    exactly the graph of a first request: roles and edges that transitions
    had left on the old graph are not restored. *)
Theorem setstate_restores (pgv_imported : bool) (st self : Machine) :
  GraphMachine.__setstate__ pgv_imported st = inr self ->
  states self = states st /\ events self = events st
  /\ length (models self) = length (models st)
  /\ forall i m', models self !! i = Some m' ->
       exists m g1 g',
         models st !! i = Some m
         /\ state m' = state m /\ attributes m' = attributes m
         /\ graph m' = Some g'
         /\ GraphMachine.set_node_style g1 (state m) "active" = inr g'
         /\ match graph m with
            | Some g => g1 = g
            | None =>
                GraphMachine._get_graph pgv_imported st m None false false
                = inr (set_graph m g1, g1)
                /\ g' = g1
            end.
Proof.
  unfold GraphMachine.__setstate__. intros H. bind_inv H as ms Hms. injection H as <-.
  destruct (map_result_inv _ _ _ Hms) as [Hlen Hall].
  do 2 (split; [done|]). split; [done|].
  intros i m' Hi. destruct (Hall i m' Hi) as (m & Hm & Hre).
  destruct (restore_model_inv _ _ _ _ Hre) as (m1 & g1 & g' & Hget & Hstyle & ->).
  destruct (get_graph_keeps_model _ _ _ _ _ _ _ Hget) as (Hst & Hat & _).
  exists m, g1, g'. do 4 (split; [done|]). split; [done|].
  destruct (graph m) as [g|] eqn:Eg.
  - rewrite (get_graph_cached _ _ _ _ _ Eg) in Hget. by injection Hget as _ <-.
  - destruct (first_request_facts _ _ _ _ _ _ _ (or_introl Eg) Hget)
      as (-> & Hs & _ & _ & _ & Hn).
    split; [done|].
    apply set_node_style_inv in Hstyle as (sa & a & Ha & Hsa & ->).
    rewrite styled_node_role in Hsa by auto. injection Hsa as <-.
    destruct (Hn _ _ Ha) as [[_ ->]|[Hne _]]; [|done].
    rewrite (assoc_L (∪)), (idemp_L (∪)), insert_id by done. apply set_nodes_id.
Qed.

Lemma setstate_restores_witness :
  exists self m g a,
    GraphMachine.__setstate__ true (set_models nested_machine [fresh_model]) = inr self
    /\ models self = [m] /\ graph m = Some g
    /\ pgv.nodes g !! "A" = Some a /\ carries "active" a.
Proof.
  set (st := set_models nested_machine [fresh_model]).
  assert (Hok : is_ok (GraphMachine.__setstate__ true st) = true)
    by (vm_compute; reflexivity).
  assert (Hst : models st = [fresh_model]) by reflexivity.
  clearbody st. apply is_ok_inv in Hok as [self E].
  destruct (setstate_restores true st self E) as (_ & _ & Hlen & Hall).
  rewrite Hst in Hlen.
  destruct (models self) as [|m [|m2 ms]] eqn:Ems; try discriminate.
  destruct (Hall 0 m eq_refl) as (m0 & g1 & g' & Hm0 & _ & _ & Hg' & Hstyle & Hfresh).
  rewrite Hst in Hm0. injection Hm0 as <-.
  cbn [graph fresh_model] in Hfresh. destruct Hfresh as [Hget ->].
  destruct (first_request_facts true st fresh_model _ None false g1
              (or_introl eq_refl) Hget) as (_ & _ & _ & _ & _ & Hn).
  apply set_node_style_inv in Hstyle as (sa & a & Ha & _ & _).
  exists self, m, g1, a. split; [exact E|]. split; [exact Ems|]. split; [exact Hg'|].
  split; [exact Ha|].
  destruct (Hn _ _ Ha) as [[_ ->]|[Hne _]]; [apply carries_union | by destruct Hne].
Defined.

(** X16: a pickled machine whose model rests in a state that is not a node
    of the model's graph (a composite state, drawn as a cluster) cannot be
    restored: once the models before it are restored, [__setstate__] fails
    with [KeyError], although a plain request for the graph completes. *)
Theorem setstate_needs_node (pgv_imported : bool) (st : Machine)
    (front back : list Model) (m m1 : Model) (g : pgv.AGraph) :
  models st = (front ++ m :: back)%list ->
  is_ok (map_result (GraphMachine.restore_model pgv_imported st) front) = true ->
  GraphMachine._get_graph pgv_imported st m None false false = inr (m1, g) ->
  pgv.nodes g !! state m = None ->
  exists msg, GraphMachine.__setstate__ pgv_imported st = inl (KeyError msg).
Proof.
  intros Hms Hfront Hget Hnone. unfold GraphMachine.__setstate__.
  rewrite Hms, map_result_app.
  destruct (map_result _ front) as [e|fs]; [discriminate|]. cbn [bind map_result].
  unfold GraphMachine.restore_model at 1.
  change (GraphMachine._get_graph pgv_imported st m (Some (title st)) false false)
    with (GraphMachine._get_graph pgv_imported st m None false false).
  rewrite Hget. cbn [bind fst snd].
  destruct (get_graph_keeps_model _ _ _ _ _ _ _ Hget) as (-> & _ & _).
  unfold GraphMachine.set_node_style, pgv.get_node.
  rewrite (proj2 (has_node_false g (state m)) Hnone). eexists. reflexivity.
Qed.

Lemma setstate_needs_node_witness :
  exists msg, GraphMachine.__setstate__ true pickled_in_P = inl (KeyError msg).
Proof.
  assert (Hchk : match GraphMachine._get_graph true pickled_in_P
                         {| state := "P"; graph := None; attributes := ∅ |}
                         None false false with
                 | inr r => bool_decide (pgv.nodes r.2 !! "P" = None)
                 | inl _ => false
                 end = true) by (vm_compute; reflexivity).
  destruct (GraphMachine._get_graph true pickled_in_P _ None false false)
    as [e|[m1 g]] eqn:E; [discriminate|].
  apply bool_decide_eq_true in Hchk.
  exact (setstate_needs_node true pickled_in_P [] []
           {| state := "P"; graph := None; attributes := ∅ |} m1 g
           eq_refl eq_refl E Hchk).
Defined.

(** ** The attributes of a built edge *)

Lemma add_edge_edges (g : pgv.AGraph) (u v : string) (k : option string) (a : Attrs) :
  pgv.edges (pgv.add_edge g u v k a)
  = (pgv.edges g ++ [{| pgv.e_from := u; pgv.e_to := v; pgv.e_key := k;
                        pgv.e_attr := a |}])%list.
Proof.
  unfold pgv.add_edge. cbn [pgv.edges pgv.set_edges].
  assert (Hadd : forall h n, pgv.edges (pgv.add_node h n ∅) = pgv.edges h) by done.
  destruct (pgv.has_node g u); destruct (pgv.has_node _ v); by rewrite ?Hadd.
Qed.

Lemma first_for_snoc (p : string * string) (ds : list Drawn) (d : Drawn) :
  first_for p (ds ++ [d])
  = match first_for p ds with
    | Some d0 => Some d0
    | None => if bool_decide (d_ends d = p) then Some d else None
    end.
Proof.
  unfold first_for. induction ds as [|d0 ds IH]; cbn [app List.find]; [done|].
  by destruct (bool_decide (d_ends d0 = p)).
Qed.

Lemma first_for_none (p : string * string) (ds : list Drawn) :
  labels_for p ds = [] -> first_for p ds = None.
Proof.
  unfold labels_for, first_for. induction ds as [|d ds IH]; cbn [List.filter List.find]; [done|].
  destruct (bool_decide (d_ends d = p)); [discriminate | exact IH].
Qed.

Lemma edges_exact_place (g : pgv.AGraph) (ds : list Drawn) (d : Drawn) :
  reflects g ds -> edges_exact g ds -> edges_exact (place g d) (ds ++ [d]).
Proof.
  intros Hr Hex. pose proof Hr as (Hwf & Hnd & Hlab & Hall). unfold place.
  destruct (pgv.has_edge g (d_from d) (d_to d)) eqn:E.
  - apply has_edge_wf in E; [|done].
    destruct (pgv.find_edge (pgv.edges g) (d_from d) (d_to d)) as [i|] eqn:Ef;
      [|by apply find_edge_None in Ef].
    destruct (find_edge_Some _ _ _ _ Ef) as (e0 & He0 & Hfrom & Hto).
    assert (Hends0 : ends e0 = d_ends d) by (unfold ends, d_ends; congruence).
    intros e' (j & Hj)%list_elem_of_lookup. cbn [pgv.edges pgv.set_edges] in Hj.
    destruct (decide (i = j)) as [<-|Hne].
    + rewrite list_lookup_alter_eq, He0 in Hj. injection Hj as <-.
      destruct (Hex e0) as (Hkey & d0 & Hd0 & Hattr); [by eapply list_elem_of_lookup_2|].
      destruct (Hlab e0) as [Hnonempty _]; [by eapply list_elem_of_lookup_2|].
      split; [done|]. exists d0. rewrite append_label_ends.
      split; [by rewrite first_for_snoc, Hd0|].
      cbn [AGraph.append_label pgv.e_attr]. rewrite Hattr. unfold merged_attrs.
      rewrite lookup_insert_eq, insert_insert_eq. cbn [default].
      rewrite labels_for_snoc, Hends0. rewrite bool_decide_eq_true_2 by done.
      rewrite Hends0 in Hnonempty. by rewrite concat_snoc.
    + rewrite list_lookup_alter_ne in Hj by done.
      assert (He' : e' ∈ pgv.edges g) by (by eapply list_elem_of_lookup_2).
      assert (Hdiff : ends e' ≠ d_ends d).
      { intros Heq. apply Hne.
        apply (NoDup_lookup _ i j (ends e0) Hnd); rewrite list_lookup_fmap.
        - by rewrite He0.
        - rewrite Hj. simpl. congruence. }
      destruct (Hex e' He') as (Hkey & d0 & Hd0 & Hattr).
      split; [done|]. exists d0. split; [by rewrite first_for_snoc, Hd0|].
      rewrite Hattr. unfold merged_attrs. rewrite labels_for_snoc.
      rewrite bool_decide_eq_false_2 by done. by rewrite app_nil_r.
  - assert (Hfresh : d_ends d ∉ ends <$> pgv.edges g).
    { intros Hin. apply (has_edge_wf g) in Hin; [|done]. congruence. }
    intros e'. rewrite add_edge_edges. intros [He'|He']%elem_of_app.
    + assert (Hdiff : ends e' ≠ d_ends d).
      { intros Heq. apply Hfresh. rewrite <- Heq. by apply list_elem_of_fmap_2. }
      destruct (Hex e' He') as (Hkey & d0 & Hd0 & Hattr).
      split; [done|]. exists d0. split; [by rewrite first_for_snoc, Hd0|].
      rewrite Hattr. unfold merged_attrs. rewrite labels_for_snoc.
      rewrite bool_decide_eq_false_2 by done. by rewrite app_nil_r.
    + apply list_elem_of_singleton in He' as ->. split; [done|].
      assert (Hlabs : labels_for (d_ends d) ds = []).
      { destruct (labels_for (d_ends d) ds) eqn:El; [done|].
        destruct (labels_for_nonempty (d_ends d) ds) as (d0 & Hd0 & Heq); [by rewrite El|].
        destruct Hfresh. rewrite <- Heq. by apply Hall. }
      exists d. change (ends _) with (d_ends d).
      split.
      * rewrite first_for_snoc, (first_for_none _ _ Hlabs).
        by rewrite bool_decide_eq_true_2.
      * cbn [pgv.e_attr]. unfold merged_attrs. rewrite labels_for_snoc, Hlabs.
        by rewrite bool_decide_eq_true_2.
Qed.

Lemma edges_exact_foldl (ds : list Drawn) :
  forall g ds0,
    reflects g ds0 -> edges_exact g ds0 -> edges_exact (foldl place g ds) (ds0 ++ ds).
Proof.
  induction ds as [|d ds IH]; intros g ds0 Hr Hex.
  - by rewrite app_nil_r.
  - cbn [foldl]. replace (ds0 ++ d :: ds)%list with ((ds0 ++ [d]) ++ ds)%list
      by (by rewrite <- app_assoc).
    apply IH; [by apply reflects_place | by apply edges_exact_place].
Qed.

(** X18: every edge of a built graph has no key and exactly three
    attributes: the label, made of the labels of the drawn transitions
    between its ends, and the cluster markers [ltail] and [lhead] of the
    first of them.  The markers of the transitions merged into it later are
    dropped. *)
Theorem built_edge_attributes (pgv_imported : bool) (machine : Machine) (ttl : string)
    (g : pgv.AGraph) :
  AGraph.get_graph pgv_imported machine ttl = inr g ->
  exists ds,
    drawn machine = inr ds
    /\ forall e, e ∈ pgv.edges g ->
         pgv.e_key e = None
         /\ exists d,
              first_for (ends e) ds = Some d
              /\ pgv.e_attr e
                 = {[ "label" := String.concat " | " (labels_for (ends e) ds);
                      "ltail" := d_ltail d; "lhead" := d_lhead d ]}.
Proof.
  unfold AGraph.get_graph. destruct (negb pgv_imported); [discriminate|].
  intros H. bind_inv H as g1 Hg1. injection H as <-.
  rewrite add_edges_place in Hg1. bind_inv Hg1 as ds Hds. injection Hg1 as <-.
  exists ds. split; [done|].
  apply (edges_exact_foldl ds _ []).
  - apply reflects_nil. by rewrite add_nodes_edges.
  - intros e. rewrite add_nodes_edges. intros He. by apply elem_of_nil in He.
Qed.

(** On [blanket_machine] with auto transitions shown, [to_A] runs to [A]
    from the composite [P], resolved to [P_1] with the marker of the cluster,
    and from [P_1] itself: the one edge has the marker of the first. *)
Lemma built_edge_attributes_witness :
  exists g e,
    AGraph.get_graph true (blanket_machine true) "" = inr g
    /\ e ∈ pgv.edges g /\ ends e = ("P_1", "A")
    /\ pgv.e_attr e
       = {[ "label" := "to_A | to_A"; "ltail" := "cluster_P"; "lhead" := "" ]}.
Proof.
  assert (Hchk : match AGraph.get_graph true (blanket_machine true) "" with
                 | inr g => match pgv.edges g !! 0 with
                            | Some e => bool_decide (ends e = ("P_1", "A"))
                            | None => false
                            end
                 | inl _ => false
                 end = true) by (vm_compute; reflexivity).
  destruct (AGraph.get_graph true (blanket_machine true) "") as [x|g] eqn:Hg;
    [discriminate|].
  destruct (pgv.edges g !! 0) as [e|] eqn:He; [|discriminate].
  apply bool_decide_eq_true in Hchk.
  destruct (built_edge_attributes true (blanket_machine true) "" g Hg) as (ds & Hds & Hall).
  vm_compute in Hds. injection Hds as <-.
  destruct (Hall e) as (_ & d & Hd & Hattr); [by eapply list_elem_of_lookup_2|].
  rewrite Hchk in Hd, Hattr. vm_compute in Hd. injection Hd as <-.
  exists g, e. split; [reflexivity|]. split; [by eapply list_elem_of_lookup_2|].
  split; [exact Hchk | exact Hattr].
Defined.
